(** * VirtualShield: the protocol engine of the virtual-shields Arduino driver

    A shallow embedding of [src/VirtualShield/VirtualShield.cpp] and of the
    [EPtr] field value of [src/VirtualShield/SensorModels.h]: the message
    encoder, the frame assembler ([getEvent]), the event decoder and
    dispatcher ([onJsonReceived]), the peripheral registry ([addSensor]) and
    the request correlator ([beginWrite], [writeAll], [checkSensors],
    [waitFor]); then the start of the driver ([begin]), [block], the hash
    and [parseToHash], [EPtr::parse] and [ARGB::hex].

    Conventions.
    - C integers are [Z]; where the source increments a counter that can
      reach the end of its type ([nextId], [bracketCount], the hash) the
      wrap-around is written out, for a board whose [int] has [int_bits]
      bits.
    - Text is [list ascii]; a C string is the part of it before the first
      NUL ([c_str]).
    - The globals and members of the driver are the fields of [Engine],
      [FrameBuffer] and [Shield]; every operation passes the state
      explicitly.
    - What the driver does to the outside world is recorded: bytes written
      to the serial port in [tx], callbacks and peripheral decodes invoked in
      [log].  The bodies of user callbacks are outside the driver.
    - The world around the driver is a port with the bytes available to
      read ([rx]) and a millisecond clock ([millis]); a [Moment] says how
      much time passes and which bytes arrive between two polls.
    - [Uno] is a board to run the driver on: 16-bit [int] and a small
      reader of flat JSON objects in the place of the generic parser. *)

From Stdlib Require Import ZArith Ascii String List Bool Lia DecimalString.
From stdpp Require Import base tactics list.
Import ListNotations.
Local Open Scope Z_scope.
#[local] Set Warnings "-register-all".

(** ** Text *)

Abbreviation text := (list ascii).

Definition lit (s : string) : text := list_ascii_of_string s.

Definition NUL : ascii := Ascii.zero.

(** The C string stored in a character array: the bytes before the first
    NUL (what [strcpy], [strlen] and [print(const char* )] see). *)
Fixpoint c_str (l : text) : text :=
  match l with
  | [] => []
  | c :: l' => if Ascii.eqb c NUL then [] else c :: c_str l'
  end.

(** [s[0]] of a C string: the terminator when the string is empty. *)
Definition first_char (s : text) : ascii :=
  match c_str s with
  | [] => NUL
  | c :: _ => c
  end.

(** ** The board and the external collaborators *)

(** What the Arduino core fixes for a board: the width of [int] and
    [unsigned int], the signedness of plain [char], the rendering of
    [Print::print(double, digits)], and what a read through a null
    [const char*] yields (undefined in C++; a board reads some bytes). *)
Class Board := {
  int_bits : Z;
  int_bits_min : 16 <= int_bits;
  char_signed : bool;
  null_text : text;
  double : Type;
  print_double : double -> Z -> text
}.

(** The generic JSON parser (ArduinoJson): [parseObject] and the accessors
    [static_cast<T>(root[key])], which yield a null pointer or zero for a
    missing key. *)
Class JsonLib `{Board} := {
  JsonObject : Type;
  parseObject : text -> option JsonObject;
  as_text : JsonObject -> text -> option text;
  as_int : JsonObject -> text -> Z;
  as_long : JsonObject -> text -> Z;
  as_double : JsonObject -> text -> double
}.

(** Constants that [VirtualShield.h] and [Sensor.h] declare. *)
Class Header := {
  PING_HASH : Z;
  REFRESH_HASH : Z;
  CONNECT_HASH : Z;
  SUSPEND_HASH : Z;
  RESUME_HASH : Z;
  ACTION : text;
  SensorShieldEventType : Z
}.

(** ** SensorModels.h *)

Module Ptr.
(** [enum EPtrType] *)
Inductive t :=
| None | ProgPtr | MemPtr | Int | Uint | Double | Long | Bool | Char
| ArrayStart | ArrayEnd | ValueOnly | Format | Parse.
End Ptr.

Module EPtr.
Section WithBoard.
Context `{Board}.

(** The anonymous union of [struct EPtr]: one member is stored at a time. *)
Inductive Payload :=
| NoValue
| Text (value : text)
| DoubleValue (doubleValue : double)
| UintValue (uintValue : Z)
| IntValue (intValue : Z)
| LongValue (longValue : Z)
| BoolValue (boolValue : bool)
| CharValue (charValue : ascii).

(** [struct EPtr] *)
Inductive t := mk {
  ptrType : Ptr.t;
  key : text;
  payload : Payload;
  length : Z;
  keyIsMem : bool;
  asText : bool;
  encoded : bool;
  eptrs : list t
}.

(** Reading a member of the union.  The tag says which member was stored;
    reading another one reinterprets its bytes in C++, and reads an empty
    or zero value here. *)
Definition value (p : Payload) : text :=
  match p with Text v => v | _ => [] end.
Definition intValue (p : Payload) : Z :=
  match p with IntValue i => i | _ => 0 end.
Definition uintValue (p : Payload) : Z :=
  match p with UintValue u => u | _ => 0 end.
Definition longValue (p : Payload) : Z :=
  match p with LongValue l => l | _ => 0 end.
Definition boolValue (p : Payload) : bool :=
  match p with BoolValue b => b | _ => false end.
Definition charValue (p : Payload) : ascii :=
  match p with CharValue c => c | _ => NUL end.

(** [EPtr(const char* key, const char* value)] *)
Definition of_prog (k v : text) : t :=
  mk Ptr.ProgPtr k (Text v) 0 false true false [].

(** [EPtr(EPtrType ptrType, const char* key, const char* value)] *)
Definition of_typed (ty : Ptr.t) (k v : text) : t :=
  mk ty k (Text v) (-1) false true false [].

(** [EPtr(const char* key, const char value)] *)
Definition of_char (k : text) (v : ascii) : t :=
  mk (if Ascii.eqb v NUL then Ptr.None else Ptr.Char)
     k (CharValue v) 0 false true false [].

(** [EPtr(const char* key, int value, EPtrType ptrType = Int)] *)
Definition of_int (k : text) (v : Z) : t :=
  mk Ptr.Int k (IntValue v) 0 false false false [].
End WithBoard.
End EPtr.

(** ** ShieldEvent *)

Module ShieldEvent.
Section WithJson.
Context `{JsonLib}.

(** The members of [ShieldEvent] that the driver reads or writes; a text
    member is a pointer, null ([None]) when the frame has no such key.
    [sensor] is the back-reference of the [SensorEvent] subtype, kept as
    the index of the peripheral in the registry. *)
Record t := mk {
  tag : option text;
  id : Z;
  resultId : Z;
  result : option text;
  resultHash : Z;
  action : option text;
  actionHash : Z;
  value : double;
  cargo : option JsonObject;
  shieldEventType : Z;
  sensor : option nat
}.

Definition set_tag v (e : t) :=
  mk v (id e) (resultId e) (result e) (resultHash e) (action e)
     (actionHash e) (value e) (cargo e) (shieldEventType e) (sensor e).
Definition set_id v (e : t) :=
  mk (tag e) v (resultId e) (result e) (resultHash e) (action e)
     (actionHash e) (value e) (cargo e) (shieldEventType e) (sensor e).
Definition set_resultId v (e : t) :=
  mk (tag e) (id e) v (result e) (resultHash e) (action e)
     (actionHash e) (value e) (cargo e) (shieldEventType e) (sensor e).
Definition set_result v (e : t) :=
  mk (tag e) (id e) (resultId e) v (resultHash e) (action e)
     (actionHash e) (value e) (cargo e) (shieldEventType e) (sensor e).
Definition set_resultHash v (e : t) :=
  mk (tag e) (id e) (resultId e) (result e) v (action e)
     (actionHash e) (value e) (cargo e) (shieldEventType e) (sensor e).
Definition set_action v (e : t) :=
  mk (tag e) (id e) (resultId e) (result e) (resultHash e) v
     (actionHash e) (value e) (cargo e) (shieldEventType e) (sensor e).
Definition set_actionHash v (e : t) :=
  mk (tag e) (id e) (resultId e) (result e) (resultHash e) (action e)
     v (value e) (cargo e) (shieldEventType e) (sensor e).
Definition set_value v (e : t) :=
  mk (tag e) (id e) (resultId e) (result e) (resultHash e) (action e)
     (actionHash e) v (cargo e) (shieldEventType e) (sensor e).
Definition set_cargo v (e : t) :=
  mk (tag e) (id e) (resultId e) (result e) (resultHash e) (action e)
     (actionHash e) (value e) v (shieldEventType e) (sensor e).
Definition set_sensor v (e : t) :=
  mk (tag e) (id e) (resultId e) (result e) (resultHash e) (action e)
     (actionHash e) (value e) (cargo e) (shieldEventType e) v.
End WithJson.
End ShieldEvent.

(** A peripheral: its one-character discriminator and its own decode,
    which may rewrite the event it is handed. *)
Record Sensor `{JsonLib} := {
  sensorType : ascii;
  sensor_onJsonReceived : JsonObject -> ShieldEvent.t -> ShieldEvent.t
}.

(** The callback slots of the driver. *)
Inductive Callback := onConnect | onSuspend | onResume | onRefresh | onEvent.

(** What the dispatcher calls, in order: a registered callback with the
    event it is handed, or the decode of the peripheral at an index of the
    registry. *)
Inductive Effect `{JsonLib} :=
| Invoked (cb : Callback) (ev : ShieldEvent.t)
| Decoded (i : nat) (ev : ShieldEvent.t).

(** ** VirtualShield.cpp: constants and state *)

Definition DEFAULT_LENGTH : Z := -1.
Definition SERIAL_ERROR : Z := -1.
Definition SERIAL_SUCCESS : Z := 0.

Definition MESSAGE_SERVICE_START : text := lit "{'Service':'".
Definition MESSAGE_SERVICE_TO_ID : text := lit "','Id':".
Definition MESSAGE_QUOTE : text := lit "'".
Definition MESSAGE_SEPARATOR : text := lit ",'".
Definition MESSAGE_PAIR_SEPARATOR : text := lit "':".
Definition MESSAGE_END2 : text := lit "}".
Definition ARRAY_START : text := lit "[{".
Definition ARRAY_END : text := lit "}]".
Definition SERVICE_NAME_SERVICE : text := lit "SYSTEM".
Definition PONG : text := lit "PONG".
Definition TYPE : text := lit "TYPE".

Definition AWAITING_MESSAGE : text := lit "{}".
Definition SYSTEM_EVENT : ascii := "!"%char.

Definition requestInterval : Z := 1000.
Definition perMessageInterval : Z := 25.
Definition maxRememberedSensors : Z := 10.
Definition maxReadBuffer : Z := 128.

Section Driver.
Context {B : Board} {J : JsonLib} {Hdr : Header}.

(** [n++] on an [int]: two's complement wrap-around at [int_bits]. *)
Definition wrap_int (z : Z) : Z :=
  (z + 2 ^ (int_bits - 1)) mod 2 ^ int_bits - 2 ^ (int_bits - 1).

(** Arithmetic on [unsigned int]. *)
Definition wrap_uint (z : Z) : Z := z mod 2 ^ int_bits.

(** Conversion to [byte] ([uint8_t]). *)
Definition to_byte (z : Z) : Z := z mod 256.

(** The value of a plain [char] in an arithmetic expression. *)
Definition char_value (c : ascii) : Z :=
  let n := Z.of_N (N_of_ascii c) in
  if char_signed && (128 <=? n) then n - 256 else n.

(** [Print::print] of an integer: decimal digits, a leading minus sign. *)
Definition print_int (z : Z) : text :=
  lit (NilZero.string_of_int (Z.to_int z)).

(** The state the encoder and the dispatcher work on: the output side of
    the serial port, the millisecond clock, and the globals and members
    [lastOpenRequest], [isArrayStarted], [recentEventErrorId],
    [sensors]/[sensorCount] (the registry holds [sensors[0]] to
    [sensors[sensorCount-1]], so [sensorCount] is its length), [nextId],
    the callback slots (true: a function is registered) and the record of
    calls made. *)
Record Engine := mkEngine {
  tx : text;
  millis : Z;
  lastOpenRequest : Z;
  isArrayStarted : bool;
  recentEventErrorId : Z;
  sensors : list Sensor;
  nextId : Z;
  callbacks : Callback -> bool;
  log : list Effect
}.

Definition set_tx v (c : Engine) :=
  mkEngine v (millis c) (lastOpenRequest c) (isArrayStarted c)
    (recentEventErrorId c) (sensors c) (nextId c) (callbacks c) (log c).
Definition set_millis v (c : Engine) :=
  mkEngine (tx c) v (lastOpenRequest c) (isArrayStarted c)
    (recentEventErrorId c) (sensors c) (nextId c) (callbacks c) (log c).
Definition set_lastOpenRequest v (c : Engine) :=
  mkEngine (tx c) (millis c) v (isArrayStarted c)
    (recentEventErrorId c) (sensors c) (nextId c) (callbacks c) (log c).
Definition set_isArrayStarted v (c : Engine) :=
  mkEngine (tx c) (millis c) (lastOpenRequest c) v
    (recentEventErrorId c) (sensors c) (nextId c) (callbacks c) (log c).
Definition set_recentEventErrorId v (c : Engine) :=
  mkEngine (tx c) (millis c) (lastOpenRequest c) (isArrayStarted c)
    v (sensors c) (nextId c) (callbacks c) (log c).
Definition set_sensors v (c : Engine) :=
  mkEngine (tx c) (millis c) (lastOpenRequest c) (isArrayStarted c)
    (recentEventErrorId c) v (nextId c) (callbacks c) (log c).
Definition set_nextId v (c : Engine) :=
  mkEngine (tx c) (millis c) (lastOpenRequest c) (isArrayStarted c)
    (recentEventErrorId c) (sensors c) v (callbacks c) (log c).
Definition set_log v (c : Engine) :=
  mkEngine (tx c) (millis c) (lastOpenRequest c) (isArrayStarted c)
    (recentEventErrorId c) (sensors c) (nextId c) (callbacks c) v.

(** Operations that read and change the engine and return a value. *)
Definition M (A : Type) : Type := Engine -> A * Engine.

Definition ret {A} (a : A) : M A := fun c => (a, c).

Definition bind {A B} (m : M A) (k : A -> M B) : M B :=
  fun c => let (a, c1) := m c in k a c1.

Notation "x <- m ;; k" := (bind m (fun x => k))
  (at level 100, m at next level, right associativity).
Notation "m ;;; k" := (bind m (fun _ => k))
  (at level 100, right associativity).

(** [if (m != 0) return SERIAL_ERROR; k] *)
Definition or_fail (m : M Z) (k : M Z) : M Z :=
  r <- m ;; if r =? 0 then k else ret SERIAL_ERROR.

(** [_VShieldSerial->write] and [print] of text. *)
Definition serial_write (bytes : text) : M unit :=
  fun c => (tt, set_tx (tx c ++ bytes) c).

(** [if (slot) slot(shieldEvent);] *)
Definition invoke (cb : Callback) (ev : ShieldEvent.t) : M unit :=
  fun c => (tt, if callbacks c cb
                then set_log (log c ++ [Invoked cb ev]) c else c).

(** *** The peripheral registry *)

Definition sensorCount (c : Engine) : Z := Z.of_nat (length (sensors c)).

Definition addSensor (sensor : Sensor) : M bool :=
  fun c =>
    if sensorCount c =? maxRememberedSensors then (false, c)
    else (true, set_sensors (sensors c ++ [sensor]) c).

(** *** The message encoder *)

Definition flush : M unit :=
  fun c => (tt, set_lastOpenRequest (millis c) c).

(** The loop of [sendFlashStringOnSerial] from index [i] on, over the
    bytes [l] left of the flash string; [out] collects what is written. *)
Fixpoint sendFlash_from (isFormatted encode : bool) (i : Z) (l out : text)
  : Z * text :=
  match l with
  | [] => (SERIAL_SUCCESS, out)
  | dataChar :: l' =>
      if isFormatted && Ascii.eqb dataChar "~" then (i + 1, out)
      else sendFlash_from isFormatted encode (i + 1) l'
             (out ++ (if encode && Ascii.eqb dataChar "'"
                      then ["\"%char] else []) ++ [dataChar])
  end.

Definition sendFlashStringOnSerial (flashString : text) (start : Z)
  (encode : bool) : M Z :=
  fun c =>
    let actualStart := if start <? 0 then 0 else start in
    let isFormatted := DEFAULT_LENGTH <? start in
    let (r, out) :=
      sendFlash_from isFormatted encode actualStart
        (drop (Z.to_nat actualStart) (c_str flashString)) [] in
    (r, set_tx (tx c ++ out) c).

(** Modelled from the spec: the default arguments of
    [sendFlashStringOnSerial] and [writeValue], which the header declares:
    constant text is copied byte for byte, the stop at the sentinel being
    the optional mode of the composite renderer. *)
Definition sendFlash (flashString : text) : M Z :=
  sendFlashStringOnSerial flashString DEFAULT_LENGTH false.

Definition beginWrite (serviceName : text) : M Z :=
  fun c =>
    let id := nextId c in
    let c := set_nextId (wrap_int (nextId c + 1)) c in
    let c := if nextId c <? 0 then set_nextId 1 c else c in
    or_fail (sendFlash MESSAGE_SERVICE_START)
      (or_fail (sendFlash serviceName)
         (or_fail (sendFlash MESSAGE_SERVICE_TO_ID)
            (serial_write (print_int id) ;;; ret id))) c.

Definition endWrite : M Z :=
  or_fail (sendFlash MESSAGE_END2) (flush ;;; ret SERIAL_SUCCESS).

(** The bytes the [MemPtr] loop of [writeValue] sends: up to the
    terminator when [length] is -1, [length] bytes otherwise, each quote
    and backslash escaped unless the value is marked encoded. *)
Definition escape (encoded : bool) (c : ascii) : text :=
  if negb encoded && (Ascii.eqb c "'" || Ascii.eqb c "\")
  then ["\"%char; c] else [c].

Definition mem_bytes (v : text) (count : Z) (encoded : bool) : text :=
  flat_map (escape encoded)
    (if count =? -1 then c_str v else take (Z.to_nat count) v).

(** [writeValue].  In the [Format] case [eptrs[0]] is the template and
    the values follow it; an index past the end of [eptrs] (undefined in
    C++) ends the loop here. *)
Fixpoint writeValue (eptr : EPtr.t) (start : Z) {struct eptr} : M Z :=
  match eptr with
  | EPtr.mk ty _ p len _ _ enc es =>
      match ty with
      | Ptr.ArrayStart =>
          fun c =>
            let (result, c1) := sendFlash ARRAY_START c in
            (result, set_isArrayStarted true c1)
      | Ptr.ProgPtr => sendFlashStringOnSerial (EPtr.value p) start true
      | Ptr.MemPtr =>
          serial_write (mem_bytes (EPtr.value p) len enc) ;;; ret 0
      | Ptr.Char => serial_write [EPtr.charValue p] ;;; ret 0
      | Ptr.Int => serial_write (print_int (EPtr.intValue p)) ;;; ret 0
      | Ptr.Uint => serial_write (print_int (EPtr.uintValue p)) ;;; ret 0
      | Ptr.Long => serial_write (print_int (EPtr.longValue p)) ;;; ret 0
      | Ptr.Double =>
          match p with
          | EPtr.DoubleValue d => serial_write (print_double d 4) ;;; ret 0
          | _ => ret 0
          end
      | Ptr.Bool =>
          serial_write (print_int (if EPtr.boolValue p then 1 else 0)) ;;;
          ret 0
      | Ptr.Format =>
          match es with
          | [] => ret 0
          | template :: values =>
              (fix loop (values : list EPtr.t) (formatPositionIndex : Z)
                 {struct values} : M Z :=
                 fun c =>
                   let (fpi, c1) :=
                     writeValue template formatPositionIndex c in
                   if fpi =? 0 then (0, c1)
                   else
                     match values with
                     | [] => (0, c1)
                     | next :: values' =>
                         let (result, c2) := writeValue next (-1) c1 in
                         if negb (result =? 0) then (result, c2)
                         else if 0 <? fpi then loop values' fpi c2
                              else (result, c2)
                     end) values 0
          end
      | _ => ret 0
      end
  end.

(** [write(EPtr)] *)
Definition write (eptr : EPtr.t) : M Z :=
  match EPtr.ptrType eptr with
  | Ptr.None => ret SERIAL_SUCCESS
  | Ptr.ArrayEnd => or_fail (sendFlash ARRAY_END) (ret SERIAL_SUCCESS)
  | _ =>
      fun c =>
        or_fail
          (if isArrayStarted c
           then r <- sendFlash MESSAGE_QUOTE ;;
                if r =? 0
                then fun c1 => (0, set_isArrayStarted false c1)
                else ret r
           else sendFlash MESSAGE_SEPARATOR)
          (or_fail
             (if EPtr.keyIsMem eptr
              then serial_write (c_str (EPtr.key eptr)) ;;; ret 0
              else sendFlash (EPtr.key eptr))
             (or_fail (sendFlash MESSAGE_PAIR_SEPARATOR)
                (or_fail
                   (if EPtr.asText eptr then sendFlash MESSAGE_QUOTE
                    else ret 0)
                   (writeValue eptr DEFAULT_LENGTH ;;;
                    or_fail
                      (if EPtr.asText eptr then sendFlash MESSAGE_QUOTE
                       else ret 0)
                      (ret SERIAL_SUCCESS))))) c
  end.

Fixpoint write_each (values : list EPtr.t) : M unit :=
  match values with
  | [] => ret tt
  | v :: values' => write v ;;; write_each values'
  end.

(** [writeAll(serviceName)] *)
Definition writeAll_service (serviceName : text) : M Z :=
  id <- beginWrite serviceName ;;
  r <- endWrite ;;
  if negb (r =? 0) then ret SERIAL_ERROR else ret (to_byte id).

(** [writeAll(serviceName, values, count, extraAttributes,
    extraAttributeCount, sensorType)]: the arrays are lists, the counts
    their lengths; [id] is declared [byte]. *)
Definition writeAll (serviceName : text)
  (values extraAttributes : list EPtr.t) (sensorType : ascii) : M Z :=
  id <- beginWrite serviceName ;;
  write_each values ;;;
  (if Ascii.eqb sensorType NUL then ret 0
   else write (EPtr.of_char TYPE sensorType)) ;;;
  write_each extraAttributes ;;;
  r <- endWrite ;;
  if negb (r =? 0) then ret SERIAL_ERROR else ret (to_byte id).

(** *** The hash *)

Fixpoint hash_loop (s : text) (h : Z) : Z :=
  match s with
  | [] => h
  | c :: s' => hash_loop s' (wrap_uint (h * 101 + char_value c))
  end.

(** [hash(s, len, seed)]: [len] is -1 to read up to the terminator. *)
Definition hash (s : text) (len seed : Z) : Z :=
  hash_loop (if len =? -1 then c_str s else take (Z.to_nat len) s) seed.

(** Modelled from the spec: the default arguments of [hash], which the
    header declares: seed 0, read up to the terminator.  The argument is a
    pointer that is null when the key is missing from the frame. *)
Definition hash_of (s : option text) : Z :=
  hash (default null_text s) (-1) 0.

(** *** The event decoder and the dispatcher *)

(** Modelled from the spec: the default arguments of [writeAll], which the
    header declares: no extra attributes and no sensor type. *)
Definition sendPingBack (shieldEvent : ShieldEvent.t) : M unit :=
  writeAll SERVICE_NAME_SERVICE
    [EPtr.of_prog ACTION PONG; EPtr.of_typed Ptr.MemPtr TYPE (lit "!")]
    [] NUL ;;; ret tt.

(** The system events: the [switch] on the hash of [Result], its cases in
    the order of the source, and the refresh callback after it. *)
Definition system_event (shieldEvent : ShieldEvent.t) : M unit :=
  let h := ShieldEvent.resultHash shieldEvent in
  refresh <-
    (if h =? PING_HASH then sendPingBack shieldEvent ;;; ret false
     else if h =? REFRESH_HASH then ret true
     else if h =? CONNECT_HASH then
       invoke onConnect shieldEvent ;;; ret true
     else if h =? SUSPEND_HASH then
       invoke onSuspend shieldEvent ;;; ret false
     else if h =? RESUME_HASH then
       invoke onResume shieldEvent ;;; ret true
     else ret false) ;;
  if refresh then invoke onRefresh shieldEvent else ret tt.

(** The scan of the registry from index [i] on: the first peripheral whose
    discriminator matches decodes the event, and the scan stops. *)
Fixpoint sensor_scan (i : nat) (l : list Sensor) (sensorTypeChar : ascii)
  (root : JsonObject) (shieldEvent : ShieldEvent.t) : M ShieldEvent.t :=
  match l with
  | [] => ret shieldEvent
  | s :: l' =>
      if Ascii.eqb (sensorType s) sensorTypeChar then
        fun c =>
          let ev1 := sensor_onJsonReceived s root shieldEvent in
          let ev2 :=
            if ShieldEvent.shieldEventType ev1 =? SensorShieldEventType
            then ShieldEvent.set_sensor (Some i) ev1 else ev1 in
          (ev2, set_log (log c ++ [Decoded i shieldEvent]) c)
      else sensor_scan (S i) l' sensorTypeChar root shieldEvent
  end.

(** The head of [onJsonReceived]: the canonical fields are read from the
    frame into the event, one assignment after the other. *)
Definition populate (root : JsonObject) (shieldEvent : ShieldEvent.t)
  : ShieldEvent.t :=
  let sensorType := as_text root (lit "Type") in
  let ev := ShieldEvent.set_tag (as_text root (lit "Tag")) shieldEvent in
  let ev := ShieldEvent.set_id (as_int root (lit "Pid")) ev in
  let ev := if ShieldEvent.id ev =? 0
            then ShieldEvent.set_id (as_int root (lit "Id")) ev else ev in
  let ev := ShieldEvent.set_resultId (as_long root (lit "ResultId")) ev in
  let ev := ShieldEvent.set_tag sensorType ev in
  let ev := ShieldEvent.set_result (as_text root (lit "Result")) ev in
  let ev := ShieldEvent.set_resultHash
              (hash_of (ShieldEvent.result ev)) ev in
  let ev := ShieldEvent.set_action (as_text root (lit "Action")) ev in
  let ev := ShieldEvent.set_actionHash
              (hash_of (ShieldEvent.action ev)) ev in
  ShieldEvent.set_value (as_double root (lit "Value")) ev.

Definition onJsonReceived (root : JsonObject) (shieldEvent : ShieldEvent.t)
  : M ShieldEvent.t :=
  let sensorType := as_text root (lit "Type") in
  let ev := populate root shieldEvent in
  ev <- match sensorType with
        | Some ty =>
            if Ascii.eqb (first_char ty) SYSTEM_EVENT then
              let ev := ShieldEvent.set_cargo (Some root) ev in
              system_event ev ;;; ret ev
            else
              fun c => sensor_scan 0 (sensors c) (first_char ty) root ev c
        | None => ret ev
        end ;;
  invoke onEvent ev ;;; ret ev.

Definition onJsonStringReceived (json : text) (shieldEvent : ShieldEvent.t)
  : M ShieldEvent.t :=
  match parseObject json with
  | Some root => onJsonReceived root shieldEvent
  | None => ret shieldEvent
  end.

(** [strcpy] copies the buffer up to its first NUL. *)
Definition onStringReceived (buffer : text) (length : Z)
  (shieldEvent : ShieldEvent.t) : M ShieldEvent.t :=
  onJsonStringReceived (c_str buffer) shieldEvent.

(** *** The frame assembler *)

(** [readBuffer], [readBufferIndex] and [bracketCount]. *)
Record FrameBuffer := mkFrameBuffer {
  readBuffer : text;
  readBufferIndex : Z;
  bracketCount : Z
}.

(** The whole driver: the frame buffer, the bytes the serial port has
    available to read, the member [recentEvent], and the engine. *)
Record Shield := mkShield {
  frame : FrameBuffer;
  rx : text;
  recentEvent : ShieldEvent.t;
  engine : Engine
}.

Definition set_engine v (s : Shield) :=
  mkShield (frame s) (rx s) (recentEvent s) v.
Definition set_recentEvent v (s : Shield) :=
  mkShield (frame s) (rx s) v (engine s).
Definition set_rx v (s : Shield) :=
  mkShield (frame s) v (recentEvent s) (engine s).

(** [if (readBufferIndex < maxReadBuffer-1) readBuffer[readBufferIndex++] = c;] *)
Definition store (c : ascii) (f : FrameBuffer) : FrameBuffer :=
  if readBufferIndex f <? maxReadBuffer - 1
  then mkFrameBuffer
         (<[Z.to_nat (readBufferIndex f) := c]> (readBuffer f))
         (readBufferIndex f + 1) (bracketCount f)
  else f.

(** The [while (available() > 0)] loop of [getEvent] over the bytes
    [avail] that the port holds.  It returns [hasEvent], the bytes left
    unread, the event, the frame buffer and the engine. *)
Fixpoint getEvent_loop (avail : text) (shieldEvent : ShieldEvent.t)
  (f : FrameBuffer) (c : Engine)
  : bool * text * ShieldEvent.t * FrameBuffer * Engine :=
  match avail with
  | [] => (false, [], shieldEvent, f, c)
  | ch :: rest =>
      let f := store ch f in
      if Ascii.eqb ch "{" then
        getEvent_loop rest shieldEvent
          (mkFrameBuffer (readBuffer f) (readBufferIndex f)
             (wrap_int (bracketCount f + 1))) c
      else if Ascii.eqb ch "}" then
        let n := wrap_int (bracketCount f - 1) in
        if n <? 1 then
          if readBufferIndex f <? maxReadBuffer then
            let buffer :=
              <[Z.to_nat (readBufferIndex f) := NUL]> (readBuffer f) in
            let (ev, c1) :=
              onStringReceived buffer (readBufferIndex f + 1)
                shieldEvent c in
            (true, rest, ev, mkFrameBuffer buffer 0 0, c1)
          else
            getEvent_loop rest shieldEvent
              (mkFrameBuffer (readBuffer f) 0 0) c
        else
          getEvent_loop rest shieldEvent
            (mkFrameBuffer (readBuffer f) (readBufferIndex f) n) c
      else getEvent_loop rest shieldEvent f c
  end.

(** The idle probe at the head of [getEvent]:
    [if (available() == 0 && millis() > lastOpenRequest + requestInterval)]. *)
Definition probe (idle : bool) (c : Engine) : Engine :=
  if idle && (lastOpenRequest c + requestInterval <? millis c)
  then set_lastOpenRequest (millis c) (set_tx (tx c ++ AWAITING_MESSAGE) c)
  else c.

(** The end of [getEvent]: [if (hadData)] the probe clock is tightened. *)
Definition tighten (hadData : bool) (c : Engine) : Engine :=
  if hadData
  then set_lastOpenRequest
         (millis c - requestInterval + perMessageInterval) c
  else c.

(** [available() == 0] *)
Definition no_data (avail : text) : bool :=
  match avail with [] => true | _ => false end.

(** [getEvent(shieldEvent)]: the event the pointer designates goes in and
    comes out.  The clock stands still during one call. *)
Definition getEvent (shieldEvent : ShieldEvent.t) (s : Shield)
  : bool * ShieldEvent.t * Shield :=
  let idle := no_data (rx s) in
  let '(hasEvent, rest, ev, f, c) :=
    getEvent_loop (rx s) shieldEvent (frame s) (probe idle (engine s)) in
  (hasEvent, ev, mkShield f rest (recentEvent s) (tighten (negb idle) c)).

(** *** The request correlator *)

(** The loop of [checkSensors] on [recentEvent].  Every turn but the last
    takes a frame out of the port, so [fuel] beyond the number of bytes
    available is never used up ([checkSensors_total]). *)
Fixpoint checkSensors_loop (fuel : nat)
  (watchForId timeout watchForResultId started : Z) (hadEvents : bool)
  (s : Shield) : option (bool * Shield) :=
  match fuel with
  | O => None
  | S fuel' =>
      let '(got, ev, s1) := getEvent (recentEvent s) s in
      let s2 := set_recentEvent ev s1 in
      if got && ((timeout =? 0)
                 || (started + timeout <=? millis (engine s2)))
      then
        checkSensors_loop fuel' watchForId timeout watchForResultId started
          (((watchForId =? 0) || (ShieldEvent.id ev =? watchForId))
           && ((watchForResultId =? -1)
               || (ShieldEvent.resultId ev =? watchForResultId)))
          s2
      else Some (hadEvents, s2)
  end.

Definition checkSensors (watchForId timeout watchForResultId : Z)
  (s : Shield) : option (bool * Shield) :=
  let started := millis (engine s) in
  let s := set_engine (set_recentEventErrorId 0 (engine s)) s in
  checkSensors_loop (S (length (rx s)))
    watchForId timeout watchForResultId started false s.

(** What happens around the driver between two turns of a polling loop:
    time passes and bytes arrive at the port. *)
Record Moment := mkMoment {
  elapsed : Z;
  arriving : text
}.

Definition pass (m : Moment) (s : Shield) : Shield :=
  mkShield (frame s) (rx s ++ arriving m) (recentEvent s)
    (set_millis (millis (engine s) + elapsed m) (engine s)).

(** The loop of [waitFor]: [while (!found && millis() < timeout)].  The
    list [script] says what happens after each turn; the loop has no
    result when the script ends before the loop does. *)
Fixpoint waitFor_loop (script : list Moment) (id timeout resultId : Z)
  (s : Shield) {struct script} : option (bool * Shield) :=
  if millis (engine s) <? timeout then
    match checkSensors id 0 resultId s with
    | None => None
    | Some (true, s1) => Some (true, s1)
    | Some (false, s1) =>
        match script with
        | [] => None
        | m :: script' =>
            waitFor_loop script' id timeout resultId (pass m s1)
        end
    end
  else Some (false, s).

Definition waitFor (script : list Moment) (id timeout : Z)
  (asSuccess : bool) (resultId : Z) (s : Shield) : option (Z * Shield) :=
  if id <? 0 then Some (id, s)
  else
    let timeout := timeout + millis (engine s) in
    match waitFor_loop script id timeout resultId s with
    | None => None
    | Some (found, s1) =>
        Some (if found then (if asSuccess && (id <? 0) then 0 else id)
              else 0, s1)
    end.

End Driver.

(** Polling once after each moment of a script: the results of the calls
    of [getEvent] in order, the event and the driver at the end. *)
Fixpoint polls `{JsonLib} {Hdr : Header} (script : list Moment)
  (shieldEvent : ShieldEvent.t) (s : Shield)
  : list bool * ShieldEvent.t * Shield :=
  match script with
  | [] => ([], shieldEvent, s)
  | m :: script' =>
      let '(hasEvent, ev, s1) := getEvent shieldEvent (pass m s) in
      let '(rest, ev', s') := polls script' ev s1 in
      (hasEvent :: rest, ev', s')
  end.

(** ** Frames, as the specification speaks of them *)

Definition brace_delta (c : ascii) : Z :=
  if Ascii.eqb c "{" then 1 else if Ascii.eqb c "}" then -1 else 0.

(** The brace depth after the bytes [l], from depth [d]. *)
Fixpoint depth_after (d : Z) (l : text) : Z :=
  match l with
  | [] => d
  | c :: l' => depth_after (d + brace_delta c) l'
  end.

(** The greatest depth reached along [l]. *)
Fixpoint peak (d : Z) (l : text) : Z :=
  match l with
  | [] => d
  | c :: l' => Z.max d (peak (d + brace_delta c) l')
  end.

(** The bytes [l] leave the frame open: the depth stays positive. *)
Fixpoint stays_open (d : Z) (l : text) : bool :=
  match l with
  | [] => true
  | c :: l' => (1 <=? d + brace_delta c) && stays_open (d + brace_delta c) l'
  end.

(** From depth [d], the depth first returns to zero at the last byte of
    [l], a closing brace. *)
Fixpoint closes_at_end (d : Z) (l : text) : bool :=
  match l with
  | [] => false
  | c :: l' =>
      match l' with
      | [] => Ascii.eqb c "}" && (d =? 1)
      | _ => (1 <=? d + brace_delta c) && closes_at_end (d + brace_delta c) l'
      end
  end.

(** One balanced brace-delimited object: it opens at its first byte and
    its outer brace closes at its last byte, not before. *)
Definition balanced (f : text) : bool := closes_at_end 0 f.

(** Text without a NUL byte. *)
Definition no_nul (l : text) : bool :=
  forallb (fun c => negb (Ascii.eqb c NUL)) l.

(** What the frame buffer becomes by the bytes [l] while the frame stays
    open: each byte is stored if there is room, and counted. *)
Definition absorb1 (f : FrameBuffer) (ch : ascii) : FrameBuffer :=
  let f := store ch f in
  mkFrameBuffer (readBuffer f) (readBufferIndex f)
    (bracketCount f + brace_delta ch).

Definition absorb (l : text) (f : FrameBuffer) : FrameBuffer :=
  fold_left absorb1 l f.

(** The buffer with the terminator written at the cursor. *)
Definition terminated (f : FrameBuffer) : text :=
  <[Z.to_nat (readBufferIndex f) := NUL]> (readBuffer f).

(** A frame buffer of [maxReadBuffer] bytes whose cursor leaves room for
    the terminator. *)
Definition wf_frame (f : FrameBuffer) : Prop :=
  0 <= readBufferIndex f <= maxReadBuffer - 1
  /\ Z.of_nat (length (readBuffer f)) = maxReadBuffer.

(** The assembler between two frames: an empty port, the cursor and the
    depth at zero, a buffer of [maxReadBuffer] bytes. *)
Definition idle `{JsonLib} {Hdr : Header} (s : Shield) : Prop :=
  rx s = [] /\ readBufferIndex (frame s) = 0 /\ bracketCount (frame s) = 0
  /\ Z.of_nat (length (readBuffer (frame s))) = maxReadBuffer.

(** What a poll leaves of the engine after it has handed [json] to the
    decoder: the decoder's event and engine, and the probe clock set for a
    port that had data. *)
Definition delivery `{JsonLib} {Hdr : Header} (json : text)
  (shieldEvent : ShieldEvent.t) (c : Engine) : ShieldEvent.t * Engine :=
  let (ev, c1) := onJsonStringReceived json shieldEvent c in
  (ev, tighten true c1).

(** The PONG message with id [id]: its first field is separated by a
    comma and a quote, or by the quote alone when an array was left
    open. *)
Definition pong_message {Hdr : Header} (id : Z) (arrayStarted : bool)
  : text :=
  lit "{'Service':'SYSTEM','Id':" ++ print_int id
  ++ (if arrayStarted then lit "'" else lit ",'")
  ++ c_str ACTION ++ lit "':'PONG','TYPE':'!'}".

(** The observer callback, when one is registered. *)
Definition observer `{JsonLib} (c : Engine) (ev : ShieldEvent.t)
  : list Effect :=
  if callbacks c onEvent then [Invoked onEvent ev] else [].

(** The id that follows [id]: [nextId++] and the step back to 1. *)
Definition following_id `{Board} (id : Z) : Z :=
  if wrap_int (id + 1) <? 0 then 1 else wrap_int (id + 1).

(** The ids that [n] calls of [writeAll(serviceName)] in a row return. *)
Fixpoint sent_ids `{JsonLib} {Hdr : Header} (n : nat) (serviceName : text)
  (c : Engine) : list Z :=
  match n with
  | O => []
  | S n' =>
      let (id, c1) := writeAll_service serviceName c in
      id :: sent_ids n' serviceName c1
  end.

(** The ids that [n] calls of [beginWrite] in a row return. *)
Fixpoint begun_ids `{JsonLib} {Hdr : Header} (n : nat) (serviceName : text)
  (c : Engine) : list Z :=
  match n with
  | O => []
  | S n' =>
      let (id, c1) := beginWrite serviceName c in
      id :: begun_ids n' serviceName c1
  end.

(** [waitFor] gives the id back at once: no poll, no wait, the driver as
    it was. *)
Definition returns_at_once `{JsonLib} {Hdr : Header} (id : Z) : Prop :=
  forall script timeout asSuccess resultId s,
    waitFor script id timeout asSuccess resultId s = Some (id, s).

(** ** A board to run examples on: 16-bit [int], signed [char] *)

Module Uno.

(** A stand-in for the generic parser on flat frames: an object of
    members ['key':value] separated by commas, a value being a quoted text
    without escapes, an integer or an object.  Both quote characters are
    accepted, and what follows the object is ignored. *)
Inductive JsonValue :=
| JString (s : text)
| JInteger (z : Z)
| JObject (members : list (text * JsonValue)).

Definition is_quote (c : ascii) : bool :=
  Ascii.eqb c "034" || Ascii.eqb c "'".

Definition is_digit (c : ascii) : bool :=
  let n := N_of_ascii c in (48 <=? n)%N && (n <=? 57)%N.

(** The text up to the closing quote [q], and what follows it. *)
Fixpoint quoted (q : ascii) (l : text) : option (text * text) :=
  match l with
  | [] => None
  | c :: l' =>
      if Ascii.eqb c q then Some ([], l')
      else match quoted q l' with
           | Some (s, rest) => Some (c :: s, rest)
           | None => None
           end
  end.

Fixpoint digits (acc : Z) (l : text) : Z * text :=
  match l with
  | c :: l' =>
      if is_digit c
      then digits (10 * acc + (Z.of_N (N_of_ascii c) - 48)) l'
      else (acc, l)
  | [] => (acc, l)
  end.

Definition number (l : text) : option (Z * text) :=
  match l with
  | c :: l' =>
      if is_digit c then Some (digits 0 l)
      else if Ascii.eqb c "-" then
        match l' with
        | c' :: _ =>
            if is_digit c'
            then let (n, rest) := digits 0 l' in Some (- n, rest)
            else None
        | [] => None
        end
      else None
  | [] => None
  end.

(** [members fuel l] reads the members of an object whose opening brace
    has been read; [value fuel l] reads one value. *)
Fixpoint members (fuel : nat) (l : text)
  : option (list (text * JsonValue) * text) :=
  match fuel with
  | O => None
  | S fuel' =>
      let value (l : text) : option (JsonValue * text) :=
        match l with
        | c :: l' =>
            if is_quote c then
              match quoted c l' with
              | Some (s, rest) => Some (JString s, rest)
              | None => None
              end
            else if Ascii.eqb c "{" then
              match members fuel' l' with
              | Some (ms, rest) => Some (JObject ms, rest)
              | None => None
              end
            else
              match number l with
              | Some (n, rest) => Some (JInteger n, rest)
              | None => None
              end
        | [] => None
        end in
      match l with
      | c :: l' =>
          if Ascii.eqb c "}" then Some ([], l')
          else if is_quote c then
            match quoted c l' with
            | Some (k, colon :: rest) =>
                if Ascii.eqb colon ":" then
                  match value rest with
                  | Some (v, sep :: rest') =>
                      if Ascii.eqb sep "}" then Some ([(k, v)], rest')
                      else if Ascii.eqb sep "," then
                        match members fuel' rest' with
                        | Some (ms, rest'') => Some ((k, v) :: ms, rest'')
                        | None => None
                        end
                      else None
                  | _ => None
                  end
                else None
            | _ => None
            end
          else None
      | [] => None
      end
  end.

Definition parse (json : text) : option (list (text * JsonValue)) :=
  match json with
  | c :: l =>
      if Ascii.eqb c "{" then
        match members (length json) l with
        | Some (ms, _) => Some ms
        | None => None
        end
      else None
  | [] => None
  end.

Definition text_eqb (a b : text) : bool :=
  String.eqb (string_of_list_ascii a) (string_of_list_ascii b).

Fixpoint member (root : list (text * JsonValue)) (k : text)
  : option JsonValue :=
  match root with
  | [] => None
  | (k', v) :: root' => if text_eqb k k' then Some v else member root' k
  end.

Definition member_text root k : option text :=
  match member root k with Some (JString s) => Some s | _ => None end.

Definition member_int root k : Z :=
  match member root k with Some (JInteger z) => z | _ => 0 end.

Definition int_bits_16 : 16 <= 16 := Z.le_refl 16.

(** The board: 16-bit [int], signed [char]; the examples use whole
    numbers only, so a [double] is an integer here. *)
Definition board : Board := {|
  int_bits := 16;
  int_bits_min := int_bits_16;
  char_signed := true;
  null_text := [];
  double := Z;
  print_double := fun d _ =>
    lit (NilZero.string_of_int (Z.to_int d)) ++ lit ".0000"
|}.

Definition json : @JsonLib board := {|
  JsonObject := list (text * JsonValue);
  parseObject := parse;
  as_text := member_text;
  as_int := member_int;
  as_long := member_int;
  as_double := member_int : _ -> _ -> @double board
|}.

(** The header: the system keywords hashed on this board. *)
Definition hash_PING : Z :=
  Eval vm_compute in @hash_of board (Some (lit "PING")).
Definition hash_REFRESH : Z :=
  Eval vm_compute in @hash_of board (Some (lit "REFRESH")).
Definition hash_CONNECT : Z :=
  Eval vm_compute in @hash_of board (Some (lit "CONNECT")).
Definition hash_SUSPEND : Z :=
  Eval vm_compute in @hash_of board (Some (lit "SUSPEND")).
Definition hash_RESUME : Z :=
  Eval vm_compute in @hash_of board (Some (lit "RESUME")).

Definition header : Header := {|
  PING_HASH := hash_PING;
  REFRESH_HASH := hash_REFRESH;
  CONNECT_HASH := hash_CONNECT;
  SUSPEND_HASH := hash_SUSPEND;
  RESUME_HASH := hash_RESUME;
  ACTION := lit "Action";
  SensorShieldEventType := 1
|}.

(** A driver at rest on this board: no peripheral, every callback
    registered, [nextId] at 1, an empty port. *)
Definition event0 : @ShieldEvent.t board json :=
  ShieldEvent.mk None 0 0 None 0 None 0 (0 : @double board) None 0 None.

Definition engine0 : @Engine board json :=
  mkEngine [] 0 0 false 0 [] 1 (fun _ => true) [].

Definition shield0 : @Shield board json :=
  mkShield (mkFrameBuffer (repeat NUL 128) 0 0) [] event0 engine0.

(** Three peripherals that leave the event as it is. *)
Definition plain (discriminator : ascii) : @Sensor board json :=
  {| sensorType := discriminator;
     sensor_onJsonReceived := fun _ ev => ev |}.

End Uno.

(** ** The rest of VirtualShield.cpp *)

Definition START : text := lit "START".
Definition LEN : text := lit "LEN".

Section DriverRest.
Context {B : Board} {J : JsonLib} {Hdr : Header}.

(** [sendStart]: the START message carries the size of the read buffer. *)
Definition sendStart : M unit :=
  bind
    (writeAll SERVICE_NAME_SERVICE
       [EPtr.of_prog ACTION START; EPtr.of_typed Ptr.MemPtr TYPE (lit "!");
        EPtr.of_int LEN maxReadBuffer]
       [] NUL)
    (fun _ => ret tt).

(** [begin(bitRate)]: the port is opened at the bit rate, [delay(500)]
    lets 500 ms pass, then the flush, the START message and the two
    callbacks on [recentEvent]. *)
Definition begin (bitRate : Z) (s : Shield) : Shield :=
  let c0 := set_millis (millis (engine s) + 500) (engine s) in
  let (_, c1) := flush c0 in
  let (_, c2) := sendStart c1 in
  let (_, c3) := invoke onConnect (recentEvent s) c2 in
  let (_, c4) := invoke onRefresh (recentEvent s) c3 in
  set_engine c4 s.

(** [hasError(shieldEvent)]: a null pointer asks about [recentEvent]. *)
Definition hasError (shieldEvent : option ShieldEvent.t) (s : Shield)
  : bool :=
  match shieldEvent with
  | Some ev => ShieldEvent.resultId ev <? 0
  | None => ShieldEvent.resultId (recentEvent s) <? 0
  end.

(** [block(id, blocking, timeout, watchForResultId)].  The member
    [allowAutoBlocking] and the default of the last parameter of [waitFor]
    are declared in the header, and are arguments here.  The call
    [waitFor(id, timeout, watchForResultId)] has three arguments: the
    filter is converted to the [bool asSuccess], and [resultId] takes its
    default. *)
Definition block (allowAutoBlocking : bool) (defaultResultId : Z)
  (script : list Moment) (id : Z) (blocking : bool)
  (timeout watchForResultId : Z) (s : Shield) : option (Z * Shield) :=
  if allowAutoBlocking && blocking
  then waitFor script id timeout (negb (watchForResultId =? 0))
         defaultResultId s
  else Some (id, s).

(** [write(const char* text)] *)
Definition write_text (t : text) : M unit := serial_write (c_str t).

(** [directToSerial(cmd)] *)
Definition directToSerial (cmd : text) : M Z :=
  bind (serial_write (c_str cmd)) (fun _ => ret SERIAL_SUCCESS).

(** Modelled from the spec: the default seed of [hash], which the header
    declares: [hash(s, len)] is [hash(s, len, 0)]. *)
Definition hash_len (s : text) (len : Z) : Z := hash s len 0.

(** The loop of [parseToHash] at [text[index]], [rest] being the bytes of
    the text from there on ([[]] at the terminator) and [mem] the text
    with its terminator.  [length] is -1 for no bound, as the [unsigned]
    parameter compares equal to -1 then.  The result lists the hashes
    written to [hash[0]], [hash[1]], ...; their number is what the
    function returns. *)
Fixpoint parseToHash_loop (mem rest : text) (index start count : Z)
  (hashCount : Z) (separator : ascii) (length : Z) : list Z :=
  if (length =? -1) || (0 <? length) then
    let length := if length =? -1 then length else length - 1 in
    let piece :=
      hash_len (drop (Z.to_nat start) mem)
        (index - start + (if length =? 0 then 1 else 0)) in
    match rest with
    | [] => if start <? index then [piece] else []
    | ch :: rest' =>
        if Ascii.eqb ch separator || (length =? 0) then
          piece ::
          (if count + 1 =? hashCount then []
           else parseToHash_loop mem rest' (index + 1) (index + 1)
                  (count + 1) hashCount separator length)
        else parseToHash_loop mem rest' (index + 1) start count
               hashCount separator length
    end
  else [].

Definition parseToHash (t : text) (hashCount : Z) (separator : ascii)
  (length : Z) : list Z :=
  parseToHash_loop (c_str t ++ [NUL]) (c_str t) 0 0 0 hashCount separator
    length.

End DriverRest.

(** ** The rest of SensorModels.h *)

Section Pieces.
Context {B : Board}.

(** [EPtr(const char* key, const char* value, int length)] *)
Definition EPtr_of_mem (k v : text) (len : Z) : EPtr.t :=
  EPtr.mk Ptr.MemPtr k (EPtr.Text v) len false false false [].

(** The loop of [EPtr::parse]: each piece is an [EPtr] with a null key
    that points into the text at [start] and is [index - start] bytes
    long.  The result lists the values written to [eptrs] from
    [eptrStartIndex] on; their number is what the function returns. *)
Fixpoint EPtr_parse_loop (t rest : text) (index start count length : Z)
  (separator : ascii) : list EPtr.t :=
  let piece :=
    EPtr_of_mem [] (drop (Z.to_nat start) t) (index - start) in
  match rest with
  | [] => if start <? index then [piece] else []
  | ch :: rest' =>
      if Ascii.eqb ch separator then
        piece ::
        (if count + 1 =? length then []
         else EPtr_parse_loop t rest' (index + 1) (index + 1) (count + 1)
                length separator)
      else EPtr_parse_loop t rest' (index + 1) start count length separator
  end.

Definition EPtr_parse (t : text) (length : Z) (separator : ascii)
  : list EPtr.t :=
  EPtr_parse_loop (c_str t) (c_str t) 0 0 0 length separator.

(** The bytes an [EPtr] made by [EPtr::parse] stands for. *)
Definition piece_text (e : EPtr.t) : text :=
  take (Z.to_nat (EPtr.length e)) (EPtr.value (EPtr.payload e)).

End Pieces.

Module ARGB.

(** [union ARGB], through its byte members. *)
Record t := mk { alpha : Z; red : Z; green : Z; blue : Z }.

(** [ARGB(byte red, byte green, byte blue)] *)
Definition of_rgb (r g b : Z) : t := mk 0 r g b.

(** [hexSource[i] = hex[i] + (hex[i] > 0x09 ? 0x37 : 0x30)] *)
Definition hex_char (n : Z) : ascii :=
  ascii_of_N (Z.to_N (n + (if 9 <? n then 55 else 48))).

(** [hex(hexSource)]: the nine bytes written to [hexSource]. *)
Definition hex (c : t) : text :=
  map hex_char
    [Z.shiftr (alpha c) 4; Z.land (alpha c) 15;
     Z.shiftr (red c) 4; Z.land (red c) 15;
     Z.shiftr (green c) 4; Z.land (green c) 15;
     Z.shiftr (blue c) 4; Z.land (blue c) 15]
  ++ [NUL].

(** The member [color] of the union on a little-endian board: [blue] is
    its low byte. *)
Definition color (c : t) : Z :=
  ((alpha c * 256 + red c) * 256 + green c) * 256 + blue c.

(** A byte member holds a value from 0 to 255. *)
Definition bytes (c : t) : Prop :=
  0 <= alpha c < 256 /\ 0 <= red c < 256 /\ 0 <= green c < 256
  /\ 0 <= blue c < 256.

End ARGB.

(** More constructors of [struct EPtr]: [EPtr(EPtrType ptrType)],
    [EPtr(EPtrType ptrType, const char* key)] and
    [EPtr(EPtrType ptrType, const char* key, EPtr* eptrs, int len)].  A
    key that is left null is the empty text here. *)
Section MoreConstructors.
Context {B : Board}.

Definition EPtr_of_type (ty : Ptr.t) : EPtr.t :=
  EPtr.mk ty [] EPtr.NoValue 0 false false false [].

Definition EPtr_of_key (ty : Ptr.t) (k : text) : EPtr.t :=
  EPtr.mk ty k EPtr.NoValue 0 false false false [].

Definition EPtr_of_list (ty : Ptr.t) (k : text) (es : list EPtr.t)
  (len : Z) : EPtr.t :=
  EPtr.mk ty k (EPtr.IntValue len) 0 false true false es.

End MoreConstructors.

(** The loop of the [Format] case of [writeValue], under a name: the
    template is rendered from [formatPositionIndex] up to its next
    sentinel, then the next value, and so on. *)
Definition format_loop `{JsonLib} {Hdr : Header} (template : EPtr.t)
  : list EPtr.t -> Z -> M Z :=
  fix loop (values : list EPtr.t) (formatPositionIndex : Z)
    {struct values} : M Z :=
    fun c =>
      let (fpi, c1) := writeValue template formatPositionIndex c in
      if fpi =? 0 then (0, c1)
      else
        match values with
        | [] => (0, c1)
        | next :: values' =>
            let (result, c2) := writeValue next (-1) c1 in
            if negb (result =? 0) then (result, c2)
            else if 0 <? fpi then loop values' fpi c2
                 else (result, c2)
        end.

(** ** More words for the statements *)

(** Text without a brace. *)
Definition brace_free (l : text) : bool :=
  forallb (fun ch => brace_delta ch =? 0) l.

(** The call of a callback, when one is registered in its slot. *)
Definition called `{JsonLib} (c : Engine) (ev : ShieldEvent.t)
  (cb : Callback) : list Effect :=
  if callbacks c cb then [Invoked cb ev] else [].

(** [addSensor] for each sensor of a list in turn: the results and the
    engine at the end. *)
Fixpoint addSensors `{JsonLib} (l : list Sensor) (c : Engine)
  : list bool * Engine :=
  match l with
  | [] => ([], c)
  | sensor :: l' =>
      let (added, c1) := addSensor sensor c in
      let (rest, c2) := addSensors l' c1 in
      (added :: rest, c2)
  end.

(** What the dispatcher makes of the event a peripheral has decoded: the
    back-reference to the peripheral at index [i] is attached when the
    event says it is a sensor event. *)
Definition attach `{JsonLib} {Hdr : Header} (i : nat) (ev : ShieldEvent.t)
  : ShieldEvent.t :=
  if ShieldEvent.shieldEventType ev =? SensorShieldEventType
  then ShieldEvent.set_sensor (Some i) ev else ev.

(** A piece followed by its separator. *)
Definition closed_by (separator : ascii) (piece : text) : text :=
  piece ++ [separator].

(** The separator that a text lacks at its end. *)
Definition missing_end (separator : ascii) (l : text) : text :=
  match last l with
  | Some ch => if Ascii.eqb ch separator then [] else [separator]
  | None => []
  end.

(** The pieces of [rest] after the piece [cur] that has been begun. *)
Fixpoint fields (separator : ascii) (cur rest : text) : list text :=
  match rest with
  | [] => match cur with [] => [] | _ => [cur] end
  | ch :: rest' =>
      if Ascii.eqb ch separator then cur :: fields separator [] rest'
      else fields separator (cur ++ [ch]) rest'
  end.

(** The value of an upper-case hexadecimal digit, and of a numeral. *)
Definition hex_digit (ch : ascii) : option Z :=
  let n := Z.of_N (N_of_ascii ch) in
  if (48 <=? n) && (n <=? 57) then Some (n - 48)
  else if (65 <=? n) && (n <=? 70) then Some (n - 55)
  else None.

Fixpoint hex_number_from (acc : Z) (l : text) : option Z :=
  match l with
  | [] => Some acc
  | ch :: l' =>
      match hex_digit ch with
      | Some d => hex_number_from (acc * 16 + d) l'
      | None => None
      end
  end.

Definition hex_number (l : text) : option Z := hex_number_from 0 l.

(** The engine [c'] is the engine [c] after the bytes [out] have been
    written: nothing but the port and the array flag has changed. *)
Definition wrote `{JsonLib} (out : text) (c c' : Engine) : Prop :=
  c' = mkEngine (tx c ++ out) (millis c) (lastOpenRequest c)
         (isArrayStarted c') (recentEventErrorId c) (sensors c) (nextId c)
         (callbacks c) (log c).

(** Constant text as the encoder sends it inside a quoted value: a
    backslash before each quote. *)
Definition quoted (l : text) : text :=
  flat_map (fun ch => if Ascii.eqb ch "'" then ["\"%char; ch] else [ch]) l.

(** Reading escaped text: a backslash stands for the byte after it. *)
Fixpoint unescape (l : text) : text :=
  match l with
  | [] => []
  | ch :: l' =>
      if Ascii.eqb ch "\"
      then match l' with
           | [] => []
           | ch' :: l'' => ch' :: unescape l''
           end
      else ch :: unescape l'
  end.

(** In escaped text every quote comes after a backslash that escapes
    it. *)
Fixpoint quotes_escaped (l : text) : bool :=
  match l with
  | [] => true
  | ch :: l' =>
      if Ascii.eqb ch "\"
      then match l' with
           | [] => false
           | _ :: l'' => quotes_escaped l''
           end
      else negb (Ascii.eqb ch "'") && quotes_escaped l'
  end.

(** Text without the sentinel of a template. *)
Definition tilde_free (l : text) : bool :=
  forallb (fun ch => negb (Ascii.eqb ch "~")) l.

(** The fields of an array element as they appear on the port: integer
    members [key:value], separated by commas. *)
Fixpoint int_members (kvs : list (text * Z)) : text :=
  match kvs with
  | [] => []
  | (k, v) :: kvs' =>
      lit "'" ++ c_str k ++ lit "':" ++ print_int v
      ++ match kvs' with [] => [] | _ => lit "," ++ int_members kvs' end
  end.

(** The START message with id [id]: like the PONG message it begins its
    first field with the quote alone when an array was left open. *)
Definition start_message {Hdr : Header} (id : Z) (arrayStarted : bool)
  : text :=
  lit "{'Service':'SYSTEM','Id':" ++ print_int id
  ++ (if arrayStarted then lit "'" else lit ",'")
  ++ c_str ACTION ++ lit "':'START','TYPE':'!','LEN':128}".

(** A template: each segment of [pairs] is followed by the sentinel, the
    segment [last] ends the template.  Filled, each sentinel has given
    way to the integer paired with the segment before it. *)
Definition template_of (pairs : list (text * Z)) (last : text) : text :=
  flat_map (fun p => fst p ++ ["~"%char]) pairs ++ last.

Definition filled (pairs : list (text * Z)) (last : text) : text :=
  flat_map (fun p => quoted (fst p) ++ print_int (snd p)) pairs
  ++ quoted last.

(** Segments without sentinel and without NUL. *)
Definition segment (l : text) : bool := tilde_free l && no_nul l.
(** ** Arithmetic of the board *)

Section Arithmetic.
Context `{B : Board}.

Lemma int_half_pos : 2 ^ 15 <= 2 ^ (int_bits - 1).
Proof.
  apply Z.pow_le_mono_r; [lia|]. pose proof int_bits_min. lia.
Qed.

Lemma int_range_split : 2 ^ int_bits = 2 * 2 ^ (int_bits - 1).
Proof.
  pose proof int_bits_min.
  replace int_bits with (Z.succ (int_bits - 1)) at 1 by lia.
  rewrite Z.pow_succ_r by lia. reflexivity.
Qed.

Lemma wrap_int_small z :
  - 2 ^ (int_bits - 1) <= z < 2 ^ (int_bits - 1) -> wrap_int z = z.
Proof.
  intros Hz. unfold wrap_int.
  rewrite Z.mod_small; [lia|]. rewrite int_range_split. lia.
Qed.

End Arithmetic.

(** ** Text *)

Lemma brace_delta_open : brace_delta "{" = 1.
Proof. reflexivity. Qed.

Lemma brace_delta_close : brace_delta "}" = -1.
Proof. reflexivity. Qed.

Lemma brace_delta_other c :
  Ascii.eqb c "{" = false -> Ascii.eqb c "}" = false -> brace_delta c = 0.
Proof. intros H1 H2. unfold brace_delta. rewrite H1, H2. reflexivity. Qed.

Lemma brace_delta_bounds c : -1 <= brace_delta c <= 1.
Proof. unfold brace_delta. repeat case_match; lia. Qed.

Lemma depth_after_app d a b :
  depth_after d (a ++ b) = depth_after (depth_after d a) b.
Proof. revert d. induction a as [|c a IH]; intros d; simpl; [reflexivity|apply IH]. Qed.

Lemma peak_ge d l : d <= peak d l.
Proof. destruct l; simpl; lia. Qed.

Lemma peak_app_l d a b : peak d a <= peak d (a ++ b).
Proof.
  revert d. induction a as [|c a IH]; intros d; simpl.
  - apply peak_ge.
  - specialize (IH (d + brace_delta c)). lia.
Qed.

Lemma peak_app_r d a b : peak (depth_after d a) b <= peak d (a ++ b).
Proof.
  revert d. induction a as [|c a IH]; intros d; simpl.
  - lia.
  - specialize (IH (d + brace_delta c)). lia.
Qed.

Lemma peak_length d l : peak d l <= d + Z.of_nat (length l).
Proof.
  revert d. induction l as [|c l IH]; intros d; simpl length; simpl peak.
  - lia.
  - specialize (IH (d + brace_delta c)). pose proof (brace_delta_bounds c). lia.
Qed.

Lemma stays_open_app d a b :
  stays_open d (a ++ b) = stays_open d a && stays_open (depth_after d a) b.
Proof.
  revert d. induction a as [|c a IH]; intros d; simpl; [reflexivity|].
  rewrite IH. apply andb_assoc.
Qed.

Lemma closes_at_end_cons d c l :
  l <> [] ->
  closes_at_end d (c :: l)
  = (1 <=? d + brace_delta c) && closes_at_end (d + brace_delta c) l.
Proof. destruct l; [congruence|reflexivity]. Qed.

(** A frame that closes at its end, cut before a non-empty rest: the
    first part leaves it open and the rest closes it. *)
Lemma closes_at_end_app d a b :
  b <> [] ->
  closes_at_end d (a ++ b) = true ->
  stays_open d a = true /\ closes_at_end (depth_after d a) b = true.
Proof.
  revert d. induction a as [|c a IH]; intros d Hb H.
  - simpl in *. auto.
  - rewrite <- app_comm_cons, closes_at_end_cons in H.
    + apply andb_prop in H as [H1 H2].
      apply IH in H2 as [H2 H3]; [|assumption].
      simpl. rewrite H1, H2. auto.
    + destruct a; [assumption|discriminate].
Qed.

(** Its last byte is the closing brace that brings the depth from 1 to 0. *)
Lemma closes_at_end_last d l :
  closes_at_end d l = true ->
  exists l0, l = l0 ++ ["}"%char] /\ stays_open d l0 = true
             /\ depth_after d l0 = 1.
Proof.
  revert d. induction l as [|c l IH]; intros d H; [discriminate|].
  destruct l as [|c' l].
  - simpl in H. apply andb_prop in H as [H1 H2].
    apply Ascii.eqb_eq in H1. apply Z.eqb_eq in H2. subst.
    exists []. auto.
  - rewrite closes_at_end_cons in H by discriminate.
    apply andb_prop in H as [H1 H2].
    apply IH in H2 as (l0 & E & H2 & H3).
    exists (c :: l0). simpl. rewrite E, H1, H2. auto.
Qed.

Lemma c_str_app_nul l r :
  no_nul l = true -> c_str (l ++ NUL :: r) = l.
Proof.
  induction l as [|c l IH]; simpl; intros H.
  - reflexivity.
  - apply andb_prop in H as [H1 H2].
    apply negb_true_iff in H1. rewrite H1, IH by assumption. reflexivity.
Qed.

Lemma no_nul_take n l : no_nul l = true -> no_nul (take n l) = true.
Proof.
  revert n. induction l as [|c l IH]; intros [|n] H; simpl in *; auto.
  apply andb_prop in H as [H1 H2]. rewrite H1, IH by assumption. reflexivity.
Qed.

(** ** The frame assembler *)

Section Assembler.
Context {B : Board} {J : JsonLib} {Hdr : Header}.

Lemma store_bracketCount c f : bracketCount (store c f) = bracketCount f.
Proof. unfold store. case_match; reflexivity. Qed.

Lemma store_wf c f : wf_frame f -> wf_frame (store c f).
Proof.
  unfold wf_frame, store, maxReadBuffer. intros [Hi Hl].
  destruct (Z.ltb_spec (readBufferIndex f) (128 - 1));
    cbn [readBuffer readBufferIndex].
  - rewrite length_insert. lia.
  - lia.
Qed.

Lemma absorb1_eq f ch :
  absorb1 f ch
  = mkFrameBuffer (readBuffer (store ch f)) (readBufferIndex (store ch f))
      (bracketCount f + brace_delta ch).
Proof. unfold absorb1. rewrite store_bracketCount. reflexivity. Qed.

Lemma absorb_app a b f : absorb (a ++ b) f = absorb b (absorb a f).
Proof. apply fold_left_app. Qed.

Lemma absorb1_wf f ch : wf_frame f -> wf_frame (absorb1 f ch).
Proof. intros H. apply (store_wf ch) in H. exact H. Qed.

Lemma absorb_wf l f : wf_frame f -> wf_frame (absorb l f).
Proof.
  revert f. induction l as [|ch l IH]; intros f H; simpl; [exact H|].
  apply IH, absorb1_wf, H.
Qed.

Lemma absorb_bracketCount l f :
  bracketCount (absorb l f) = depth_after (bracketCount f) l.
Proof.
  revert f. induction l as [|ch l IH]; intros f; simpl; [reflexivity|].
  rewrite IH, absorb1_eq. reflexivity.
Qed.

Lemma absorb_index l f :
  wf_frame f ->
  readBufferIndex (absorb l f)
  = Z.min (maxReadBuffer - 1) (readBufferIndex f + Z.of_nat (length l)).
Proof.
  revert f. induction l as [|ch l IH]; intros f H.
  - destruct H as [H _]. simpl. lia.
  - simpl absorb. rewrite IH by (apply absorb1_wf, H).
    destruct H as [H _]. simpl length. unfold absorb1, store, maxReadBuffer in *.
    destruct (Z.ltb_spec (readBufferIndex f) (128 - 1));
      cbn [readBuffer readBufferIndex]; lia.
Qed.

(** The bytes below the cursor are the bytes seen, cut at the room the
    buffer has. *)
Lemma absorb_content l f :
  wf_frame f ->
  take (Z.to_nat (readBufferIndex (absorb l f))) (readBuffer (absorb l f))
  = take 127 (take (Z.to_nat (readBufferIndex f)) (readBuffer f) ++ l).
Proof.
  revert f. induction l as [|ch l IH]; intros f H.
  - simpl. rewrite app_nil_r, take_take. destruct H as [H _].
    unfold maxReadBuffer in H. f_equal. lia.
  - simpl absorb. rewrite IH by (apply absorb1_wf, H).
    destruct H as [Hi Hl]. unfold absorb1, store, maxReadBuffer in *.
    destruct (Z.ltb_spec (readBufferIndex f) (128 - 1)) as [Hlt|Hge];
      cbn [readBuffer readBufferIndex].
    + f_equal. replace (Z.to_nat (readBufferIndex f + 1))
        with (S (Z.to_nat (readBufferIndex f))) by lia.
      erewrite take_S_r by (apply list_lookup_insert_eq; lia).
      rewrite take_insert_ge by lia. rewrite <- app_assoc. reflexivity.
    + replace (Z.to_nat (readBufferIndex f)) with 127%nat by lia.
      rewrite !take_app_le by (rewrite length_take; lia).
      reflexivity.
Qed.

(** While the frame stays open the loop stores and counts, and nothing
    else. *)
Lemma getEvent_loop_open a b ev f c :
  stays_open (bracketCount f) a = true ->
  0 <= bracketCount f ->
  peak (bracketCount f) a < 2 ^ (int_bits - 1) ->
  getEvent_loop (a ++ b) ev f c = getEvent_loop b ev (absorb a f) c.
Proof.
  revert f. induction a as [|ch a IH]; intros f Hopen Hd Hpk; [reflexivity|].
  simpl in Hopen, Hpk. apply andb_prop in Hopen as [H1 H2].
  apply Z.leb_le in H1.
  pose proof (peak_ge (bracketCount f + brace_delta ch) a) as Hge.
  pose proof int_half_pos as Hhalf.
  simpl app. simpl getEvent_loop. simpl absorb. rewrite absorb1_eq.
  rewrite store_bracketCount.
  destruct (Ascii.eqb ch "{") eqn:E1.
  - apply Ascii.eqb_eq in E1. subst ch. rewrite brace_delta_open in *.
    rewrite wrap_int_small by lia. apply IH; simpl; [assumption|lia|lia].
  - destruct (Ascii.eqb ch "}") eqn:E2.
    + apply Ascii.eqb_eq in E2. subst ch. rewrite brace_delta_close in *.
      replace (bracketCount f - 1) with (bracketCount f + -1) by lia.
      rewrite wrap_int_small by lia.
      destruct (Z.ltb_spec (bracketCount f + -1) 1); [lia|].
      apply IH; simpl; [assumption|lia|lia].
    + rewrite (brace_delta_other ch E1 E2) in *.
      rewrite <- (IH (mkFrameBuffer _ _ _)); simpl;
        [|assumption|lia|lia].
      f_equal. pose proof (store_bracketCount ch f) as Hs.
      destruct (store ch f); simpl in *. subst. f_equal. lia.
Qed.

(** The closing brace at depth 1 ends the frame: the terminator is
    written, the buffer goes to the decoder, the cursor and the depth are
    reset and the loop stops. *)
Lemma getEvent_loop_close rest ev f c :
  bracketCount f = 1 -> wf_frame f ->
  getEvent_loop ("}"%char :: rest) ev f c
  = let buffer := terminated (absorb ["}"%char] f) in
    let (ev', c1) := onJsonStringReceived (c_str buffer) ev c in
    (true, rest, ev', mkFrameBuffer buffer 0 0, c1).
Proof.
  intros Hd Hwf. pose proof int_half_pos as Hhalf.
  simpl getEvent_loop. rewrite store_bracketCount, Hd.
  rewrite wrap_int_small by lia. simpl.
  apply (store_wf "}") in Hwf as [Hi _]. unfold maxReadBuffer in *.
  destruct (Z.ltb_spec (readBufferIndex (store "}" f)) 128); [|lia].
  reflexivity.
Qed.

Lemma terminated_text l f :
  wf_frame f -> readBufferIndex f = 0 ->
  no_nul (take 127 l) = true ->
  c_str (terminated (absorb l f)) = take 127 l.
Proof.
  intros Hwf H0 Hnn.
  pose proof (absorb_wf l f Hwf) as [Hi Hl].
  pose proof (absorb_content l f Hwf) as Hc.
  rewrite H0 in Hc. simpl in Hc.
  unfold terminated, maxReadBuffer in *.
  rewrite insert_take_drop by lia.
  rewrite Hc. apply c_str_app_nul, Hnn.
Qed.

Lemma terminated_full l f :
  wf_frame f -> readBufferIndex f = 0 ->
  (127 <= length l)%nat ->
  terminated (absorb l f) = take 127 l ++ [NUL].
Proof.
  intros Hwf H0 Hlen.
  pose proof (absorb_wf l f Hwf) as [Hi Hl].
  pose proof (absorb_content l f Hwf) as Hc.
  pose proof (absorb_index l f Hwf) as Hx.
  rewrite H0 in Hc, Hx. simpl in Hc.
  unfold terminated, maxReadBuffer in *.
  rewrite insert_take_drop by lia. rewrite Hc.
  replace (Z.to_nat (readBufferIndex (absorb l f))) with 127%nat by lia.
  rewrite drop_ge by lia. reflexivity.
Qed.

End Assembler.

Section Polling.
Context {B : Board} {J : JsonLib} {Hdr : Header}.

Lemma stays_open_depth d l :
  stays_open d l = true -> 0 <= d -> 0 <= depth_after d l.
Proof.
  revert d. induction l as [|c l IH]; intros d H Hd; simpl in *; [lia|].
  apply andb_prop in H as [H1 H2]. apply Z.leb_le in H1.
  apply IH; [assumption|lia].
Qed.

Lemma pass_empty_port m s :
  rx s = [] ->
  pass m s
  = mkShield (frame s) (arriving m) (recentEvent s)
      (set_millis (millis (engine s) + elapsed m) (engine s)).
Proof. intros E. unfold pass. rewrite E. reflexivity. Qed.

Lemma log_probe i (c : Engine) : log (probe i c) = log c.
Proof. unfold probe. case_match; reflexivity. Qed.

Lemma log_tighten h (c : Engine) : log (tighten h c) = log c.
Proof. unfold tighten. case_match; reflexivity. Qed.

(** A poll whose bytes leave the frame open produces no event: it stores
    and counts the bytes and touches the probe clock only. *)
Lemma getEvent_open ev s :
  stays_open (bracketCount (frame s)) (rx s) = true ->
  0 <= bracketCount (frame s) ->
  peak (bracketCount (frame s)) (rx s) < 2 ^ (int_bits - 1) ->
  getEvent ev s
  = (false, ev,
     mkShield (absorb (rx s) (frame s)) [] (recentEvent s)
       (tighten (negb (no_data (rx s)))
          (probe (no_data (rx s)) (engine s)))).
Proof.
  intros Hopen Hd Hpk. unfold getEvent.
  pose proof (getEvent_loop_open (rx s) [] ev (frame s)
                (probe (no_data (rx s)) (engine s)) Hopen Hd Hpk) as E.
  rewrite app_nil_r in E. rewrite E. reflexivity.
Qed.

(** A poll whose bytes close the frame at their end hands the buffer to
    the decoder once, reports an event and resets the cursor and the
    depth. *)
Lemma getEvent_close ev s :
  closes_at_end (bracketCount (frame s)) (rx s) = true ->
  wf_frame (frame s) ->
  0 <= bracketCount (frame s) ->
  peak (bracketCount (frame s)) (rx s) < 2 ^ (int_bits - 1) ->
  getEvent ev s
  = let buffer := terminated (absorb (rx s) (frame s)) in
    let (ev', c) := delivery (c_str buffer) ev (engine s) in
    (true, ev', mkShield (mkFrameBuffer buffer 0 0) [] (recentEvent s) c).
Proof.
  intros Hclose Hwf Hd Hpk.
  destruct (closes_at_end_last _ _ Hclose) as (l0 & E & Hopen & Hone).
  unfold getEvent. rewrite E in *.
  replace (no_data (l0 ++ ["}"%char])) with false by (destruct l0; reflexivity).
  unfold probe. cbn [andb negb].
  rewrite getEvent_loop_open;
    [|assumption|assumption|pose proof (peak_app_l (bracketCount (frame s)) l0 ["}"%char]); lia].
  rewrite getEvent_loop_close;
    [|rewrite absorb_bracketCount; assumption|apply absorb_wf; assumption].
  rewrite <- absorb_app. unfold delivery. cbv zeta.
  destruct (onJsonStringReceived _ ev (engine s)) as [ev' c1]. reflexivity.
Qed.

Lemma getEvent_quiet ev s :
  rx s = [] ->
  getEvent ev s
  = (false, ev,
     mkShield (frame s) [] (recentEvent s) (probe true (engine s))).
Proof. intros E. unfold getEvent. rewrite E. reflexivity. Qed.

(** Polls during which nothing arrives change neither the frame buffer nor
    the event nor the record of calls. *)
Lemma polls_quiet script ev s :
  concat (map arriving script) = [] -> rx s = [] ->
  forall flags ev' s', polls script ev s = (flags, ev', s') ->
  ev' = ev /\ frame s' = frame s /\ rx s' = []
  /\ log (engine s') = log (engine s).
Proof.
  revert s. induction script as [|m script IH]; intros s Hc Hrx flags ev' s' E.
  - simpl in E. inversion E; subst. auto.
  - simpl in Hc. apply app_eq_nil in Hc as [Hm Hc].
    simpl in E.
    rewrite (getEvent_quiet ev (pass m s)) in E
      by (unfold pass; simpl; rewrite Hrx, Hm; reflexivity).
    destruct (polls script ev _) as [[fl e1] s1] eqn:E1.
    inversion E; subst.
    apply IH in E1 as (-> & Hf & Hr & Hl); [|assumption|reflexivity].
    simpl in *. rewrite Hf, Hl, log_probe. auto.
Qed.

(** Polls over the chunks of one frame, however it is cut: at the end the
    port is empty, the buffer holds the bytes it had room for and the
    terminator, and the cursor and the depth are back at zero. *)
Lemma polls_frame script ev s :
  rx s = [] -> wf_frame (frame s) -> 0 <= bracketCount (frame s) ->
  closes_at_end (bracketCount (frame s)) (concat (map arriving script)) = true ->
  peak (bracketCount (frame s)) (concat (map arriving script))
    < 2 ^ (int_bits - 1) ->
  forall flags ev' s', polls script ev s = (flags, ev', s') ->
  rx s' = []
  /\ frame s'
     = mkFrameBuffer
         (terminated (absorb (concat (map arriving script)) (frame s))) 0 0.
Proof.
  revert ev s.
  induction script as [|m script IH];
    intros ev s Hrx Hwf Hd Hclose Hpk flags ev' s' E.
  - discriminate.
  - simpl in Hclose, Hpk, E. simpl concat.
    destruct (concat (map arriving script)) as [|b0 b] eqn:Eb.
    + rewrite app_nil_r in *.
      rewrite (getEvent_close ev (pass m s)) in E
        by (unfold pass; simpl; rewrite ?Hrx; simpl; assumption).
      cbv zeta in E. unfold pass in E at 1 2. simpl in E. rewrite Hrx in E.
      simpl in E.
      destruct (delivery _ ev _) as [e1 c1].
      destruct (polls script e1 _) as [[fl e2] s2] eqn:E2.
      inversion E; subst.
      apply polls_quiet in E2 as (_ & Hf & Hr & _);
        [|assumption|reflexivity].
      simpl in Hf. auto.
    + apply closes_at_end_app in Hclose as [Hopen Hclose]; [|discriminate].
      pose proof (peak_app_l (bracketCount (frame s)) (arriving m) (b0 :: b)).
      pose proof (peak_app_r (bracketCount (frame s)) (arriving m) (b0 :: b)).
      rewrite (getEvent_open ev (pass m s)) in E
        by (unfold pass; simpl; rewrite ?Hrx; simpl; first [assumption|lia]).
      unfold pass in E at 1. simpl in E. rewrite Hrx in E. simpl in E.
      destruct (polls script ev _) as [[fl e2] s2] eqn:E2.
      inversion E; subst.
      apply IH in E2 as [Hr Hf]; simpl; rewrite ?Eb.
      * simpl in Hf. rewrite ?Eb in Hf. rewrite absorb_app. auto.
      * reflexivity.
      * apply absorb_wf, Hwf.
      * rewrite absorb_bracketCount. apply stays_open_depth; assumption.
      * rewrite absorb_bracketCount. assumption.
      * rewrite absorb_bracketCount. simpl in H0. lia.
Qed.

End Polling.

(** ** The claims about the frame assembler *)

Section FrameClaims.
Context {B : Board} {J : JsonLib} {Hdr : Header}.

(** C1.  A balanced brace-delimited object shorter than the buffer that
    reaches the port in two parts, one before each of two successive polls,
    the second part not empty: the first poll reports no event and leaves
    the event and the record of calls alone, whatever inner braces it has
    read; the second poll, which reads the outer closing brace, reports an
    event, and what it leaves is what one run of the decoder on exactly the
    bytes of the object leaves; the assembler is then idle again. *)
Theorem frame_split_over_two_polls
  (m1 m2 : Moment) (ev : ShieldEvent.t) (s : Shield) :
  idle s ->
  balanced (arriving m1 ++ arriving m2) = true ->
  arriving m2 <> [] ->
  no_nul (arriving m1 ++ arriving m2) = true ->
  Z.of_nat (length (arriving m1 ++ arriving m2)) < maxReadBuffer ->
  let '(has1, ev1, s1) := getEvent ev (pass m1 s) in
  let '(has2, ev2, s2) := getEvent ev1 (pass m2 s1) in
  has1 = false /\ ev1 = ev /\ log (engine s1) = log (engine s)
  /\ has2 = true
  /\ (ev2, engine s2)
     = delivery (arriving m1 ++ arriving m2) ev (engine (pass m2 s1))
  /\ idle s2.
Proof.
  intros (Hrx & Hi & Hd & Hl) Hbal Hne Hnn Hlen.
  unfold balanced in Hbal.
  apply closes_at_end_app in Hbal as [Hopen Hclose]; [|assumption].
  pose proof int_half_pos as Hhalf.
  pose proof (peak_length 0 (arriving m1 ++ arriving m2)) as Hpk.
  pose proof (peak_app_l 0 (arriving m1) (arriving m2)) as Hpl.
  pose proof (peak_app_r 0 (arriving m1) (arriving m2)) as Hpr.
  unfold maxReadBuffer in *.
  assert (Hwf : wf_frame (frame s)) by (unfold wf_frame, maxReadBuffer; lia).
  rewrite (pass_empty_port m1 s Hrx).
  rewrite getEvent_open by (simpl; rewrite Hd; first [assumption|lia]).
  simpl. set (s1 := mkShield _ _ _ _).
  rewrite (pass_empty_port m2 s1 eq_refl).
  rewrite getEvent_close; unfold s1; simpl.
  - rewrite <- absorb_app.
    rewrite terminated_text;
      [|assumption|assumption|apply no_nul_take; assumption].
    rewrite take_ge by lia.
    destruct (delivery _ ev _) as [ev2 c2] eqn:E.
    rewrite log_tighten, log_probe.
    repeat split; try reflexivity.
    cbn [frame readBuffer]. unfold terminated. rewrite length_insert.
    pose proof (absorb_wf (arriving m1 ++ arriving m2) (frame s) Hwf) as [_ Hl'].
    exact Hl'.
  - rewrite absorb_bracketCount, Hd. assumption.
  - apply absorb_wf, Hwf.
  - rewrite absorb_bracketCount, Hd. apply stays_open_depth; [assumption|lia].
  - rewrite absorb_bracketCount, Hd. lia.
Qed.

(** C2.  A balanced object longer than the buffer, cut into chunks in any
    way, one chunk before each poll, its depth within the range of [int]:
    when the polls are over the port is empty, the buffer holds the first
    127 bytes of the object and the terminator, the bytes beyond having
    been dropped, and the cursor and the depth are back at zero; the next
    object, one that fits, then comes out of one poll as a reported event,
    decoded from exactly its own bytes. *)
Theorem overflow_then_next_frame
  (script : list Moment) (m : Moment) (ev : ShieldEvent.t) (s : Shield) :
  idle s ->
  balanced (concat (map arriving script)) = true ->
  maxReadBuffer < Z.of_nat (length (concat (map arriving script))) ->
  peak 0 (concat (map arriving script)) < 2 ^ (int_bits - 1) ->
  balanced (arriving m) = true ->
  no_nul (arriving m) = true ->
  Z.of_nat (length (arriving m)) < maxReadBuffer ->
  let '(_, ev1, s1) := polls script ev s in
  let '(has2, ev2, s2) := getEvent ev1 (pass m s1) in
  rx s1 = [] /\ readBufferIndex (frame s1) = 0 /\ bracketCount (frame s1) = 0
  /\ readBuffer (frame s1) = take 127 (concat (map arriving script)) ++ [NUL]
  /\ has2 = true
  /\ (ev2, engine s2) = delivery (arriving m) ev1 (engine (pass m s1)).
Proof.
  intros (Hrx & Hi & Hd & Hl) Hbig Hlong Hpk Hbal Hnn Hlen.
  unfold balanced in *. unfold maxReadBuffer in *.
  assert (Hwf : wf_frame (frame s)) by (unfold wf_frame, maxReadBuffer; lia).
  destruct (polls script ev s) as [[flags ev1] s1] eqn:E.
  apply polls_frame in E as [Hrx1 Hf1];
    [|assumption|assumption|lia|rewrite Hd; assumption|rewrite Hd; assumption].
  rewrite terminated_full in Hf1 by (first [assumption|lia]).
  pose proof int_half_pos as Hhalf.
  pose proof (peak_length 0 (arriving m)) as Hpm.
  assert (Hwf1 : wf_frame (frame s1)).
  { rewrite Hf1. unfold wf_frame, maxReadBuffer.
    cbn [readBuffer readBufferIndex].
    rewrite length_app, length_take. cbn [length]. lia. }
  rewrite (pass_empty_port m s1 Hrx1).
  rewrite getEvent_close; cbn [frame rx engine recentEvent].
  2-5: try assumption; rewrite ?Hf1; cbn [bracketCount];
    try assumption; try lia.
  rewrite terminated_text;
    [|assumption|rewrite Hf1; reflexivity|apply no_nul_take; assumption].
  rewrite take_ge by lia.
  destruct (delivery _ ev1 _) as [ev2 c2] eqn:E2.
  rewrite Hf1. simpl. repeat split; try assumption; reflexivity.
Qed.

End FrameClaims.

(** ** The message encoder *)

Section Encoder.
Context {B : Board} {J : JsonLib} {Hdr : Header}.

Lemma sendFlash_from_plain i l out :
  sendFlash_from false false i l out = (SERIAL_SUCCESS, out ++ l).
Proof.
  revert i out. induction l as [|ch l IH]; intros i out; simpl.
  - rewrite app_nil_r. reflexivity.
  - rewrite IH, <- app_assoc. reflexivity.
Qed.

(** Constant text goes out byte for byte, and the write succeeds. *)
Lemma sendFlash_eq l c :
  sendFlash l c = (0, set_tx (tx c ++ c_str l) c).
Proof.
  unfold sendFlash, sendFlashStringOnSerial. simpl.
  rewrite sendFlash_from_plain. reflexivity.
Qed.

Lemma beginWrite_eq serviceName c :
  beginWrite serviceName c
  = (nextId c,
     set_tx (tx c ++ MESSAGE_SERVICE_START ++ c_str serviceName
             ++ MESSAGE_SERVICE_TO_ID ++ print_int (nextId c))
       (set_nextId (following_id (nextId c)) c)).
Proof.
  unfold beginWrite, or_fail, bind, ret, serial_write, following_id.
  rewrite !sendFlash_eq. cbn [Z.eqb]. rewrite !sendFlash_eq. cbn [Z.eqb].
  rewrite !sendFlash_eq. cbn [Z.eqb].
  destruct c as [tx0 ms lor ias ree ss nid cbs lg]; simpl.
  destruct (wrap_int (nid + 1) <? 0); simpl;
    rewrite <- !app_assoc; reflexivity.
Qed.

Lemma endWrite_eq c :
  endWrite c
  = (0, set_lastOpenRequest (millis c) (set_tx (tx c ++ MESSAGE_END2) c)).
Proof.
  unfold endWrite, or_fail, bind, ret, flush. rewrite sendFlash_eq.
  reflexivity.
Qed.

Lemma writeValue_prog k v len km at_ enc es start :
  writeValue (EPtr.mk Ptr.ProgPtr k (EPtr.Text v) len km at_ enc es) start
  = sendFlashStringOnSerial v start true.
Proof. reflexivity. Qed.

Lemma writeValue_mem k v len km at_ enc es start c :
  writeValue (EPtr.mk Ptr.MemPtr k (EPtr.Text v) len km at_ enc es) start c
  = (0, set_tx (tx c ++ mem_bytes v len enc) c).
Proof. reflexivity. Qed.

Lemma send_PONG c :
  sendFlashStringOnSerial PONG DEFAULT_LENGTH true c
  = (0, set_tx (tx c ++ PONG) c).
Proof. reflexivity. Qed.

Ltac run_engine :=
  repeat first
    [ rewrite sendFlash_eq
    | rewrite writeValue_prog, send_PONG
    | rewrite writeValue_mem
    | progress change (0 =? 0) with true
    | progress change (Ascii.eqb NUL NUL) with true
    | rewrite endWrite_eq
    | progress cbv beta iota delta
        [set_isArrayStarted set_tx set_nextId set_lastOpenRequest tx millis
         lastOpenRequest isArrayStarted recentEventErrorId sensors nextId
         callbacks log SERIAL_SUCCESS] ].

(** What [sendPingBack] leaves: one message on the port, the next id
    taken, the flush time recorded. *)
Lemma sendPingBack_eq ev c :
  sendPingBack ev c
  = (tt,
     mkEngine (tx c ++ pong_message (nextId c) (isArrayStarted c))
       (millis c) (millis c) false (recentEventErrorId c) (sensors c)
       (following_id (nextId c)) (callbacks c) (log c)).
Proof.
  unfold sendPingBack, writeAll, bind, ret. rewrite beginWrite_eq.
  cbv beta iota.
  unfold write_each, bind, ret, write, EPtr.of_prog, EPtr.of_typed.
  cbv beta iota delta [EPtr.ptrType EPtr.keyIsMem EPtr.key EPtr.asText].
  unfold or_fail, bind, ret.
  destruct c as [tx0 ms lor ias ree ss nid cbs lg].
  destruct ias; run_engine;
    change (negb true) with false; cbv beta iota;
    unfold pong_message; f_equal; f_equal;
    rewrite <- !app_assoc; reflexivity.
Qed.

End Encoder.

(** ** The dispatcher *)

Section Dispatcher.
Context {B : Board} {J : JsonLib} {Hdr : Header}.

Lemma populate_resultHash root ev :
  ShieldEvent.resultHash (populate root ev)
  = hash_of (as_text root (lit "Result")).
Proof. reflexivity. Qed.

Lemma set_cargo_resultHash v (ev : ShieldEvent.t) :
  ShieldEvent.resultHash (ShieldEvent.set_cargo v ev)
  = ShieldEvent.resultHash ev.
Proof. reflexivity. Qed.

(** The event carries the text of [Type] in its tag, whatever [Tag] is. *)
Lemma populate_tag root ev :
  ShieldEvent.tag (populate root ev) = as_text root (lit "Type").
Proof. reflexivity. Qed.

Lemma sensor_scan_none l i k root ev c :
  (forall s, In s l -> sensorType s <> k) ->
  sensor_scan i l k root ev c = (ev, c).
Proof.
  revert i. induction l as [|s l IH]; intros i Hno; simpl; [reflexivity|].
  destruct (Ascii.eqb_spec (sensorType s) k) as [E|_].
  - exfalso. apply (Hno s); [left; reflexivity|exact E].
  - apply IH. intros s' Hin. apply Hno. right. exact Hin.
Qed.

Lemma sensor_scan_found l i n s k root ev c :
  l !! n = Some s -> sensorType s = k ->
  (forall j s', l !! j = Some s' -> (j < n)%nat -> sensorType s' <> k) ->
  exists ev', sensor_scan i l k root ev c
              = (ev', set_log (log c ++ [Decoded (i + n) ev]) c).
Proof.
  revert i n. induction l as [|s0 l IH]; intros i n Hn Hk Hbefore.
  - discriminate.
  - simpl. destruct n as [|n].
    + simpl in Hn. inversion Hn; subst s0.
      rewrite (proj2 (Ascii.eqb_eq _ _) Hk). rewrite Nat.add_0_r. eauto.
    + destruct (Ascii.eqb_spec (sensorType s0) k) as [E|_].
      * exfalso. apply (Hbefore 0%nat s0); [reflexivity|lia|exact E].
      * destruct (IH (S i) n Hn Hk) as [ev' E'].
        { intros j s' Hj Hlt. apply (Hbefore (S j) s'); [exact Hj|lia]. }
        replace (i + S n)%nat with (S i + n)%nat by lia. eauto.
Qed.

(** Every turn of [checkSensors] that goes on has taken bytes out of the
    port. *)
Lemma getEvent_loop_shrinks avail ev f c has rest ev' f' c' :
  getEvent_loop avail ev f c = (has, rest, ev', f', c') ->
  (length rest <= length avail)%nat
  /\ (has = true -> (length rest < length avail)%nat).
Proof.
  revert f. induction avail as [|ch avail IH]; intros f E; simpl in E.
  - inversion E; subst. split; [reflexivity|discriminate].
  - simpl length.
    repeat match type of E with
           | context [if ?b then _ else _] => destruct b
           | context [let (_, _) := ?p in _] => destruct p
           end;
      first [ apply IH in E; destruct E; split; [lia|intros; lia]
            | inversion E; subst; split; [lia|intros; lia] ].
Qed.

Lemma getEvent_shrinks ev s has ev' s' :
  getEvent ev s = (has, ev', s') ->
  (length (rx s') <= length (rx s))%nat
  /\ (has = true -> (length (rx s') < length (rx s))%nat).
Proof.
  unfold getEvent. intros E.
  destruct (getEvent_loop _ _ _ _) as [[[[h r] e] f] c] eqn:El.
  inversion E; subst. simpl. eapply getEvent_loop_shrinks, El.
Qed.

Lemma checkSensors_loop_total fuel wid timeout wrid started had s :
  (length (rx s) < fuel)%nat ->
  exists r, checkSensors_loop fuel wid timeout wrid started had s = Some r.
Proof.
  revert had s. induction fuel as [|fuel IH]; intros had s Hlt; [lia|].
  simpl. destruct (getEvent (recentEvent s) s) as [[got ev] s1] eqn:E.
  apply getEvent_shrinks in E as [Hle Hs].
  destruct got; simpl.
  - destruct ((timeout =? 0) || _); [|eauto].
    apply IH. simpl. specialize (Hs eq_refl). lia.
  - eauto.
Qed.

(** [checkSensors] always returns. *)
Lemma checkSensors_total wid timeout wrid s :
  exists r, checkSensors wid timeout wrid s = Some r.
Proof. apply checkSensors_loop_total. simpl. lia. Qed.

(** C7.  A frame whose [Type] begins with '!' and whose [Result] hashes to
    [PING_HASH]: the dispatcher writes one message to the port, the PONG
    message (service SYSTEM, the action key with PONG, TYPE '!') under the
    next id, and the only callback it invokes is the observer, if one is
    registered: no refresh callback is added to the record of calls. *)
Theorem ping_sends_one_pong
  (root : JsonObject) (ev : ShieldEvent.t) (c : Engine) (ty : text) :
  as_text root (lit "Type") = Some ty ->
  first_char ty = SYSTEM_EVENT ->
  hash_of (as_text root (lit "Result")) = PING_HASH ->
  let (ev', c') := onJsonReceived root ev c in
  tx c' = tx c ++ pong_message (nextId c) (isArrayStarted c)
  /\ log c' = log c ++ observer c ev'
  /\ (forall e, In (Invoked onRefresh e) (log c') ->
                In (Invoked onRefresh e) (log c)).
Proof.
  intros Hty Hsys Hping.
  unfold onJsonReceived, bind, ret. rewrite Hty, Hsys.
  rewrite (proj2 (Ascii.eqb_eq _ _) eq_refl).
  unfold system_event, bind, ret.
  rewrite set_cargo_resultHash, populate_resultHash, Hping, Z.eqb_refl.
  rewrite sendPingBack_eq.
  unfold invoke, observer. cbn [callbacks log tx set_log].
  destruct (callbacks c onEvent); cbn [callbacks log tx set_log].
  - repeat split; try reflexivity.
    intros e Hin. apply in_app_or in Hin as [Hin|[Hin|[]]];
      [exact Hin|discriminate].
  - rewrite app_nil_r. repeat split; try reflexivity. auto.
Qed.

(** C8.  A frame whose [Type] does not begin with '!': the registry is
    scanned in the order of insertion and the only decode invoked is that
    of the first peripheral whose discriminator is the first character of
    [Type]; when no peripheral has it no decode is invoked; in both cases
    the observer follows.  With discriminators 'T', 'L', 'S' registered in
    this order and a [Type] that begins with 'L', the one decode invoked is
    that of the peripheral at index 1. *)
Theorem first_matching_sensor_decodes
  (root : JsonObject) (ev : ShieldEvent.t) (c : Engine) (ty : text) :
  as_text root (lit "Type") = Some ty ->
  first_char ty <> SYSTEM_EVENT ->
  let (ev', c') := onJsonReceived root ev c in
  (forall i s,
      sensors c !! i = Some s -> sensorType s = first_char ty ->
      (forall j s', sensors c !! j = Some s' -> (j < i)%nat ->
                    sensorType s' <> first_char ty) ->
      log c' = log c ++ [Decoded i (populate root ev)] ++ observer c ev')
  /\ ((forall s, In s (sensors c) -> sensorType s <> first_char ty) ->
      log c' = log c ++ observer c ev')
  /\ (map sensorType (sensors c) = ["T"; "L"; "S"]%char ->
      first_char ty = "L"%char ->
      log c' = log c ++ [Decoded 1 (populate root ev)] ++ observer c ev').
Proof.
  intros Hty Hsys.
  assert (Hfound : forall i s,
    sensors c !! i = Some s -> sensorType s = first_char ty ->
    (forall j s', sensors c !! j = Some s' -> (j < i)%nat ->
                  sensorType s' <> first_char ty) ->
    let (ev', c') := onJsonReceived root ev c in
    log c' = log c ++ [Decoded i (populate root ev)] ++ observer c ev').
  { intros i s Hi Hs Hbefore.
    unfold onJsonReceived, bind, ret. rewrite Hty.
    rewrite (proj2 (Ascii.eqb_neq _ _) Hsys).
    destruct (sensor_scan_found (sensors c) 0 i s (first_char ty) root
                (populate root ev) c Hi Hs Hbefore) as [ev1 E].
    rewrite E. unfold invoke, observer. simpl.
    destruct (callbacks c onEvent); simpl;
      rewrite <- ?app_assoc, ?app_nil_r; reflexivity. }
  destruct (onJsonReceived root ev c) as [ev' c'] eqn:E.
  split; [|split].
  - exact Hfound.
  - intros Hno. revert E.
    unfold onJsonReceived, bind, ret. rewrite Hty.
    rewrite (proj2 (Ascii.eqb_neq _ _) Hsys).
    rewrite sensor_scan_none by exact Hno.
    unfold invoke, observer.
    destruct (callbacks c onEvent); intros E; inversion E; subst; simpl;
      rewrite ?app_nil_r; reflexivity.
  - intros Htls HL.
    destruct (sensors c) as [|sT [|sL [|sS [|]]]] eqn:Es; try discriminate.
    inversion Htls as [[HT HLt HS]].
    apply (Hfound 1%nat sL); [reflexivity|congruence|].
    intros j s' Hj Hlt. destruct j as [|j]; [|lia].
    inversion Hj; subst s'. rewrite HT, HL. discriminate.
Qed.

(** C10.  [addSensor] on a registry of [maxRememberedSensors] entries
    returns false and changes nothing; on any other registry it returns
    true, the sensor is the new last entry behind the entries there were,
    the count is one more, and nothing else changes. *)
Theorem addSensor_bounded (sensor : Sensor) (c : Engine) :
  (sensorCount c = maxRememberedSensors ->
   addSensor sensor c = (false, c))
  /\ (sensorCount c <> maxRememberedSensors ->
      exists c',
        addSensor sensor c = (true, c')
        /\ sensors c' = sensors c ++ [sensor]
        /\ sensorCount c' = sensorCount c + 1
        /\ c' = set_sensors (sensors c') c).
Proof.
  unfold addSensor. split.
  - intros E. rewrite (proj2 (Z.eqb_eq _ _) E). reflexivity.
  - intros E. rewrite (proj2 (Z.eqb_neq _ _) E).
    eexists. split; [reflexivity|]. unfold sensorCount. simpl.
    rewrite length_app. simpl. repeat split. lia.
Qed.

End Dispatcher.

(** ** The request correlator *)

Section Correlator.
Context {B : Board} {J : JsonLib} {Hdr : Header}.

Lemma following_id_next id :
  0 <= id < 2 ^ (int_bits - 1) - 1 -> following_id id = id + 1.
Proof.
  intros H. unfold following_id. pose proof int_half_pos.
  rewrite wrap_int_small by lia.
  destruct (Z.ltb_spec (id + 1) 0); [lia|reflexivity].
Qed.

Lemma following_id_max : following_id (2 ^ (int_bits - 1) - 1) = 1.
Proof.
  unfold following_id, wrap_int. pose proof int_half_pos as Hhalf.
  pose proof int_range_split as Hsplit.
  replace (2 ^ (int_bits - 1) - 1 + 1 + 2 ^ (int_bits - 1))
    with (2 ^ int_bits) by lia.
  rewrite Z.mod_same by lia.
  destruct (Z.ltb_spec (0 - 2 ^ (int_bits - 1)) 0); [reflexivity|lia].
Qed.

(** [beginWrite] returns the id it has written and moves on to the one
    that follows. *)
Lemma beginWrite_id serviceName c :
  fst (beginWrite serviceName c) = nextId c
  /\ nextId (snd (beginWrite serviceName c)) = following_id (nextId c).
Proof. rewrite beginWrite_eq. split; reflexivity. Qed.

(** [writeAll] returns the id cut down to a [byte]. *)
Lemma writeAll_service_id serviceName c :
  fst (writeAll_service serviceName c) = to_byte (nextId c)
  /\ nextId (snd (writeAll_service serviceName c))
     = following_id (nextId c).
Proof.
  unfold writeAll_service, bind, ret.
  rewrite beginWrite_eq, endWrite_eq. split; reflexivity.
Qed.

Lemma millis_sendFlash l (c : Engine) :
  millis (snd (sendFlash l c)) = millis c.
Proof. rewrite sendFlash_eq. reflexivity. Qed.

Lemma millis_invoke cb ev (c : Engine) :
  millis (snd (invoke cb ev c)) = millis c.
Proof. unfold invoke. destruct (callbacks c cb); reflexivity. Qed.

Lemma millis_bind {A C} (m : M A) (k : A -> M C) :
  (forall c, millis (snd (m c)) = millis c) ->
  (forall a c, millis (snd (k a c)) = millis c) ->
  forall c, millis (snd (bind m k c)) = millis c.
Proof.
  intros Hm Hk c. unfold bind. specialize (Hm c).
  destruct (m c) as [a c1]. simpl in Hm. rewrite Hk. exact Hm.
Qed.

Lemma millis_sendPingBack ev (c : Engine) :
  millis (snd (sendPingBack ev c)) = millis c.
Proof. rewrite sendPingBack_eq. reflexivity. Qed.

Lemma millis_system_event ev (c : Engine) :
  millis (snd (system_event ev c)) = millis c.
Proof.
  unfold system_event. revert c. apply millis_bind.
  - repeat match goal with
           | |- context [if ?b then _ else _] => destruct b
           end;
      first [ reflexivity
            | apply millis_bind;
              [ first [apply millis_sendPingBack|apply millis_invoke]
              | reflexivity ] ].
  - intros [|] c; [apply millis_invoke|reflexivity].
Qed.

Lemma millis_sensor_scan i l k root ev (c : Engine) :
  millis (snd (sensor_scan i l k root ev c)) = millis c.
Proof.
  revert i. induction l as [|s l IH]; intros i; simpl; [reflexivity|].
  destruct (Ascii.eqb (sensorType s) k); [reflexivity|apply IH].
Qed.

(** The decoder does not touch the clock. *)
Lemma millis_onJsonStringReceived json ev (c : Engine) :
  millis (snd (onJsonStringReceived json ev c)) = millis c.
Proof.
  unfold onJsonStringReceived. destruct (parseObject json) as [root|];
    [|reflexivity].
  unfold onJsonReceived. revert c. apply millis_bind.
  - destruct (as_text root (lit "Type")) as [ty|]; [|reflexivity].
    destruct (Ascii.eqb (first_char ty) SYSTEM_EVENT).
    + apply millis_bind; [apply millis_system_event|reflexivity].
    + intros c. apply millis_sensor_scan.
  - intros ev1. apply millis_bind; [apply millis_invoke|reflexivity].
Qed.

Lemma millis_getEvent_loop avail ev f (c : Engine) :
  millis (snd (getEvent_loop avail ev f c)) = millis c.
Proof.
  revert f. induction avail as [|ch avail IH]; intros f; simpl;
    [reflexivity|].
  repeat match goal with
         | |- context [if ?b then _ else _] => destruct b
         end; try apply IH.
  unfold onStringReceived.
  match goal with
  | |- context [onJsonStringReceived ?j ev c] =>
      pose proof (millis_onJsonStringReceived j ev c) as H;
      destruct (onJsonStringReceived j ev c)
  end.
  exact H.
Qed.

(** The clock stands still during a poll. *)
Lemma millis_getEvent ev s :
  millis (engine (snd (getEvent ev s))) = millis (engine s).
Proof.
  unfold getEvent.
  pose proof (millis_getEvent_loop (rx s) ev (frame s)
                (probe (no_data (rx s)) (engine s))) as H.
  destruct (getEvent_loop _ _ _ _) as [[[[h r] e] f] c]. simpl in *.
  unfold tighten, probe in *.
  repeat match goal with
         | |- context [if ?b then _ else _] => destruct b
         | H : context [if ?b then _ else _] |- _ => destruct b
         end; simpl in *; exact H.
Qed.

Lemma millis_checkSensors_loop fuel wid timeout wrid started had s r :
  checkSensors_loop fuel wid timeout wrid started had s = Some r ->
  millis (engine (snd r)) = millis (engine s).
Proof.
  revert had s. induction fuel as [|fuel IH]; intros had s E; [discriminate|].
  simpl in E. pose proof (millis_getEvent (recentEvent s) s) as H.
  destruct (getEvent (recentEvent s) s) as [[got ev] s1]. simpl in H.
  destruct (got && _).
  - apply IH in E. simpl in E. congruence.
  - inversion E; subst. simpl. exact H.
Qed.

Lemma millis_checkSensors wid timeout wrid s r :
  checkSensors wid timeout wrid s = Some r ->
  millis (engine (snd r)) = millis (engine s).
Proof.
  unfold checkSensors. intros E.
  apply millis_checkSensors_loop in E. exact E.
Qed.

(** The time that passes over a script. *)
Lemma waitFor_loop_total script id timeout resultId s :
  timeout <= millis (engine s) + fold_right Z.add 0 (map elapsed script) ->
  exists r, waitFor_loop script id timeout resultId s = Some r.
Proof.
  revert s. induction script as [|m script IH]; intros s Hsum.
  - simpl in *. destruct (Z.ltb_spec (millis (engine s)) timeout); [lia|].
    eauto.
  - simpl in *. destruct (Z.ltb_spec (millis (engine s)) timeout); [|eauto].
    destruct (checkSensors_total id 0 resultId s) as [[found s1] E].
    rewrite E. pose proof (millis_checkSensors _ _ _ _ _ E) as Hm.
    simpl in Hm. destruct found; [eauto|].
    apply IH. unfold pass. simpl. lia.
Qed.

(** [waitFor] returns once the script lets the timeout elapse. *)
Lemma waitFor_total script id timeout asSuccess resultId s :
  timeout <= fold_right Z.add 0 (map elapsed script) ->
  exists r, waitFor script id timeout asSuccess resultId s = Some r.
Proof.
  intros Hsum. unfold waitFor. destruct (id <? 0); [eauto|].
  destruct (waitFor_loop_total script id (timeout + millis (engine s))
              resultId s) as [[found s1] E]; [lia|].
  rewrite E. eauto.
Qed.

(** A poll that closes a frame reports an event even when the parser
    rejects what the buffer holds; the event and the engine are then as
    they were, but for the probe clock. *)
Lemma rejected_frame_is_reported ev s :
  closes_at_end (bracketCount (frame s)) (rx s) = true ->
  wf_frame (frame s) ->
  0 <= bracketCount (frame s) ->
  peak (bracketCount (frame s)) (rx s) < 2 ^ (int_bits - 1) ->
  parseObject (c_str (terminated (absorb (rx s) (frame s)))) = None ->
  exists s', getEvent ev s = (true, ev, s')
             /\ engine s' = tighten true (engine s).
Proof.
  intros Hc Hwf Hd Hpk Hrej. rewrite getEvent_close by assumption.
  cbv zeta. unfold delivery, onJsonStringReceived. rewrite Hrej.
  unfold ret. eexists. split; reflexivity.
Qed.

(** C6, as the code has it.  A negative id comes back from [waitFor] at
    once, with no poll and no wait, and the driver as it was; the id zero
    is not among them: it goes through the polling loop like any other id,
    and zero is returned when the loop ends. *)
Theorem waitFor_negative_id_returns (id : Z) :
  id < 0 ->
  returns_at_once id
  /\ forall script timeout asSuccess resultId s,
       waitFor script 0 timeout asSuccess resultId s
       = match
           waitFor_loop script 0 (timeout + millis (engine s)) resultId s
         with
         | Some (_, s1) => Some (0, s1)
         | None => None
         end.
Proof.
  intros Hneg. split.
  - intros script timeout asSuccess resultId s. unfold waitFor.
    rewrite (proj2 (Z.ltb_lt _ _) Hneg). reflexivity.
  - intros script timeout asSuccess resultId s. unfold waitFor.
    change (0 <? 0) with false. cbv beta iota.
    destruct (waitFor_loop _ _ _ _ _) as [[[|] s1]|];
      rewrite ?andb_false_r; reflexivity.
Qed.

End Correlator.


(** ** More on the frame assembler *)

Section AssemblerMore.
Context {B : Board} {J : JsonLib} {Hdr : Header}.

Lemma getEvent_loop_wf avail ev f c :
  wf_frame f -> wf_frame (snd (fst (getEvent_loop avail ev f c))).
Proof.
  revert f. induction avail as [|ch avail IH]; intros f Hwf; [exact Hwf|].
  simpl getEvent_loop.
  pose proof (store_wf ch f Hwf) as Hs.
  assert (Hany : forall n,
    wf_frame (mkFrameBuffer (readBuffer (store ch f))
                (readBufferIndex (store ch f)) n)) by (intros n; exact Hs).
  assert (Hzero : forall n,
    wf_frame (mkFrameBuffer (readBuffer (store ch f)) 0 n)).
  { intros n. destruct Hs as [Hi Hl]. split; [|exact Hl].
    unfold maxReadBuffer. cbn [readBufferIndex]. lia. }
  destruct (Ascii.eqb ch "{"); [apply IH, Hany|].
  destruct (Ascii.eqb ch "}"); [|apply IH, Hs].
  destruct (wrap_int _ <? 1); [|apply IH, Hany].
  destruct (readBufferIndex (store ch f) <? maxReadBuffer) eqn:E;
    [|apply IH, Hzero].
  destruct (onStringReceived _ _ ev c) as [ev' c1]. cbn [fst snd].
  destruct Hs as [Hi Hl]. split.
  - unfold maxReadBuffer. cbn [readBufferIndex]. lia.
  - cbn [readBuffer]. rewrite length_insert. exact Hl.
Qed.

Lemma getEvent_wf ev s :
  wf_frame (frame s) -> wf_frame (frame (snd (getEvent ev s))).
Proof.
  intros Hwf. unfold getEvent.
  pose proof (getEvent_loop_wf (rx s) ev (frame s)
                (probe (no_data (rx s)) (engine s)) Hwf) as H.
  destruct (getEvent_loop _ _ _ _) as [[[[h r] e] f] c]. exact H.
Qed.

(** X1.  Whatever bytes arrive, and however many polls read them, the
    cursor stays between 0 and [maxReadBuffer - 1] and the buffer keeps
    its [maxReadBuffer] bytes: no poll writes outside [readBuffer]. *)
Theorem polls_keep_buffer_bounds script ev s :
  wf_frame (frame s) -> wf_frame (frame (snd (polls script ev s))).
Proof.
  revert ev s. induction script as [|m script IH]; intros ev s Hwf;
    [exact Hwf|].
  simpl. pose proof (getEvent_wf ev (pass m s) Hwf) as H1.
  destruct (getEvent ev (pass m s)) as [[h e1] s1]. cbn [snd] in H1.
  specialize (IH e1 s1 H1).
  destruct (polls script e1 s1) as [[fl e2] s2]. exact IH.
Qed.

(** A poll stops at the byte that closes a frame; what follows stays in
    the port. *)
Lemma getEvent_close_rest ev s l rest :
  rx s = l ++ rest ->
  closes_at_end (bracketCount (frame s)) l = true ->
  wf_frame (frame s) ->
  0 <= bracketCount (frame s) ->
  peak (bracketCount (frame s)) l < 2 ^ (int_bits - 1) ->
  getEvent ev s
  = let buffer := terminated (absorb l (frame s)) in
    let (ev', c) := delivery (c_str buffer) ev (engine s) in
    (true, ev', mkShield (mkFrameBuffer buffer 0 0) rest (recentEvent s) c).
Proof.
  intros Hrx Hclose Hwf Hd Hpk.
  destruct (closes_at_end_last _ _ Hclose) as (l0 & E & Hopen & Hone).
  unfold getEvent. rewrite Hrx, E in *.
  replace (no_data ((l0 ++ ["}"%char]) ++ rest)) with false
    by (destruct l0; reflexivity).
  unfold probe. cbn [andb negb].
  rewrite <- app_assoc. cbn [app].
  rewrite getEvent_loop_open;
    [|assumption|assumption
     |pose proof (peak_app_l (bracketCount (frame s)) l0 ["}"%char]); lia].
  rewrite getEvent_loop_close;
    [|rewrite absorb_bracketCount; assumption|apply absorb_wf; assumption].
  rewrite <- absorb_app. unfold delivery. cbv zeta.
  destruct (onJsonStringReceived _ ev (engine s)) as [ev' c1]. reflexivity.
Qed.

(** X2.  Two whole frames in the port at once: each poll surfaces one
    frame.  The first poll hands exactly the first frame to the decoder
    and leaves the bytes of the second in the port; the second poll hands
    over the second frame and empties the port. *)
Theorem one_frame_per_poll (f1 f2 : text) (ev : ShieldEvent.t) (s : Shield) :
  idle s ->
  balanced f1 = true -> no_nul f1 = true ->
  Z.of_nat (length f1) < maxReadBuffer ->
  balanced f2 = true -> no_nul f2 = true ->
  Z.of_nat (length f2) < maxReadBuffer ->
  let '(has1, ev1, s1) := getEvent ev (set_rx (f1 ++ f2) s) in
  let '(has2, ev2, s2) := getEvent ev1 s1 in
  has1 = true /\ rx s1 = f2
  /\ (ev1, engine s1) = delivery f1 ev (engine s)
  /\ has2 = true /\ rx s2 = []
  /\ (ev2, engine s2) = delivery f2 ev1 (engine s1).
Proof.
  intros (Hrx & Hi & Hd & Hl) Hb1 Hn1 Hl1 Hb2 Hn2 Hl2.
  unfold balanced, maxReadBuffer in *.
  pose proof int_half_pos as Hhalf.
  pose proof (peak_length 0 f1) as Hp1.
  pose proof (peak_length 0 f2) as Hp2.
  assert (Hwf : wf_frame (frame s)) by (unfold wf_frame, maxReadBuffer; lia).
  rewrite (getEvent_close_rest ev (set_rx (f1 ++ f2) s) f1 f2);
    cbn [set_rx rx frame engine recentEvent];
    [|reflexivity|rewrite Hd; assumption|assumption|lia|rewrite Hd; lia].
  cbv zeta.
  rewrite terminated_text;
    [|assumption|assumption|apply no_nul_take; assumption].
  rewrite take_ge by lia.
  destruct (delivery f1 ev (engine s)) as [ev1 c1] eqn:E1.
  set (fr := mkFrameBuffer _ 0 0).
  assert (Hwf1 : wf_frame fr).
  { unfold fr, wf_frame, maxReadBuffer, terminated.
    cbn [readBuffer readBufferIndex]. rewrite length_insert.
    pose proof (absorb_wf f1 (frame s) Hwf) as [_ Hl']. split; [lia|].
    exact Hl'. }
  rewrite (getEvent_close ev1 (mkShield fr f2 (recentEvent s) c1));
    cbn [rx frame engine recentEvent];
    [|assumption|assumption|unfold fr; cbn [bracketCount]; lia
     |unfold fr; cbn [bracketCount]; lia].
  cbv zeta.
  rewrite terminated_text;
    [|assumption|reflexivity|apply no_nul_take; assumption].
  rewrite take_ge by lia.
  destruct (delivery f2 ev1 c1) as [ev2 c2] eqn:E2.
  cbn [rx engine]. repeat split; reflexivity.
Qed.

End AssemblerMore.

Section AssemblerEdges.
Context {B : Board} {J : JsonLib} {Hdr : Header}.

Lemma brace_free_cons ch l :
  brace_free (ch :: l) = true ->
  Ascii.eqb ch "{" = false /\ Ascii.eqb ch "}" = false
  /\ brace_free l = true.
Proof.
  unfold brace_free. simpl. intros H. apply andb_prop in H as [H1 H2].
  unfold brace_delta in H1.
  destruct (Ascii.eqb ch "{"); [discriminate|].
  destruct (Ascii.eqb ch "}"); [discriminate|]. auto.
Qed.

(** Bytes without a brace are stored, and the depth stays. *)
Lemma getEvent_loop_flat a b ev f c :
  brace_free a = true ->
  getEvent_loop (a ++ b) ev f c = getEvent_loop b ev (absorb a f) c.
Proof.
  revert f. induction a as [|ch a IH]; intros f Hfree; [reflexivity|].
  apply brace_free_cons in Hfree as (E1 & E2 & Hfree).
  simpl app. simpl getEvent_loop. rewrite E1, E2.
  simpl absorb. rewrite absorb1_eq, (brace_delta_other ch E1 E2).
  rewrite <- (IH _ Hfree). f_equal.
  pose proof (store_bracketCount ch f) as Hs.
  destruct (store ch f); simpl in *. subst. f_equal. lia.
Qed.

Lemma absorb_flat_bracketCount a f :
  brace_free a = true -> bracketCount (absorb a f) = bracketCount f.
Proof.
  revert f. induction a as [|ch a IH]; intros f Hfree; [reflexivity|].
  apply brace_free_cons in Hfree as (E1 & E2 & Hfree).
  simpl absorb. rewrite IH by assumption.
  rewrite absorb1_eq, (brace_delta_other ch E1 E2). simpl. lia.
Qed.

(** A closing brace at depth 1 or below ends the frame. *)
Lemma getEvent_loop_close_low rest ev f c :
  - 2 ^ 15 < bracketCount f <= 1 -> wf_frame f ->
  getEvent_loop ("}"%char :: rest) ev f c
  = let buffer := terminated (absorb ["}"%char] f) in
    let (ev', c1) := onJsonStringReceived (c_str buffer) ev c in
    (true, rest, ev', mkFrameBuffer buffer 0 0, c1).
Proof.
  intros Hd Hwf. pose proof int_half_pos as Hhalf.
  simpl getEvent_loop. rewrite store_bracketCount.
  rewrite wrap_int_small by lia.
  destruct (Z.ltb_spec (bracketCount f - 1) 1); [|lia].
  apply (store_wf "}") in Hwf as [Hi _]. unfold maxReadBuffer in *.
  destruct (Z.ltb_spec (readBufferIndex (store "}" f)) 128); [|lia].
  reflexivity.
Qed.

(** X3.  A closing brace that no opening brace precedes ends a frame all
    the same: the bytes read up to it and the brace go to the decoder, the
    poll reports an event, and the bytes behind the brace stay in the
    port. *)
Theorem stray_closing_brace_ends_a_frame
  (l rest : text) (ev : ShieldEvent.t) (s : Shield) :
  idle s ->
  brace_free l = true -> no_nul l = true ->
  Z.of_nat (length l) + 1 < maxReadBuffer ->
  let '(has, ev', s') := getEvent ev (set_rx (l ++ "}"%char :: rest) s) in
  has = true /\ rx s' = rest
  /\ (ev', engine s') = delivery (l ++ ["}"%char]) ev (engine s)
  /\ readBufferIndex (frame s') = 0 /\ bracketCount (frame s') = 0.
Proof.
  intros (Hrx & Hi & Hd & Hl) Hfree Hnn Hlen. unfold maxReadBuffer in *.
  assert (Hwf : wf_frame (frame s)) by (unfold wf_frame, maxReadBuffer; lia).
  unfold getEvent. cbn [set_rx rx frame engine recentEvent].
  replace (no_data (l ++ "}"%char :: rest)) with false
    by (destruct l; reflexivity).
  unfold probe. cbn [andb negb].
  rewrite getEvent_loop_flat by assumption.
  rewrite getEvent_loop_close_low;
    [|rewrite absorb_flat_bracketCount by assumption; lia
     |apply absorb_wf; assumption].
  rewrite <- absorb_app. cbv zeta.
  rewrite terminated_text; [|assumption|assumption|].
  2: { apply no_nul_take. unfold no_nul in *. rewrite forallb_app, Hnn.
       reflexivity. }
  rewrite take_ge by (rewrite length_app; simpl; lia).
  unfold delivery.
  destruct (onJsonStringReceived _ ev (engine s)) as [ev' c1].
  cbn [rx frame engine readBufferIndex bracketCount].
  repeat split; reflexivity.
Qed.

Lemma millis_probe i (c : Engine) : millis (probe i c) = millis c.
Proof. unfold probe. case_match; reflexivity. Qed.

(** A poll that found data leaves the probe clock [perMessageInterval]
    short of a full [requestInterval] ago, whatever the decoder did. *)
Lemma getEvent_with_data_clock ev s :
  rx s <> [] ->
  lastOpenRequest (engine (snd (getEvent ev s)))
  = millis (engine s) - requestInterval + perMessageInterval
  /\ millis (engine (snd (getEvent ev s))) = millis (engine s).
Proof.
  intros Hne. split; [|apply millis_getEvent].
  unfold getEvent.
  pose proof (millis_getEvent_loop (rx s) ev (frame s)
                (probe (no_data (rx s)) (engine s))) as Hm.
  destruct (getEvent_loop _ _ _ _) as [[[[h r] e] f] c].
  cbn [snd engine] in *. rewrite millis_probe in Hm.
  destruct (rx s); [congruence|]. cbn [no_data negb tighten].
  cbn [lastOpenRequest set_lastOpenRequest]. rewrite Hm. reflexivity.
Qed.

(** X4.  After a poll that found data, the keep-alive probe [{}] is held
    back for [perMessageInterval] ms: with the port empty again, the next
    poll writes the probe exactly when more than 25 ms have passed, and
    writes nothing otherwise. *)
Theorem probe_follows_data_after_25_ms
  (ev ev1 : ShieldEvent.t) (s s1 : Shield) (has : bool) (m : Moment) :
  rx s <> [] ->
  getEvent ev s = (has, ev1, s1) ->
  rx s1 = [] -> arriving m = [] ->
  tx (engine (snd (getEvent ev1 (pass m s1))))
  = tx (engine s1)
    ++ (if perMessageInterval <? elapsed m then AWAITING_MESSAGE else []).
Proof.
  intros Hne E Hrx1 Hm.
  destruct (getEvent_with_data_clock ev s Hne) as [Hlor Hms].
  rewrite E in Hlor, Hms. cbn [snd] in Hlor, Hms.
  rewrite getEvent_quiet by (unfold pass; simpl; rewrite Hrx1, Hm; reflexivity).
  cbn [snd engine]. unfold pass, probe. cbn [engine andb].
  cbn [lastOpenRequest millis set_millis]. rewrite Hlor, Hms.
  unfold requestInterval, perMessageInterval.
  destruct (Z.ltb_spec 25 (elapsed m));
    destruct (Z.ltb_spec (millis (engine s) - 1000 + 25 + 1000)
                (millis (engine s) + elapsed m)); try lia.
  - reflexivity.
  - cbn [tx]. rewrite app_nil_r. reflexivity.
Qed.

(** X5.  With nothing to read and more than [requestInterval] ms since
    the last request, a poll writes the probe [{}] and nothing else; the
    next probe follows only when more than 1000 ms have passed again. *)
Theorem probe_repeats_after_1000_ms
  (ev : ShieldEvent.t) (s : Shield) (m : Moment) :
  rx s = [] -> arriving m = [] ->
  lastOpenRequest (engine s) + requestInterval < millis (engine s) ->
  let s1 := snd (getEvent ev s) in
  tx (engine s1) = tx (engine s) ++ AWAITING_MESSAGE
  /\ tx (engine (snd (getEvent ev (pass m s1))))
     = tx (engine s1)
       ++ (if requestInterval <? elapsed m then AWAITING_MESSAGE else []).
Proof.
  intros Hrx Hm Hdue. cbv zeta.
  rewrite (getEvent_quiet ev s Hrx). cbn [snd engine].
  rewrite getEvent_quiet by (unfold pass; simpl; rewrite Hm; reflexivity).
  cbn [snd engine]. unfold pass, probe. cbn [engine andb].
  apply Z.ltb_lt in Hdue. rewrite Hdue.
  cbn [lastOpenRequest millis set_millis set_lastOpenRequest set_tx tx].
  split; [reflexivity|].
  unfold requestInterval.
  destruct (Z.ltb_spec 1000 (elapsed m));
    destruct (Z.ltb_spec (millis (engine s) + 1000)
                (millis (engine s) + elapsed m)); try lia.
  - reflexivity.
  - rewrite app_nil_r. reflexivity.
Qed.

Lemma getEvent_loop_false_empties avail ev f c rest ev' f' c' :
  getEvent_loop avail ev f c = (false, rest, ev', f', c') -> rest = [].
Proof.
  revert f. induction avail as [|ch avail IH]; intros f E; simpl in E.
  - inversion E; reflexivity.
  - repeat match type of E with
           | context [if ?b then _ else _] => destruct b
           | context [let (_, _) := ?p in _] => destruct p
           end;
      first [eapply IH; eassumption|discriminate].
Qed.

Lemma checkSensors_loop_empties fuel wid wrid started had s found s' :
  checkSensors_loop fuel wid 0 wrid started had s = Some (found, s') ->
  rx s' = [].
Proof.
  revert had s. induction fuel as [|fuel IH]; intros had s E; [discriminate|].
  simpl in E. unfold getEvent in E.
  destruct (getEvent_loop _ _ _ _) as [[[[h r] e] f] c] eqn:El.
  destruct h; cbn [andb orb] in E.
  - eapply IH, E.
  - inversion E; subst. simpl. eapply getEvent_loop_false_empties, El.
Qed.

(** X6.  [checkSensors] with no timeout goes on until the port is empty:
    it returns, and every byte that was available has been read, so every
    whole frame that was waiting has gone through the decoder. *)
Theorem checkSensors_empties_the_port (watchForId watchForResultId : Z)
  (s : Shield) :
  exists found s',
    checkSensors watchForId 0 watchForResultId s = Some (found, s')
    /\ rx s' = [].
Proof.
  destruct (checkSensors_total watchForId 0 watchForResultId s)
    as [[found s'] E].
  exists found, s'. split; [exact E|].
  unfold checkSensors in E. eapply checkSensors_loop_empties, E.
Qed.

End AssemblerEdges.

(** ** More on the registry and the dispatcher *)

Section DispatcherMore.
Context {B : Board} {J : JsonLib} {Hdr : Header}.

Lemma addSensor_full sensor c :
  (10 <= length (sensors c))%nat -> (length (sensors c) <= 10)%nat ->
  addSensor sensor c = (false, c).
Proof.
  intros H1 H2. unfold addSensor, sensorCount, maxRememberedSensors.
  destruct (Z.eqb_spec (Z.of_nat (length (sensors c))) 10); [reflexivity|lia].
Qed.

Lemma addSensor_room sensor c :
  (length (sensors c) < 10)%nat ->
  addSensor sensor c = (true, set_sensors (sensors c ++ [sensor]) c).
Proof.
  intros H. unfold addSensor, sensorCount, maxRememberedSensors.
  destruct (Z.eqb_spec (Z.of_nat (length (sensors c))) 10); [lia|reflexivity].
Qed.

(** X7.  However many sensors are added, the registry never holds more
    than [maxRememberedSensors]: it keeps the first ten in the order they
    were added, the calls that found room return true and the later ones
    false, and nothing else in the engine changes. *)
Theorem addSensors_keeps_first_ten (l : list Sensor) (c : Engine) :
  sensorCount c <= maxRememberedSensors ->
  let room := (10 - length (sensors c))%nat in
  addSensors l c
  = (repeat true (min (length l) room)
     ++ repeat false (length l - room),
     set_sensors (take 10 (sensors c ++ l)) c).
Proof.
  unfold sensorCount, maxRememberedSensors. cbv zeta.
  revert c. induction l as [|sensor l IH]; intros c Hle.
  - simpl. rewrite app_nil_r, take_ge by lia. destruct c; reflexivity.
  - simpl addSensors.
    destruct (Nat.lt_ge_cases (length (sensors c)) 10) as [Hlt|Hge].
    + rewrite addSensor_room by assumption.
      rewrite IH by (cbn [sensors set_sensors]; rewrite length_app; simpl; lia).
      cbn [sensors set_sensors]. rewrite length_app. simpl length.
      replace (10 - length (sensors c))%nat
        with (S (10 - (length (sensors c) + 1)))%nat by lia.
      simpl. rewrite <- app_assoc. simpl. destruct c; reflexivity.
    + rewrite addSensor_full by lia.
      rewrite IH by lia.
      replace (10 - length (sensors c))%nat with 0%nat by lia.
      rewrite !Nat.min_0_r, !Nat.sub_0_r. simpl.
      rewrite !take_app_le by lia. reflexivity.
Qed.

(** The scan stops at the first peripheral with the discriminator: its
    decode is applied and recorded, and the back-reference attached. *)
Lemma sensor_scan_at pre sensor post i k root ev c :
  sensorType sensor = k ->
  (forall s, In s pre -> sensorType s <> k) ->
  sensor_scan i (pre ++ sensor :: post) k root ev c
  = (attach (i + length pre) (sensor_onJsonReceived sensor root ev),
     set_log (log c ++ [Decoded (i + length pre) ev]) c).
Proof.
  revert i. induction pre as [|s pre IH]; intros i Hk Hpre; simpl.
  - rewrite (proj2 (Ascii.eqb_eq _ _) Hk), Nat.add_0_r. reflexivity.
  - destruct (Ascii.eqb_spec (sensorType s) k) as [E|_].
    + exfalso. apply (Hpre s); [left; reflexivity|exact E].
    + rewrite IH; [|assumption|intros s' Hin; apply Hpre; right; exact Hin].
      replace (S i + length pre)%nat with (i + S (length pre))%nat by lia.
      reflexivity.
Qed.

(** X8.  A sensor added to a registry with room, in which no sensor has
    its discriminator, is the one that decodes the next event whose
    [Type] begins with that discriminator: the event that comes out is
    what its decode makes of the populated event, with the back-reference
    to its place in the registry when it is a sensor event, and the
    observer is called after the decode. *)
Theorem added_sensor_decodes_its_events
  (sensor : Sensor) (root : JsonObject) (ev : ShieldEvent.t) (c : Engine)
  (ty : text) :
  sensorCount c < maxRememberedSensors ->
  (forall s, In s (sensors c) -> sensorType s <> sensorType sensor) ->
  as_text root (lit "Type") = Some ty ->
  first_char ty = sensorType sensor ->
  sensorType sensor <> SYSTEM_EVENT ->
  let (added, c1) := addSensor sensor c in
  let (ev', c') := onJsonReceived root ev c1 in
  added = true
  /\ ev' = attach (length (sensors c))
             (sensor_onJsonReceived sensor root (populate root ev))
  /\ log c' = log c ++ [Decoded (length (sensors c)) (populate root ev)]
              ++ observer c ev'.
Proof.
  unfold sensorCount, maxRememberedSensors.
  intros Hroom Hfresh Hty Hfirst Hsys.
  rewrite addSensor_room by lia.
  unfold onJsonReceived, bind, ret. rewrite Hty, Hfirst.
  rewrite (proj2 (Ascii.eqb_neq _ _) Hsys).
  cbn [sensors set_sensors].
  rewrite sensor_scan_at; [|reflexivity|assumption].
  unfold invoke, observer. cbn [callbacks set_log set_sensors log].
  destruct (callbacks c onEvent); cbn [log set_log];
    rewrite <- ?app_assoc, ?app_nil_r; repeat split; reflexivity.
Qed.

Lemma set_log_same (c : Engine) : set_log (log c ++ []) c = c.
Proof. rewrite app_nil_r. destruct c; reflexivity. Qed.

Lemma invoke_called cb ev (c : Engine) :
  invoke cb ev c = (tt, set_log (log c ++ called c ev cb) c).
Proof.
  unfold invoke, called. destruct (callbacks c cb); [reflexivity|].
  rewrite set_log_same. reflexivity.
Qed.

Lemma system_event_run ev c first refresh :
  (if ShieldEvent.resultHash ev =? PING_HASH
   then bind (sendPingBack ev) (fun _ => ret false)
   else if ShieldEvent.resultHash ev =? REFRESH_HASH then ret true
   else if ShieldEvent.resultHash ev =? CONNECT_HASH
        then bind (invoke onConnect ev) (fun _ => ret true)
   else if ShieldEvent.resultHash ev =? SUSPEND_HASH
        then bind (invoke onSuspend ev) (fun _ => ret false)
   else if ShieldEvent.resultHash ev =? RESUME_HASH
        then bind (invoke onResume ev) (fun _ => ret true)
   else ret false) c
  = (refresh, set_log (log c ++ flat_map (called c ev) first) c) ->
  system_event ev c
  = (tt, set_log (log c ++ flat_map (called c ev)
                             (first ++ if refresh then [onRefresh] else []))
           c).
Proof.
  intros E. unfold system_event. unfold bind at 1. rewrite E.
  rewrite flat_map_app. destruct refresh.
  - rewrite invoke_called. cbn [callbacks set_log log flat_map].
    unfold called at 4. cbn [callbacks set_log].
    rewrite app_nil_r, !app_assoc. destruct c; reflexivity.
  - unfold ret. cbn [flat_map]. rewrite app_nil_r. reflexivity.
Qed.

(** What the dispatcher does with a system event whose keyword is one of
    the four lifecycle keywords: the callbacks [cbs] of the keyword, then
    the observer, and nothing else. *)
Lemma lifecycle_event root ev c ty first refresh :
  as_text root (lit "Type") = Some ty ->
  first_char ty = SYSTEM_EVENT ->
  let e := ShieldEvent.set_cargo (Some root) (populate root ev) in
  (if ShieldEvent.resultHash e =? PING_HASH
   then bind (sendPingBack e) (fun _ => ret false)
   else if ShieldEvent.resultHash e =? REFRESH_HASH then ret true
   else if ShieldEvent.resultHash e =? CONNECT_HASH
        then bind (invoke onConnect e) (fun _ => ret true)
   else if ShieldEvent.resultHash e =? SUSPEND_HASH
        then bind (invoke onSuspend e) (fun _ => ret false)
   else if ShieldEvent.resultHash e =? RESUME_HASH
        then bind (invoke onResume e) (fun _ => ret true)
   else ret false) c
  = (refresh, set_log (log c ++ flat_map (called c e) first) c) ->
  onJsonReceived root ev c
  = (e, set_log
          (log c ++ flat_map (called c e)
                      (first ++ (if refresh then [onRefresh] else [])
                       ++ [onEvent])) c).
Proof.
  intros Hty Hsys e Hrun.
  unfold onJsonReceived. rewrite Hty, Hsys.
  rewrite (proj2 (Ascii.eqb_eq _ _) eq_refl).
  unfold bind at 1 2. fold e. rewrite (system_event_run e c first refresh Hrun).
  unfold ret at 1. unfold bind, ret. rewrite invoke_called.
  cbn [log set_log callbacks]. f_equal.
  rewrite (app_assoc first), (flat_map_app _ (first ++ _)).
  cbn [flat_map]. unfold called at 2 4. cbn [callbacks set_log].
  rewrite app_nil_r, !app_assoc. destruct c; reflexivity.
Qed.

(** X9.  A system event whose keyword is one of the four lifecycle
    keywords calls the callbacks of the keyword in a fixed order, then
    the observer, all with the same event, which carries the frame as
    cargo; nothing is written and nothing else in the engine changes.
    Refresh calls [onRefresh]; Connect calls [onConnect] then
    [onRefresh]; Suspend calls [onSuspend]; Resume calls [onResume] then
    [onRefresh]. *)
Theorem lifecycle_events_call_their_callbacks
  (root : JsonObject) (ev : ShieldEvent.t) (c : Engine) (ty : text)
  (cbs : list Callback) :
  as_text root (lit "Type") = Some ty ->
  first_char ty = SYSTEM_EVENT ->
  List.NoDup
    [PING_HASH; REFRESH_HASH; CONNECT_HASH; SUSPEND_HASH; RESUME_HASH] ->
  In (hash_of (as_text root (lit "Result")), cbs)
     [(REFRESH_HASH, [onRefresh]);
      (CONNECT_HASH, [onConnect; onRefresh]);
      (SUSPEND_HASH, [onSuspend]);
      (RESUME_HASH, [onResume; onRefresh])] ->
  let e := ShieldEvent.set_cargo (Some root) (populate root ev) in
  onJsonReceived root ev c
  = (e, set_log (log c ++ flat_map (called c e) (cbs ++ [onEvent])) c).
Proof.
  intros Hty Hsys Hdup Hin e.
  assert (Hh : ShieldEvent.resultHash e
               = hash_of (as_text root (lit "Result"))) by reflexivity.
  repeat match goal with
         | H : List.NoDup (_ :: _) |- _ =>
             apply List.NoDup_cons_iff in H; destruct H as [? H]
         end.
  repeat match goal with
         | H : ~ In _ _ |- _ => cbn [In] in H
         end.
  assert (Hne : forall a b : Z, a <> b -> (a =? b) = false)
    by (intros a b; apply Z.eqb_neq).
  remember (hash_of (as_text root (lit "Result"))) as k eqn:Ek.
  cbn [In] in Hin.
  destruct Hin as [Hin|[Hin|[Hin|[Hin|[]]]]]; inversion Hin as [[Hk Hc]];
    clear Hin.
  - apply (lifecycle_event root ev c ty [] true Hty Hsys).
    cbv zeta. rewrite !set_cargo_resultHash, !populate_resultHash, <- Ek, <- Hk.
    rewrite (Hne REFRESH_HASH PING_HASH) by intuition congruence.
    rewrite Z.eqb_refl. unfold ret. cbn [flat_map].
    rewrite set_log_same. reflexivity.
  - apply (lifecycle_event root ev c ty [onConnect] true Hty Hsys).
    cbv zeta. rewrite !set_cargo_resultHash, !populate_resultHash, <- Ek, <- Hk.
    rewrite (Hne CONNECT_HASH PING_HASH) by intuition congruence.
    rewrite (Hne CONNECT_HASH REFRESH_HASH) by intuition congruence.
    rewrite Z.eqb_refl. unfold bind, ret. rewrite invoke_called.
    cbn [flat_map]. rewrite app_nil_r. reflexivity.
  - apply (lifecycle_event root ev c ty [onSuspend] false Hty Hsys).
    cbv zeta. rewrite !set_cargo_resultHash, !populate_resultHash, <- Ek, <- Hk.
    rewrite (Hne SUSPEND_HASH PING_HASH) by intuition congruence.
    rewrite (Hne SUSPEND_HASH REFRESH_HASH) by intuition congruence.
    rewrite (Hne SUSPEND_HASH CONNECT_HASH) by intuition congruence.
    rewrite Z.eqb_refl. unfold bind, ret. rewrite invoke_called.
    cbn [flat_map]. rewrite app_nil_r. reflexivity.
  - apply (lifecycle_event root ev c ty [onResume] true Hty Hsys).
    cbv zeta. rewrite !set_cargo_resultHash, !populate_resultHash, <- Ek, <- Hk.
    rewrite (Hne RESUME_HASH PING_HASH) by intuition congruence.
    rewrite (Hne RESUME_HASH REFRESH_HASH) by intuition congruence.
    rewrite (Hne RESUME_HASH CONNECT_HASH) by intuition congruence.
    rewrite (Hne RESUME_HASH SUSPEND_HASH) by intuition congruence.
    rewrite Z.eqb_refl. unfold bind, ret. rewrite invoke_called.
    cbn [flat_map]. rewrite app_nil_r. reflexivity.
Qed.

(** X10.  A system event with a keyword that is none of the five the
    dispatcher knows reaches only the observer: no lifecycle callback is
    called, no sensor decodes it and nothing is written. *)
Theorem unknown_system_event_reaches_only_the_observer
  (root : JsonObject) (ev : ShieldEvent.t) (c : Engine) (ty : text) :
  as_text root (lit "Type") = Some ty ->
  first_char ty = SYSTEM_EVENT ->
  ~ In (hash_of (as_text root (lit "Result")))
       [PING_HASH; REFRESH_HASH; CONNECT_HASH; SUSPEND_HASH; RESUME_HASH] ->
  let e := ShieldEvent.set_cargo (Some root) (populate root ev) in
  onJsonReceived root ev c = (e, set_log (log c ++ called c e onEvent) c).
Proof.
  intros Hty Hsys Hnot e.
  assert (Hh : ShieldEvent.resultHash e
               = hash_of (as_text root (lit "Result"))) by reflexivity.
  assert (Hne : forall a b : Z, a <> b -> (a =? b) = false)
    by (intros a b; apply Z.eqb_neq).
  cbn [In] in Hnot.
  rewrite (lifecycle_event root ev c ty [] false Hty Hsys).
  - cbn [flat_map app]. rewrite app_nil_r. reflexivity.
  - cbv zeta. rewrite !set_cargo_resultHash, !populate_resultHash.
    rewrite !Hne by (intros E; apply Hnot; rewrite E; tauto).
    unfold ret. cbn [flat_map]. rewrite set_log_same. reflexivity.
Qed.

(** X11.  A frame without a [Type] member is decoded into the event and
    reaches the observer only: no sensor is asked to decode it, whatever
    the registry holds, and the event's tag is left empty even when the
    frame has a [Tag]. *)
Theorem frame_without_type_skips_the_sensors
  (root : JsonObject) (ev : ShieldEvent.t) (c : Engine) :
  as_text root (lit "Type") = None ->
  let e := populate root ev in
  onJsonReceived root ev c = (e, set_log (log c ++ called c e onEvent) c)
  /\ ShieldEvent.tag e = None.
Proof.
  intros Hty e. split.
  - unfold onJsonReceived. rewrite Hty. unfold bind, ret.
    rewrite invoke_called. reflexivity.
  - unfold e. rewrite populate_tag. exact Hty.
Qed.

(** X12.  An event whose discriminator no registered sensor has is left
    as populated and reaches the observer only. *)
Theorem unclaimed_event_reaches_only_the_observer
  (root : JsonObject) (ev : ShieldEvent.t) (c : Engine) (ty : text) :
  as_text root (lit "Type") = Some ty ->
  first_char ty <> SYSTEM_EVENT ->
  (forall s, In s (sensors c) -> sensorType s <> first_char ty) ->
  let e := populate root ev in
  onJsonReceived root ev c = (e, set_log (log c ++ called c e onEvent) c).
Proof.
  intros Hty Hsys Hnone e.
  unfold onJsonReceived. rewrite Hty.
  rewrite (proj2 (Ascii.eqb_neq _ _) Hsys).
  unfold bind, ret. rewrite sensor_scan_none by assumption.
  rewrite invoke_called. reflexivity.
Qed.

End DispatcherMore.

(** ** More on the request correlator *)

Section CorrelatorMore.
Context {B : Board} {J : JsonLib} {Hdr : Header}.

(** The flag [asSuccess] is only read where [id] is known not to be
    negative. *)
Lemma waitFor_asSuccess script id timeout a1 a2 resultId s :
  waitFor script id timeout a1 resultId s
  = waitFor script id timeout a2 resultId s.
Proof.
  unfold waitFor. destruct (id <? 0) eqn:E; [reflexivity|].
  rewrite !andb_false_r. reflexivity.
Qed.

(** X13.  The flag [asSuccess] has no effect on [waitFor], and the
    answer is the id waited for or 0. *)
Theorem waitFor_answers_id_or_zero
  (script : list Moment) (id timeout : Z) (asSuccess : bool) (resultId : Z)
  (s : Shield) :
  waitFor script id timeout asSuccess resultId s
  = waitFor script id timeout (negb asSuccess) resultId s
  /\ forall answer s',
       waitFor script id timeout asSuccess resultId s = Some (answer, s') ->
       answer = id \/ answer = 0.
Proof.
  split; [apply waitFor_asSuccess|].
  unfold waitFor. intros answer s'. destruct (id <? 0) eqn:E.
  - intros [= <- _]. left. reflexivity.
  - rewrite andb_false_r.
    destruct (waitFor_loop _ _ _ _ _) as [[[|] s1]|]; intros [= <- _]; auto.
Qed.

(** X14.  [block] hands its result filter to [waitFor] in the place of
    the flag [asSuccess], so the filter has no effect: the wait filters
    on the default result id of [waitFor], whatever [watchForResultId]
    is. *)
Theorem block_ignores_its_result_filter
  (allowAutoBlocking : bool) (defaultResultId : Z) (script : list Moment)
  (id : Z) (blocking : bool) (timeout w1 w2 : Z) (s : Shield) :
  block allowAutoBlocking defaultResultId script id blocking timeout w1 s
  = block allowAutoBlocking defaultResultId script id blocking timeout w2 s.
Proof.
  unfold block. destruct (allowAutoBlocking && blocking); [|reflexivity].
  apply waitFor_asSuccess.
Qed.





Lemma probe_after_data c :
  probe true (tighten true c) = tighten true c.
Proof.
  unfold probe, tighten. cbn [lastOpenRequest millis set_lastOpenRequest].
  unfold requestInterval, perMessageInterval.
  destruct (Z.ltb_spec (millis c - 1000 + 25 + 1000) (millis c)); [lia|].
  reflexivity.
Qed.

Lemma balanced_nonempty f : balanced f = true -> f <> [].
Proof. intros H ->. discriminate H. Qed.

(** [checkSensors] on a port that holds one whole frame. *)
Lemma checkSensors_lone_frame f wid wrid s :
  idle s -> balanced f = true -> no_nul f = true ->
  Z.of_nat (length f) < maxReadBuffer ->
  checkSensors wid 0 wrid (set_rx f s)
  = let (ev, c) :=
      delivery f (recentEvent s) (set_recentEventErrorId 0 (engine s)) in
    Some (((wid =? 0) || (ShieldEvent.id ev =? wid))
          && ((wrid =? -1) || (ShieldEvent.resultId ev =? wrid)),
          mkShield (mkFrameBuffer (terminated (absorb f (frame s))) 0 0)
            [] ev c).
Proof.
  intros (Hrx & Hi & Hd & Hl) Hb Hn Hlen.
  unfold balanced, maxReadBuffer in *.
  pose proof int_half_pos as Hhalf.
  pose proof (peak_length 0 f) as Hp.
  assert (Hwf : wf_frame (frame s)) by (unfold wf_frame, maxReadBuffer; lia).
  unfold checkSensors, set_engine, set_rx.
  cbn [rx frame engine recentEvent].
  destruct f as [|ch f'] eqn:Ef; [discriminate Hb|]. rewrite <- Ef in *.
  replace (length f) with (S (length f')) by (rewrite Ef; reflexivity).
  cbn [checkSensors_loop].
  rewrite getEvent_close;
    cbn [rx frame engine recentEvent];
    [|rewrite Hd; assumption|assumption|lia|rewrite Hd; lia].
  cbv zeta.
  rewrite terminated_text;
    [|assumption|assumption|apply no_nul_take; assumption].
  rewrite take_ge by lia.
  unfold delivery.
  destruct (onJsonStringReceived f (recentEvent s)
              (set_recentEventErrorId 0 (engine s))) as [ev c1].
  rewrite Z.eqb_refl. cbn [andb orb]. unfold set_recentEvent.
  cbn [frame rx recentEvent engine].
  rewrite getEvent_quiet by reflexivity.
  cbn [andb frame rx recentEvent engine].
  rewrite probe_after_data. reflexivity.
Qed.

(** X17.  With one whole frame on the port, [checkSensors] delivers it,
    leaves the port empty and the decoded event in [recentEvent], and
    answers whether the event passes both filters: the id filter, which 0
    switches off, and the result filter, which -1 switches off. *)
Theorem checkSensors_answers_for_a_lone_frame
  (f : text) (watchForId watchForResultId : Z) (s : Shield) :
  idle s -> balanced f = true -> no_nul f = true ->
  Z.of_nat (length f) < maxReadBuffer ->
  let (ev, c) :=
    delivery f (recentEvent s) (set_recentEventErrorId 0 (engine s)) in
  exists s',
    checkSensors watchForId 0 watchForResultId (set_rx f s)
    = Some (((watchForId =? 0) || (ShieldEvent.id ev =? watchForId))
            && ((watchForResultId =? -1)
                || (ShieldEvent.resultId ev =? watchForResultId)), s')
    /\ rx s' = [] /\ recentEvent s' = ev /\ engine s' = c.
Proof.
  intros Hidle Hb Hn Hlen.
  pose proof (checkSensors_lone_frame f watchForId watchForResultId s
                Hidle Hb Hn Hlen) as E.
  destruct (delivery _ _ _) as [ev c].
  eexists. split; [exact E|]. repeat split; reflexivity.
Qed.

(** X18.  [waitFor] with time to wait, when the port holds one whole
    frame whose event has the id waited for and passes the result
    filter: the answer is the id, after the one poll that delivers the
    frame, whatever the script says of later arrivals. *)
Theorem waitFor_answers_the_id_of_a_lone_frame
  (script : list Moment) (f : text) (id timeout : Z) (asSuccess : bool)
  (resultId : Z) (s : Shield) :
  idle s -> balanced f = true -> no_nul f = true ->
  Z.of_nat (length f) < maxReadBuffer ->
  0 < id -> 0 < timeout ->
  let answer :=
    delivery f (recentEvent s) (set_recentEventErrorId 0 (engine s)) in
  ShieldEvent.id (fst answer) = id ->
  resultId = -1 \/ ShieldEvent.resultId (fst answer) = resultId ->
  exists s',
    waitFor script id timeout asSuccess resultId (set_rx f s)
    = Some (id, s')
    /\ rx s' = [] /\ (recentEvent s', engine s') = answer.
Proof.
  intros Hidle Hb Hn Hlen Hid Ht answer.
  pose proof (checkSensors_lone_frame f id resultId s Hidle Hb Hn Hlen) as E.
  unfold answer. destruct (delivery _ _ _) as [ev c]. cbn [fst].
  intros Hev Hres. unfold waitFor.
  destruct (Z.ltb_spec id 0); [lia|]. rewrite andb_false_r.
  assert (Hnow : (millis (engine (set_rx f s))
                   <? timeout + millis (engine (set_rx f s))) = true)
    by (apply Z.ltb_lt; lia).
  assert (Hf : ((id =? 0) || (ShieldEvent.id ev =? id))
               && ((resultId =? -1) || (ShieldEvent.resultId ev =? resultId))
               = true).
  { rewrite Hev, Z.eqb_refl, orb_true_r. cbn [andb].
    destruct Hres as [-> | ->]; rewrite ?Z.eqb_refl, ?orb_true_r; reflexivity. }
  rewrite Hf in E.
  destruct script; cbn [waitFor_loop]; rewrite Hnow, E;
    (eexists; split; [reflexivity|repeat split; reflexivity]).
Qed.

End CorrelatorMore.

(** ** The hash and the splitting of text *)

Section Hashing.
Context {B : Board}.

Lemma no_nul_c_str l : no_nul (c_str l) = true.
Proof.
  induction l as [|c l IH]; simpl; [reflexivity|].
  destruct (Ascii.eqb c NUL) eqn:E; simpl; [reflexivity|].
  rewrite E, IH. reflexivity.
Qed.

Lemma c_str_no_nul l : no_nul l = true -> c_str l = l.
Proof.
  induction l as [|c l IH]; simpl; intros H; [reflexivity|].
  apply andb_prop in H as [H1 H2]. apply negb_true_iff in H1.
  rewrite H1, IH by assumption. reflexivity.
Qed.

Lemma c_str_app l r : no_nul l = true -> c_str (l ++ r) = l ++ c_str r.
Proof.
  induction l as [|c l IH]; simpl; intros H; [reflexivity|].
  apply andb_prop in H as [H1 H2]. apply negb_true_iff in H1.
  rewrite H1, IH by assumption. reflexivity.
Qed.

Lemma c_str_prefix l : take (length (c_str l)) l = c_str l.
Proof.
  induction l as [|c l IH]; simpl; [reflexivity|].
  destruct (Ascii.eqb c NUL); simpl; [reflexivity|].
  rewrite IH. reflexivity.
Qed.

Lemma hash_loop_app a b h :
  hash_loop (a ++ b) h = hash_loop b (hash_loop a h).
Proof.
  revert h. induction a as [|c a IH]; intros h; simpl; [reflexivity|].
  apply IH.
Qed.

Lemma hash_loop_range l h :
  0 <= h < 2 ^ int_bits -> 0 <= hash_loop l h < 2 ^ int_bits.
Proof.
  revert h. induction l as [|c l IH]; intros h Hh; simpl; [exact Hh|].
  apply IH. unfold wrap_uint. apply Z.mod_pos_bound.
  pose proof int_bits_min. apply Z.pow_pos_nonneg; lia.
Qed.

Lemma hash_scan s seed : hash s (-1) seed = hash_loop (c_str s) seed.
Proof. reflexivity. Qed.

Lemma hash_bounded s (n : nat) seed :
  hash s (Z.of_nat n) seed = hash_loop (take n s) seed.
Proof.
  unfold hash. destruct (Z.eqb_spec (Z.of_nat n) (-1)); [lia|].
  rewrite Nat2Z.id. reflexivity.
Qed.

(** X19.  The hash is a fold over the bytes that starts from the seed:
    hashing a text up to its terminator is hashing its second part with
    the hash of the first part as seed; hashing as many bytes as the
    text has before its terminator is hashing up to the terminator; and
    the hash of a seed in the range of [unsigned int] is in that range. *)
Theorem hash_continues_from_its_seed (a b : text) (seed : Z) :
  no_nul a = true ->
  hash (a ++ b) (-1) seed = hash b (-1) (hash a (-1) seed)
  /\ hash (a ++ b) (Z.of_nat (length a)) seed = hash a (-1) seed
  /\ hash b (Z.of_nat (length (c_str b))) seed = hash b (-1) seed
  /\ (0 <= seed < 2 ^ int_bits -> 0 <= hash b (-1) seed < 2 ^ int_bits).
Proof.
  intros Ha. rewrite !hash_scan, !hash_bounded.
  rewrite c_str_app, (c_str_no_nul a), hash_loop_app by assumption.
  rewrite take_app_length, c_str_prefix.
  repeat split; try reflexivity; apply hash_loop_range; assumption.
Qed.

End Hashing.

Section Splitting.
Context {B : Board}.

Lemma drop_cons_next {A} (l : list A) i x r :
  drop i l = x :: r -> drop (S i) l = r /\ (i < length l)%nat.
Proof.
  revert l. induction i as [|i IH]; intros [|y l] H; simpl in *;
    try discriminate.
  - inversion H. split; [reflexivity|lia].
  - destruct (IH l H) as [H1 H2]. split; [exact H1|lia].
Qed.

Lemma window_next {A} (l : list A) st i x r :
  (st <= i)%nat -> drop i l = x :: r ->
  take (S i - st) (drop st l) = take (i - st) (drop st l) ++ [x].
Proof.
  intros Hle Hd.
  destruct (drop_cons_next l i x r Hd) as [_ Hlt].
  replace (S i - st)%nat with (S (i - st)) by lia.
  apply take_S_r. rewrite lookup_drop.
  replace (st + (i - st))%nat with i by lia.
  rewrite <- (take_drop i l) at 1. rewrite Hd.
  rewrite lookup_app_r by (rewrite length_take; lia).
  rewrite length_take. replace (i - i `min` length l)%nat with 0%nat by lia.
  reflexivity.
Qed.

Lemma piece_text_of_mem k v len :
  piece_text (EPtr_of_mem k v len) = take (Z.to_nat len) v.
Proof. reflexivity. Qed.

(** The pieces that the loop of [EPtr::parse] makes when no limit stops
    it. *)
Lemma EPtr_parse_loop_fields t rest index start count length separator :
  length <= 0 -> 0 <= count -> 0 <= start <= index ->
  (Z.to_nat index <= List.length t)%nat ->
  rest = drop (Z.to_nat index) t ->
  map piece_text
    (EPtr_parse_loop t rest index start count length separator)
  = fields separator
      (take (Z.to_nat (index - start)) (drop (Z.to_nat start) t)) rest.
Proof.
  intros Hn. revert index start count.
  induction rest as [|ch rest IH]; intros index start count Hc Hi Hle Hrest.
  - cbn [EPtr_parse_loop fields].
    destruct (Z.ltb_spec start index).
    + cbn [map]. rewrite piece_text_of_mem.
      destruct (take _ _) eqn:E; [|reflexivity].
      exfalso. apply (f_equal (@List.length _)) in E.
      rewrite length_take, length_drop in E. simpl in E. lia.
    + replace (index - start) with 0 by lia. reflexivity.
  - symmetry in Hrest.
    destruct (drop_cons_next t _ _ _ Hrest) as [Hnext Hlt].
    cbn [EPtr_parse_loop fields].
    destruct (Ascii.eqb ch separator).
    + cbn [map]. rewrite piece_text_of_mem. f_equal.
      destruct (Z.eqb_spec (count + 1) length); [lia|].
      rewrite IH; [|lia|lia|lia|rewrite Z2Nat.inj_add by lia;
                                  rewrite Nat.add_1_r; symmetry; exact Hnext].
      replace (index + 1 - (index + 1)) with 0 by lia. reflexivity.
    + rewrite IH; [|lia|lia|lia|rewrite Z2Nat.inj_add by lia;
                                  rewrite Nat.add_1_r; symmetry; exact Hnext].
      f_equal.
      replace (Z.to_nat (index + 1 - start))
        with (S (Z.to_nat index) - Z.to_nat start)%nat by lia.
      replace (Z.to_nat (index - start))
        with (Z.to_nat index - Z.to_nat start)%nat by lia.
      apply (window_next t _ _ ch rest); [lia|exact Hrest].
Qed.

Lemma last_app_cons {A} (l : list A) x r :
  last (l ++ x :: r) = last (x :: r).
Proof.
  induction l as [|y l IH]; [reflexivity|].
  simpl. destruct (l ++ x :: r) eqn:E; [destruct l; discriminate|].
  exact IH.
Qed.

Lemma fields_join separator cur rest :
  forallb (fun ch => negb (Ascii.eqb ch separator)) cur = true ->
  concat (map (closed_by separator) (fields separator cur rest))
  = (cur ++ rest) ++ missing_end separator (cur ++ rest)
  /\ Forall (fun piece =>
               forallb (fun ch => negb (Ascii.eqb ch separator)) piece = true)
       (fields separator cur rest).
Proof.
  revert cur. induction rest as [|ch rest IH]; intros cur Hcur.
  - cbn [fields]. rewrite app_nil_r. destruct cur as [|c cur'] eqn:E.
    + split; [reflexivity|constructor].
    + rewrite <- E in *. split; [|repeat constructor; assumption].
      cbn [map concat]. rewrite app_nil_r. unfold closed_by, missing_end.
      f_equal.
      destruct (last cur) as [x|] eqn:El.
      * apply last_Some in El as [l' ->].
        rewrite forallb_app in Hcur. apply andb_prop in Hcur as [_ Hx].
        simpl in Hx. rewrite andb_true_r in Hx.
        apply negb_true_iff in Hx. rewrite Hx. reflexivity.
      * apply last_None in El. congruence.
  - cbn [fields]. destruct (Ascii.eqb ch separator) eqn:Es.
    + destruct (IH [] eq_refl) as [IH1 IH2].
      split; [|constructor; assumption].
      cbn [map concat]. rewrite IH1. unfold closed_by.
      apply Ascii.eqb_eq in Es. subst ch. cbn [app].
      rewrite <- !app_assoc. cbn [app]. do 2 f_equal.
      unfold missing_end. rewrite last_app_cons.
      destruct rest as [|c rest']; [|reflexivity].
      cbn [last]. rewrite (proj2 (Ascii.eqb_eq _ _) eq_refl). reflexivity.
    + destruct (IH (cur ++ [ch])) as [IH1 IH2].
      { rewrite forallb_app, Hcur. simpl. rewrite Es. reflexivity. }
      rewrite <- !app_assoc in IH1. cbn [app] in IH1.
      split; [rewrite <- !app_assoc; cbn [app]; exact IH1|exact IH2].
Qed.

(** X20.  [EPtr::parse] without a limit cuts the text at every
    separator: no piece holds a separator, and the pieces, each followed
    by the separator, make up the text again, with a separator more at
    the end when the text does not end in one.  Each piece is a pointer
    into the text with a length, so an empty last piece is not made. *)
Theorem EPtr_parse_pieces_make_up_the_text
  (t : text) (length : Z) (separator : ascii) :
  length <= 0 ->
  let pieces := map piece_text (EPtr_parse t length separator) in
  concat (map (closed_by separator) pieces)
  = c_str t ++ missing_end separator (c_str t)
  /\ Forall (fun piece =>
               forallb (fun ch => negb (Ascii.eqb ch separator)) piece = true)
       pieces.
Proof.
  intros Hn pieces. unfold pieces, EPtr_parse.
  rewrite EPtr_parse_loop_fields by (simpl; try lia; reflexivity).
  cbn [Z.sub Z.to_nat take]. apply (fields_join separator [] (c_str t)).
  reflexivity.
Qed.

Lemma EPtr_parse_loop_limit t rest index start count length separator :
  0 <= count < length ->
  EPtr_parse_loop t rest index start count length separator
  = take (Z.to_nat (length - count))
      (EPtr_parse_loop t rest index start count 0 separator).
Proof.
  revert index start count.
  induction rest as [|ch rest IH]; intros index start count Hc.
  - cbn [EPtr_parse_loop].
    replace (Z.to_nat (length - count))
      with (S (Z.to_nat (length - count - 1))) by lia.
    destruct (start <? index); [|reflexivity].
    cbn [take]. rewrite take_nil. reflexivity.
  - cbn [EPtr_parse_loop]. destruct (Ascii.eqb ch separator).
    + replace (Z.to_nat (length - count))
        with (S (Z.to_nat (length - count - 1))) by lia.
      cbn [take]. f_equal.
      destruct (Z.eqb_spec (count + 1) 0); [lia|].
      destruct (Z.eqb_spec (count + 1) length) as [E|E].
      * replace (length - count - 1) with 0 by lia. reflexivity.
      * rewrite IH by lia. f_equal. lia.
    + apply IH. exact Hc.
Qed.

Lemma EPtr_parse_loop_unlimited t rest index start count length separator :
  length <= 0 -> 0 <= count ->
  EPtr_parse_loop t rest index start count length separator
  = EPtr_parse_loop t rest index start count 0 separator.
Proof.
  intros Hn. revert index start count.
  induction rest as [|ch rest IH]; intros index start count Hc.
  - reflexivity.
  - cbn [EPtr_parse_loop]. destruct (Ascii.eqb ch separator).
    + destruct (Z.eqb_spec (count + 1) 0); [lia|].
      destruct (Z.eqb_spec (count + 1) length); [lia|].
      rewrite IH by lia. reflexivity.
    + apply IH. exact Hc.
Qed.

(** X21.  The limit of [EPtr::parse] cuts the list of pieces and nothing
    else: with a limit [length] above zero the pieces are the first
    [length] pieces of the parse without a limit, and a limit of zero or
    below is no limit. *)
Theorem EPtr_parse_limit_keeps_the_first_pieces
  (t : text) (length : Z) (separator : ascii) :
  EPtr_parse t length separator
  = if 0 <? length
    then take (Z.to_nat length) (EPtr_parse t 0 separator)
    else EPtr_parse t 0 separator.
Proof.
  unfold EPtr_parse. destruct (Z.ltb_spec 0 length).
  - rewrite EPtr_parse_loop_limit by lia. rewrite Z.sub_0_r. reflexivity.
  - apply EPtr_parse_loop_unlimited; lia.
Qed.

Lemma hash_window t start index :
  (start <= index)%nat -> (index <= List.length t)%nat ->
  hash (drop start (t ++ [NUL])) (Z.of_nat index - Z.of_nat start) 0
  = hash (drop start t) (Z.of_nat index - Z.of_nat start) 0.
Proof.
  intros H1 H2. unfold hash.
  destruct (Z.eqb_spec (Z.of_nat index - Z.of_nat start) (-1)); [lia|].
  rewrite drop_app_le by lia. rewrite take_app_le; [reflexivity|].
  rewrite length_drop. lia.
Qed.

(** The loop of [parseToHash] without a bound on the bytes hashes the
    pieces that the loop of [EPtr::parse] makes. *)
Lemma parseToHash_loop_pieces t rest index start count hashCount separator :
  0 <= start <= index ->
  (Z.to_nat index <= List.length t)%nat ->
  rest = drop (Z.to_nat index) t ->
  parseToHash_loop (t ++ [NUL]) rest index start count hashCount
    separator (-1)
  = map (fun e => hash (EPtr.value (EPtr.payload e)) (EPtr.length e) 0)
      (EPtr_parse_loop t rest index start count hashCount separator).
Proof.
  revert index start count.
  induction rest as [|ch rest IH]; intros index start count Hi Hle Hrest.
  - cbn [parseToHash_loop EPtr_parse_loop Z.eqb Pos.eqb orb].
    unfold hash_len.
    destruct (start <? index); [|reflexivity].
    cbn [map EPtr_of_mem EPtr.value EPtr.payload EPtr.length]. f_equal.
    rewrite Z.add_0_r.
    pose proof (hash_window t (Z.to_nat start) (Z.to_nat index)) as Hw.
    rewrite !Z2Nat.id in Hw by lia. apply Hw; lia.
  - symmetry in Hrest.
    destruct (drop_cons_next t _ _ _ Hrest) as [Hnext Hlt].
    cbn [parseToHash_loop EPtr_parse_loop Z.eqb Pos.eqb orb].
    unfold hash_len.
    rewrite orb_false_r.
    assert (Hw : hash (drop (Z.to_nat start) (t ++ [NUL])) (index - start + 0) 0
                 = hash (drop (Z.to_nat start) t) (index - start) 0).
    { rewrite Z.add_0_r.
      pose proof (hash_window t (Z.to_nat start) (Z.to_nat index)) as Hw.
      rewrite !Z2Nat.id in Hw by lia. apply Hw; lia. }
    destruct (Ascii.eqb ch separator).
    + cbn [map EPtr_of_mem EPtr.value EPtr.payload EPtr.length].
      rewrite Hw. f_equal.
      destruct (count + 1 =? hashCount); [reflexivity|].
      apply IH; [lia|lia|].
      rewrite Z2Nat.inj_add by lia. rewrite Nat.add_1_r.
      symmetry. exact Hnext.
    + apply IH; [lia|lia|].
      rewrite Z2Nat.inj_add by lia. rewrite Nat.add_1_r.
      symmetry. exact Hnext.
Qed.

(** X22.  [parseToHash] without a bound on the bytes stores the hashes of
    the pieces of [EPtr::parse], each hashed from seed 0 over its
    length, under the same limit. *)
Theorem parseToHash_hashes_the_pieces
  (t : text) (hashCount : Z) (separator : ascii) :
  parseToHash t hashCount separator (-1)
  = map (fun e => hash (EPtr.value (EPtr.payload e)) (EPtr.length e) 0)
      (EPtr_parse t hashCount separator).
Proof.
  unfold parseToHash, EPtr_parse.
  apply parseToHash_loop_pieces; [lia|simpl; lia|reflexivity].
Qed.

End Splitting.

(** ** The colour *)

Lemma hex_char_nibble (k : nat) :
  (k < 16)%nat ->
  hex_digit (ARGB.hex_char (Z.of_nat k)) = Some (Z.of_nat k)
  /\ Ascii.eqb (ARGB.hex_char (Z.of_nat k)) NUL = false.
Proof.
  intros Hk.
  do 16 (destruct k as [|k]; [split; reflexivity|]). lia.
Qed.

Lemma hex_char_digit n : 0 <= n < 16 -> hex_digit (ARGB.hex_char n) = Some n.
Proof.
  intros H. rewrite <- (Z2Nat.id n) by lia.
  apply hex_char_nibble. lia.
Qed.

Lemma hex_char_not_nul n :
  0 <= n < 16 -> Ascii.eqb (ARGB.hex_char n) NUL = false.
Proof.
  intros H. rewrite <- (Z2Nat.id n) by lia.
  apply hex_char_nibble. lia.
Qed.

Lemma byte_nibbles b :
  0 <= b < 256 ->
  0 <= Z.shiftr b 4 < 16 /\ 0 <= Z.land b 15 < 16
  /\ b = Z.shiftr b 4 * 16 + Z.land b 15.
Proof.
  intros H. rewrite Z.shiftr_div_pow2 by lia.
  change 15 with (Z.ones 4). rewrite Z.land_ones by lia.
  change (2 ^ 4) with 16.
  pose proof (Z.div_mod b 16). pose proof (Z.mod_pos_bound b 16).
  assert (0 <= b / 16 < 16)
    by (split; [apply Z.div_pos; lia|apply Z.div_lt_upper_bound; lia]).
  lia.
Qed.

(** X23.  [ARGB::hex] writes eight upper-case hexadecimal digits and the
    terminator, and the digits read as a number are the colour: alpha in
    the highest byte, then red, green and blue. *)
Theorem ARGB_hex_reads_back_as_the_color (c : ARGB.t) :
  ARGB.bytes c ->
  length (ARGB.hex c) = 9%nat
  /\ length (c_str (ARGB.hex c)) = 8%nat
  /\ hex_number (c_str (ARGB.hex c)) = Some (ARGB.color c).
Proof.
  intros (Ha & Hr & Hg & Hb).
  destruct (byte_nibbles _ Ha) as (Ha1 & Ha2 & Ea).
  destruct (byte_nibbles _ Hr) as (Hr1 & Hr2 & Er).
  destruct (byte_nibbles _ Hg) as (Hg1 & Hg2 & Eg).
  destruct (byte_nibbles _ Hb) as (Hb1 & Hb2 & Eb).
  unfold ARGB.hex. cbn [map app c_str].
  rewrite !hex_char_not_nul by assumption.
  change (Ascii.eqb NUL NUL) with true. cbv iota.
  split; [reflexivity|]. split; [reflexivity|].
  unfold hex_number. cbn [hex_number_from].
  rewrite !hex_char_digit by assumption. cbn [hex_number_from].
  f_equal. unfold ARGB.color. lia.
Qed.

(** ** More on the message encoder *)

(** The engine after a run of writes, field by field. *)
Ltac norm_engine :=
  cbv beta iota delta
    [set_tx set_isArrayStarted set_nextId set_lastOpenRequest tx millis
     lastOpenRequest isArrayStarted recentEventErrorId sensors nextId
     callbacks log snd EPtr.key EPtr.asText EPtr.keyIsMem EPtr.ptrType
     EPtr.intValue].

Section EncoderMore.
Context {B : Board} {J : JsonLib} {Hdr : Header}.

Lemma wrote_refl (c : Engine) : wrote [] c c.
Proof. unfold wrote. rewrite app_nil_r. destruct c; reflexivity. Qed.

Lemma wrote_trans o1 o2 (c c1 c2 : Engine) :
  wrote o1 c c1 -> wrote o2 c1 c2 -> wrote (o1 ++ o2) c c2.
Proof.
  unfold wrote. intros H1 H2. rewrite H2. rewrite H1 at 1 2 3 4 5 6 7 8.
  cbn [tx millis lastOpenRequest recentEventErrorId sensors nextId callbacks
       log]. rewrite app_assoc. reflexivity.
Qed.

Lemma wrote_set_tx out (c : Engine) : wrote out c (set_tx (tx c ++ out) c).
Proof. reflexivity. Qed.

Lemma wrote_flag out b (c c' : Engine) :
  wrote out c c' -> wrote out c (set_isArrayStarted b c').
Proof. unfold wrote. intros H. rewrite H. reflexivity. Qed.

Lemma sendFlashString_wrote l start encode c :
  exists out, wrote out c (snd (sendFlashStringOnSerial l start encode c)).
Proof.
  unfold sendFlashStringOnSerial.
  destruct (sendFlash_from _ _ _ _ _) as [r out].
  exists out. apply wrote_set_tx.
Qed.

Lemma serial_write_wrote {A} l (a : A) c :
  wrote l c (snd (bind (serial_write l) (fun _ => ret a) c)).
Proof. apply wrote_set_tx. Qed.

(** [writeValue] changes nothing but the port and the array flag. *)
Lemma writeValue_wrote :
  forall (eptr : EPtr.t) (start : Z) (c : Engine),
    exists out, wrote out c (snd (writeValue eptr start c)).
Proof.
  fix IH 1. intros [ty k p len km at_ enc es] start c.
  destruct ty; cbn [writeValue];
    try (eexists; apply wrote_refl);
    try (eexists; apply serial_write_wrote).
  - apply sendFlashString_wrote.
  - destruct p; try (eexists; apply wrote_refl).
    eexists; apply serial_write_wrote.
  - rewrite sendFlash_eq. eexists. apply wrote_flag, wrote_set_tx.
  - destruct es as [|template values]; [eexists; apply wrote_refl|].
    change (exists out,
              wrote out c (snd (format_loop template values 0 c))).
    generalize 0 as fpi. revert c. revert values.
    fix IHv 1. intros [|next values] c fpi; cbn [format_loop].
    + destruct (IH template fpi c) as [o Ho].
      destruct (writeValue template fpi c) as [r c1]. cbn [snd] in Ho.
      destruct (r =? 0); exists o; exact Ho.
    + destruct (IH template fpi c) as [o Ho].
      destruct (writeValue template fpi c) as [r c1]. cbn [snd] in Ho.
      destruct (r =? 0); [exists o; exact Ho|].
      destruct (IH next (-1) c1) as [o1 Ho1].
      destruct (writeValue next (-1) c1) as [r1 c2]. cbn [snd] in Ho1.
      pose proof (wrote_trans _ _ _ _ _ Ho Ho1) as H2.
      destruct (negb (r1 =? 0)); [eexists; exact H2|].
      destruct (0 <? r); [|eexists; exact H2].
      fold (format_loop template).
      destruct (IHv values c2 r) as [o2 Ho2].
      eexists. apply (wrote_trans _ _ _ _ _ H2 Ho2).
Qed.

Lemma sendFlash_wrote l c : wrote (c_str l) c (snd (sendFlash l c)).
Proof. rewrite sendFlash_eq. apply wrote_set_tx. Qed.

Lemma c_str_constants :
  c_str MESSAGE_QUOTE = MESSAGE_QUOTE
  /\ c_str MESSAGE_SEPARATOR = MESSAGE_SEPARATOR
  /\ c_str MESSAGE_PAIR_SEPARATOR = MESSAGE_PAIR_SEPARATOR
  /\ c_str ARRAY_START = ARRAY_START /\ c_str ARRAY_END = ARRAY_END.
Proof. repeat split; reflexivity. Qed.

(** A field on the port: the separator, or the quote alone after the
    opening of an array; the key; the value, between quotes when it is
    text. *)
Lemma write_field (eptr : EPtr.t) (c : Engine) :
  EPtr.ptrType eptr <> Ptr.None -> EPtr.ptrType eptr <> Ptr.ArrayEnd ->
  let q := if EPtr.asText eptr then MESSAGE_QUOTE else [] in
  let head :=
    (if isArrayStarted c then MESSAGE_QUOTE else MESSAGE_SEPARATOR)
    ++ c_str (EPtr.key eptr) ++ MESSAGE_PAIR_SEPARATOR ++ q in
  let cv :=
    snd (writeValue eptr DEFAULT_LENGTH
           (set_isArrayStarted false (set_tx (tx c ++ head) c))) in
  write eptr c = (0, set_tx (tx cv ++ q) cv).
Proof.
  intros Hn He. cbv zeta.
  destruct c_str_constants as (Eq & Es & Ep & _).
  assert (Hw : write eptr c
    = or_fail
        (if isArrayStarted c
         then bind (sendFlash MESSAGE_QUOTE)
                (fun r => if r =? 0
                          then fun c1 => (0, set_isArrayStarted false c1)
                          else ret r)
         else sendFlash MESSAGE_SEPARATOR)
        (or_fail
           (if EPtr.keyIsMem eptr
            then bind (serial_write (c_str (EPtr.key eptr)))
                   (fun _ => ret 0)
            else sendFlash (EPtr.key eptr))
           (or_fail (sendFlash MESSAGE_PAIR_SEPARATOR)
              (or_fail
                 (if EPtr.asText eptr then sendFlash MESSAGE_QUOTE
                  else ret 0)
                 (bind (writeValue eptr DEFAULT_LENGTH)
                    (fun _ =>
                       or_fail
                         (if EPtr.asText eptr then sendFlash MESSAGE_QUOTE
                          else ret 0)
                         (ret SERIAL_SUCCESS)))))) c).
  { unfold write. destruct (EPtr.ptrType eptr); try reflexivity; congruence. }
  rewrite Hw. clear Hw.
  destruct c as [tx0 ms lor ias ree ss nid cbs lg].
  cbn [isArrayStarted tx].
  destruct ias, (EPtr.keyIsMem eptr), (EPtr.asText eptr);
    unfold or_fail, bind, ret, serial_write;
    repeat (rewrite sendFlash_eq; cbn [Z.eqb]);
    rewrite ?Eq, ?Es, ?Ep;
    cbn [set_tx set_isArrayStarted tx millis lastOpenRequest isArrayStarted
         recentEventErrorId sensors nextId callbacks log Z.eqb];
    rewrite <- ?app_assoc, ?app_nil_r;
    destruct (writeValue eptr DEFAULT_LENGTH _) as [rv cv]; cbn [snd];
    repeat (rewrite sendFlash_eq; cbn [Z.eqb]);
    rewrite ?Eq, ?app_nil_r; try reflexivity;
    destruct cv; reflexivity.
Qed.

(** [write] always succeeds, and changes nothing but the port and the
    array flag. *)
Lemma write_wrote (eptr : EPtr.t) (c : Engine) :
  exists out, write eptr c = (0, snd (write eptr c))
              /\ wrote out c (snd (write eptr c)).
Proof.
  destruct (EPtr.ptrType eptr) eqn:Ety;
    try (rewrite write_field by congruence; cbn [snd];
         match goal with
         | |- context [writeValue eptr DEFAULT_LENGTH ?c0] =>
             destruct (writeValue_wrote eptr DEFAULT_LENGTH c0) as [ov Hv]
         end;
         eexists; split; [reflexivity|];
         eapply wrote_trans; [|apply wrote_set_tx];
         eapply wrote_trans; [|exact Hv];
         apply wrote_flag, wrote_set_tx).
  - unfold write. rewrite Ety. exists []. split; [reflexivity|apply wrote_refl].
  - unfold write. rewrite Ety. unfold or_fail, bind, ret.
    rewrite sendFlash_eq. cbn [Z.eqb snd].
    eexists. split; [reflexivity|apply wrote_set_tx].
Qed.

Lemma write_each_wrote (values : list EPtr.t) (c : Engine) :
  exists out, wrote out c (snd (write_each values c)).
Proof.
  revert c. induction values as [|v values IH]; intros c.
  - exists []. apply wrote_refl.
  - cbn [write_each]. unfold bind.
    destruct (write_wrote v c) as (o & _ & Ho).
    destruct (write v c) as [r c1]. cbn [snd] in Ho.
    destruct (IH c1) as [o1 Ho1]. eexists.
    apply (wrote_trans _ _ _ _ _ Ho Ho1).
Qed.

(** X24.  [writeAll] never answers [SERIAL_ERROR], whatever it is given
    to write: the answer is the id of the message as a [byte]; the
    message on the port begins with the service name and the id and ends
    with the closing brace; the next id is taken, the time of the flush
    recorded, and neither the clock nor the registry nor the callbacks
    nor the record of calls changes. *)
Theorem writeAll_answers_its_id
  (serviceName : text) (values extraAttributes : list EPtr.t)
  (sensorType : ascii) (c : Engine) :
  exists body flag,
    writeAll serviceName values extraAttributes sensorType c
    = (to_byte (nextId c),
       mkEngine
         (tx c ++ MESSAGE_SERVICE_START ++ c_str serviceName
          ++ MESSAGE_SERVICE_TO_ID ++ print_int (nextId c)
          ++ body ++ MESSAGE_END2)
         (millis c) (millis c) flag (recentEventErrorId c) (sensors c)
         (following_id (nextId c)) (callbacks c) (log c))
    /\ to_byte (nextId c) <> SERIAL_ERROR.
Proof.
  unfold writeAll, bind, ret. rewrite beginWrite_eq.
  set (c0 := set_tx _ _).
  destruct (write_each_wrote values c0) as [o1 H1].
  destruct (write_each values c0) as [[] c1]. cbn [snd] in H1.
  assert (Hend : forall o2 c2,
             wrote o2 c1 c2 ->
             exists body flag,
               (let (_, c5) := write_each extraAttributes c2 in
                let (a, c6) := endWrite c5 in
                (if negb (a =? 0)
                 then fun c7 : Engine => (SERIAL_ERROR, c7)
                 else fun c7 : Engine => (to_byte (nextId c), c7)) c6)
               = (to_byte (nextId c),
                  mkEngine
                    (tx c ++ MESSAGE_SERVICE_START ++ c_str serviceName
                     ++ MESSAGE_SERVICE_TO_ID ++ print_int (nextId c)
                     ++ body ++ MESSAGE_END2)
                    (millis c) (millis c) flag (recentEventErrorId c)
                    (sensors c) (following_id (nextId c)) (callbacks c)
                    (log c))).
  { intros o2 c2 H2.
    destruct (write_each_wrote extraAttributes c2) as [o3 H3].
    destruct (write_each extraAttributes c2) as [[] c3]. cbn [snd] in H3.
    rewrite endWrite_eq. cbn [Z.eqb negb].
    pose proof (wrote_trans _ _ _ _ _ (wrote_trans _ _ _ _ _ H1 H2) H3) as H.
    exists ((o1 ++ o2) ++ o3), (isArrayStarted c3).
    f_equal. rewrite H. unfold c0.
    cbn [tx millis lastOpenRequest isArrayStarted recentEventErrorId sensors
         nextId callbacks log set_tx set_nextId set_lastOpenRequest].
    rewrite <- !app_assoc. reflexivity. }
  assert (Hid : to_byte (nextId c) <> SERIAL_ERROR).
  { unfold to_byte, SERIAL_ERROR.
    pose proof (Z.mod_pos_bound (nextId c) 256). lia. }
  destruct (Ascii.eqb sensorType NUL).
  - destruct (Hend [] c1 (wrote_refl c1)) as (body & flag & E).
    exists body, flag. split; [exact E|exact Hid].
  - destruct (write_wrote (EPtr.of_char TYPE sensorType) c1)
      as (o & Eo & Ho). rewrite Eo.
    destruct (Hend o _ Ho) as (body & flag & E).
    exists body, flag. split; [exact E|exact Hid].
Qed.

Lemma sendStart_eq c :
  sendStart c
  = (tt,
     mkEngine (tx c ++ start_message (nextId c) (isArrayStarted c))
       (millis c) (millis c) false (recentEventErrorId c) (sensors c)
       (following_id (nextId c)) (callbacks c) (log c)).
Proof.
  unfold sendStart, writeAll, bind, ret. rewrite beginWrite_eq.
  cbv beta iota. unfold write_each, bind, ret.
  unfold EPtr.of_prog, EPtr.of_typed, EPtr.of_int.
  destruct c as [tx0 ms lor ias ree ss nid cbs lg]. norm_engine.
  rewrite write_field by discriminate. cbv zeta. norm_engine.
  rewrite writeValue_prog.
  change (sendFlashStringOnSerial START DEFAULT_LENGTH true)
    with (fun c : Engine => (0, set_tx (tx c ++ START) c)).
  cbv beta. norm_engine.
  rewrite write_field by discriminate. cbv zeta. norm_engine.
  rewrite writeValue_mem. norm_engine.
  rewrite write_field by discriminate. cbv zeta. norm_engine.
  cbn [writeValue]. unfold bind, serial_write, ret. norm_engine.
  change (Ascii.eqb NUL NUL) with true. cbv beta iota.
  rewrite endWrite_eq. cbn [Z.eqb negb]. norm_engine.
  unfold start_message.
  destruct ias; f_equal; f_equal; rewrite <- !app_assoc; reflexivity.
Qed.

(** X25.  [begin] waits 500 ms, records the time, writes one message,
    the START message, which announces the size of the read buffer
    under [LEN], and calls the connect callback and then the refresh
    callback with the recent event, each if it is registered. *)
Theorem begin_announces_the_buffer_size (bitRate : Z) (s : Shield) :
  let c := engine s in
  begin bitRate s
  = set_engine
      (mkEngine (tx c ++ start_message (nextId c) (isArrayStarted c))
         (millis c + 500) (millis c + 500) false (recentEventErrorId c)
         (sensors c) (following_id (nextId c)) (callbacks c)
         (log c ++ called c (recentEvent s) onConnect
          ++ called c (recentEvent s) onRefresh)) s
  /\ start_message (nextId c) (isArrayStarted c)
     = lit "{'Service':'SYSTEM','Id':" ++ print_int (nextId c)
       ++ (if isArrayStarted c then lit "'" else lit ",'")
       ++ c_str ACTION ++ lit "':'START','TYPE':'!','LEN':"
       ++ print_int maxReadBuffer ++ lit "}".
Proof.
  cbv zeta. split; [|reflexivity].
  unfold begin, flush. rewrite sendStart_eq.
  rewrite !invoke_called.
  destruct s as [f r ev c]. destruct c as [tx0 ms lor ias ree ss nid cbs lg].
  cbn [engine recentEvent set_engine set_millis set_lastOpenRequest set_log
       tx millis lastOpenRequest isArrayStarted recentEventErrorId sensors
       nextId callbacks log called].
  rewrite <- app_assoc. reflexivity.
Qed.

End EncoderMore.

(** ** Composite values, arrays and escaping *)

Section Rendering.
Context {B : Board} {J : JsonLib} {Hdr : Header}.

Lemma quoted_app a b : quoted (a ++ b) = quoted a ++ quoted b.
Proof. unfold quoted. apply flat_map_app. Qed.

Lemma sendFlash_from_step ch (out : text) :
  out ++ (if Ascii.eqb ch "'" then ["\"%char] else []) ++ [ch]
  = out ++ quoted [ch].
Proof.
  unfold quoted. cbn [flat_map]. destruct (Ascii.eqb ch "'");
    rewrite ?app_nil_r; reflexivity.
Qed.

(** The template is copied up to its next sentinel, and the index after
    the sentinel is returned. *)
Lemma sendFlash_from_segment seg rest i out :
  tilde_free seg = true ->
  sendFlash_from true true i (seg ++ "~"%char :: rest) out
  = (i + Z.of_nat (length seg) + 1, out ++ quoted seg).
Proof.
  revert i out. induction seg as [|ch seg IH]; intros i out Hfree.
  - cbn. rewrite app_nil_r. f_equal. lia.
  - cbn [tilde_free forallb] in Hfree. apply andb_prop in Hfree as [H1 H2].
    apply negb_true_iff in H1.
    cbn [app sendFlash_from]. rewrite H1. cbn [andb].
    rewrite (sendFlash_from_step ch out), IH by exact H2.
    change (ch :: seg) with ([ch] ++ seg).
    rewrite quoted_app, app_assoc. f_equal.
    rewrite length_app. cbn [length]. lia.
Qed.

Lemma sendFlash_from_last seg i out :
  tilde_free seg = true ->
  sendFlash_from true true i seg out = (0, out ++ quoted seg).
Proof.
  revert i out. induction seg as [|ch seg IH]; intros i out Hfree.
  - cbn. rewrite app_nil_r. reflexivity.
  - cbn [tilde_free forallb] in Hfree. apply andb_prop in Hfree as [H1 H2].
    apply negb_true_iff in H1.
    cbn [sendFlash_from]. rewrite H1. cbn [andb].
    rewrite (sendFlash_from_step ch out), IH by exact H2.
    change (ch :: seg) with ([ch] ++ seg).
    rewrite quoted_app, app_assoc. reflexivity.
Qed.

Lemma format_loop_eq template values fpi c :
  format_loop template values fpi c
  = let (fpi', c1) := writeValue template fpi c in
    if fpi' =? 0 then (0, c1)
    else
      match values with
      | [] => (0, c1)
      | next :: values' =>
          let (result, c2) := writeValue next (-1) c1 in
          if negb (result =? 0) then (result, c2)
          else if 0 <? fpi' then format_loop template values' fpi' c2
               else (result, c2)
      end.
Proof. destruct values; reflexivity. Qed.

Lemma no_nul_app a b : no_nul (a ++ b) = no_nul a && no_nul b.
Proof. apply forallb_app. Qed.

Lemma segments_no_nul pairs last :
  forallb (fun p => segment (fst p)) pairs = true ->
  segment last = true ->
  no_nul (template_of pairs last) = true.
Proof.
  unfold template_of, segment. intros Hp Hl.
  apply andb_prop in Hl as [_ Hl].
  induction pairs as [|[seg n] pairs IH]; [exact Hl|].
  cbn [forallb fst] in Hp. apply andb_prop in Hp as [Hs Hp].
  apply andb_prop in Hs as [_ Hs].
  cbn [flat_map fst]. rewrite <- !app_assoc, !no_nul_app, Hs.
  cbn [app]. rewrite <- no_nul_app. cbn [andb]. unfold no_nul at 1.
  cbn [forallb]. change (negb (Ascii.eqb "~" NUL)) with true.
  cbn [andb]. apply IH, Hp.
Qed.

Lemma format_loop_fills k kv pairs last extra pre c :
  no_nul pre = true ->
  forallb (fun p => segment (fst p)) pairs = true ->
  segment last = true ->
  format_loop (EPtr.of_prog k (pre ++ template_of pairs last))
    (map (fun p => EPtr.of_int kv (snd p)) pairs ++ extra)
    (Z.of_nat (length pre)) c
  = (0, set_tx (tx c ++ filled pairs last) c).
Proof.
  revert pre c. induction pairs as [|[seg n] pairs IH];
    intros pre c Hpre Hp Hl.
  - rewrite format_loop_eq. unfold EPtr.of_prog at 1.
    rewrite writeValue_prog. unfold sendFlashStringOnSerial.
    destruct (Z.ltb_spec (Z.of_nat (length pre)) 0); [lia|].
    replace (DEFAULT_LENGTH <? Z.of_nat (length pre)) with true
      by (symmetry; apply Z.ltb_lt; unfold DEFAULT_LENGTH; lia).
    rewrite c_str_no_nul
      by (rewrite no_nul_app, Hpre; apply (segments_no_nul [] last);
          [reflexivity|assumption]).
    rewrite Nat2Z.id, drop_app_length.
    unfold template_of, filled. cbn [flat_map app].
    apply andb_prop in Hl as [Hl _].
    rewrite sendFlash_from_last by exact Hl. reflexivity.
  - assert (Hnn : no_nul (pre ++ template_of ((seg, n) :: pairs) last) = true)
      by (rewrite no_nul_app, Hpre; apply segments_no_nul; assumption).
    assert (ET : template_of ((seg, n) :: pairs) last
                 = seg ++ "~"%char :: template_of pairs last)
      by (unfold template_of; cbn [flat_map fst];
          rewrite <- !app_assoc; reflexivity).
    rewrite ET in *.
    rewrite format_loop_eq. unfold EPtr.of_prog at 1.
    rewrite writeValue_prog. unfold sendFlashStringOnSerial.
    destruct (Z.ltb_spec (Z.of_nat (length pre)) 0); [lia|].
    replace (DEFAULT_LENGTH <? Z.of_nat (length pre)) with true
      by (symmetry; apply Z.ltb_lt; unfold DEFAULT_LENGTH; lia).
    rewrite c_str_no_nul by exact Hnn.
    rewrite Nat2Z.id, drop_app_length.
    cbn [forallb fst] in Hp. apply andb_prop in Hp as [Hs Hp].
    pose proof Hs as Hs'. apply andb_prop in Hs' as [Hs1 Hs2].
    rewrite sendFlash_from_segment by exact Hs1. cbn [app].
    destruct (Z.eqb_spec (Z.of_nat (length pre) + Z.of_nat (length seg) + 1) 0);
      [lia|].
    cbn [map app snd]. unfold EPtr.of_int at 1. cbn [writeValue].
    unfold bind, serial_write, ret. cbn [EPtr.intValue Z.eqb negb].
    destruct (Z.ltb_spec 0 (Z.of_nat (length pre) + Z.of_nat (length seg) + 1));
      [|lia].
    specialize (IH (pre ++ seg ++ ["~"%char])).
    rewrite <- !app_assoc in IH. cbn [app] in IH.
    replace (Z.of_nat (length pre) + Z.of_nat (length seg) + 1)
      with (Z.of_nat (length (pre ++ seg ++ ["~"%char])))
      by (rewrite !length_app; cbn [length]; lia).
    rewrite IH; [| |exact Hp|exact Hl].
    + unfold filled. cbn [flat_map fst snd set_tx tx].
      f_equal. destruct c as [tx0 ms lor ias ree ss nid cbs lg].
      cbn [set_tx tx millis lastOpenRequest
        isArrayStarted recentEventErrorId sensors nextId callbacks log].
      rewrite <- !app_assoc. reflexivity.
    + rewrite !no_nul_app, Hpre, Hs2. reflexivity.
Qed.

(** X26.  A [Format] value is its template with each sentinel replaced
    by the next value: the segments of the template go out in order,
    with a backslash before each quote, each followed by the integer
    that stands for the sentinel after it; values beyond the sentinels
    of the template are not written. *)
Theorem format_fills_the_template
  (key k kv : text) (pairs : list (text * Z)) (last : text)
  (extra : list EPtr.t) (len start : Z) (c : Engine) :
  forallb (fun p => segment (fst p)) pairs = true ->
  segment last = true ->
  writeValue
    (EPtr_of_list Ptr.Format key
       (EPtr.of_prog k (template_of pairs last)
        :: map (fun p => EPtr.of_int kv (snd p)) pairs ++ extra) len)
    start c
  = (0, set_tx (tx c ++ filled pairs last) c).
Proof.
  intros Hp Hl.
  change (format_loop (EPtr.of_prog k ([] ++ template_of pairs last))
            (map (fun p => EPtr.of_int kv (snd p)) pairs ++ extra)
            (Z.of_nat (length (@nil ascii))) c
          = (0, set_tx (tx c ++ filled pairs last) c)).
  apply format_loop_fills; [reflexivity|exact Hp|exact Hl].
Qed.

End Rendering.

Section Arrays.
Context {B : Board} {J : JsonLib} {Hdr : Header}.

Lemma write_int_field k v (c : Engine) :
  write (EPtr.of_int k v) c
  = (0, set_isArrayStarted false
          (set_tx (tx c
                   ++ (if isArrayStarted c then MESSAGE_QUOTE
                       else MESSAGE_SEPARATOR)
                   ++ c_str k ++ MESSAGE_PAIR_SEPARATOR ++ print_int v) c)).
Proof.
  rewrite write_field by discriminate. cbv zeta.
  unfold EPtr.of_int. cbn [writeValue]. unfold bind, serial_write, ret.
  destruct c as [tx0 ms lor ias ree ss nid cbs lg]. norm_engine.
  rewrite !app_nil_r, <- !app_assoc. reflexivity.
Qed.

Lemma write_each_app a b (c : Engine) :
  write_each (a ++ b) c = write_each b (snd (write_each a c)).
Proof.
  revert c. induction a as [|v a IH]; intros c; [reflexivity|].
  cbn [app write_each]. unfold bind.
  destruct (write v c) as [r c1]. rewrite IH.
  destruct (write_each a c1) as [[] c2]. reflexivity.
Qed.

Lemma int_members_cons k v kvs :
  int_members ((k, v) :: kvs)
  = MESSAGE_QUOTE ++ c_str k ++ MESSAGE_PAIR_SEPARATOR ++ print_int v
    ++ match kvs with
       | [] => []
       | _ => MESSAGE_SEPARATOR ++ skipn 1 (int_members kvs)
       end.
Proof.
  destruct kvs as [|[k' v'] kvs]; reflexivity.
Qed.

(** The members after the first one of an array element. *)
Lemma write_each_more_members kvs (c : Engine) :
  isArrayStarted c = false ->
  write_each (map (fun kv => EPtr.of_int (fst kv) (snd kv)) kvs) c
  = (tt, set_tx (tx c ++ match kvs with
                         | [] => []
                         | _ => MESSAGE_SEPARATOR ++ skipn 1 (int_members kvs)
                         end) c).
Proof.
  revert c. induction kvs as [|[k v] kvs IH]; intros c Hc.
  - cbn [map write_each]. unfold ret. rewrite app_nil_r.
    destruct c; reflexivity.
  - cbn [map write_each fst snd]. unfold bind.
    rewrite write_int_field, Hc, IH by reflexivity.
    f_equal. rewrite int_members_cons.
    destruct c as [tx0 ms lor ias ree ss nid cbs lg]. norm_engine.
    cbn in Hc. subst ias. f_equal.
    rewrite <- !app_assoc. reflexivity.
Qed.

Lemma write_each_nil (c : Engine) : write_each [] c = (tt, c).
Proof. reflexivity. Qed.

Lemma write_each_cons v l (c : Engine) :
  write_each (v :: l) c = write_each l (snd (write v c)).
Proof.
  cbn [write_each]. unfold bind. destruct (write v c). reflexivity.
Qed.

Lemma write_array_start k (c : Engine) :
  write (EPtr_of_key Ptr.ArrayStart k) c
  = (0, set_isArrayStarted true
          (set_tx (tx c
                   ++ (if isArrayStarted c then MESSAGE_QUOTE
                       else MESSAGE_SEPARATOR)
                   ++ c_str k ++ MESSAGE_PAIR_SEPARATOR ++ ARRAY_START) c)).
Proof.
  rewrite write_field by discriminate. cbv zeta.
  unfold EPtr_of_key. cbn [writeValue]. rewrite sendFlash_eq.
  destruct c as [tx0 ms lor ias ree ss nid cbs lg]. norm_engine.
  rewrite !app_nil_r, <- !app_assoc. reflexivity.
Qed.

Lemma write_array_end (c : Engine) :
  write_each [EPtr_of_type Ptr.ArrayEnd] c
  = (tt, set_tx (tx c ++ ARRAY_END) c).
Proof.
  cbn [write_each]. unfold bind, ret, write.
  cbn [EPtr_of_type EPtr.ptrType]. unfold or_fail, bind, ret.
  rewrite sendFlash_eq. reflexivity.
Qed.

(** X27.  An array element on the port: the key, the opening of the
    array, the integer members separated by commas, the first one
    without a comma, and the closing.  The flag that makes the next
    field begin without a comma is left set when the element has no
    member. *)
Theorem array_element_is_bracketed
  (k : text) (kvs : list (text * Z)) (c : Engine) :
  write_each
    (EPtr_of_key Ptr.ArrayStart k
     :: map (fun kv => EPtr.of_int (fst kv) (snd kv)) kvs
     ++ [EPtr_of_type Ptr.ArrayEnd]) c
  = (tt,
     set_isArrayStarted (match kvs with [] => true | _ => false end)
       (set_tx
          (tx c
           ++ (if isArrayStarted c then lit "'" else lit ",'")
           ++ c_str k ++ lit "':[{" ++ int_members kvs ++ lit "}]") c)).
Proof.
  rewrite write_each_cons, write_array_start, write_each_app.
  destruct c as [tx0 ms lor ias ree ss nid cbs lg]. norm_engine.
  destruct kvs as [|[k1 v1] kvs].
  - cbn [map]. rewrite write_each_nil. norm_engine.
    rewrite write_array_end. norm_engine.
    f_equal. f_equal. rewrite <- !app_assoc. reflexivity.
  - cbn [map fst snd].
    rewrite (write_each_cons (EPtr.of_int k1 v1)), write_int_field.
    norm_engine.
    rewrite write_each_more_members by reflexivity. norm_engine.
    rewrite write_array_end. norm_engine.
    f_equal. f_equal. rewrite int_members_cons.
    rewrite <- !app_assoc. reflexivity.
Qed.

(** What the [MemPtr] loop writes can be read back. *)
Lemma unescape_escape l :
  unescape (flat_map (escape false) l) = l
  /\ quotes_escaped (flat_map (escape false) l) = true.
Proof.
  induction l as [|ch l [IH1 IH2]]; [split; reflexivity|].
  cbn [flat_map]. unfold escape at 1 3. cbn [negb andb].
  destruct (Ascii.eqb ch "'") eqn:Eq; cbn [orb app].
  - apply Ascii.eqb_eq in Eq. subst ch. cbn. rewrite IH1, IH2.
    split; reflexivity.
  - destruct (Ascii.eqb ch "\") eqn:Eb; cbn [app].
    + apply Ascii.eqb_eq in Eb. subst ch. cbn. rewrite IH1, IH2.
      split; reflexivity.
    + cbn [unescape quotes_escaped]. rewrite Eb, Eq, IH1, IH2.
      split; reflexivity.
Qed.

(** X28.  A [MemPtr] value is written with a backslash before each
    quote and each backslash, so that no quote of the value ends the
    quoted text on the port and the value can be read back; a value
    marked as encoded is written as it is.  The bytes of the value are
    those up to its terminator when the length is -1, and as many as the
    length says otherwise. *)
Theorem MemPtr_value_can_be_read_back
  (k v : text) (len : Z) (keyIsMem asText encoded : bool)
  (es : list EPtr.t) (start : Z) (c : Engine) :
  let bytes := if len =? -1 then c_str v else take (Z.to_nat len) v in
  exists out,
    writeValue
      (EPtr.mk Ptr.MemPtr k (EPtr.Text v) len keyIsMem asText encoded es)
      start c
    = (0, set_tx (tx c ++ out) c)
    /\ (if encoded then out = bytes
        else unescape out = bytes /\ quotes_escaped out = true).
Proof.
  cbv zeta. rewrite writeValue_mem. eexists. split; [reflexivity|].
  unfold mem_bytes. destruct encoded.
  - unfold escape. cbn [negb andb].
    induction (if len =? -1 then c_str v else take (Z.to_nat len) v)
      as [|ch l IH]; [reflexivity|].
    cbn [flat_map app]. rewrite IH. reflexivity.
  - apply unescape_escape.
Qed.

End Arrays.

(** ** From the encoder to the assembler *)

Section LoopBack.
Context {B : Board} {J : JsonLib} {Hdr : Header}.

Lemma digits_plain d :
  brace_free (lit (NilEmpty.string_of_uint d)) = true
  /\ no_nul (lit (NilEmpty.string_of_uint d)) = true.
Proof.
  induction d as [|d [IH1 IH2]|d [IH1 IH2]|d [IH1 IH2]|d [IH1 IH2]
                  |d [IH1 IH2]|d [IH1 IH2]|d [IH1 IH2]|d [IH1 IH2]
                  |d [IH1 IH2]|d [IH1 IH2]];
    cbn [NilEmpty.string_of_uint lit list_ascii_of_string];
    try (split; reflexivity);
    unfold brace_free, no_nul in *; cbn [forallb];
    fold (lit (NilEmpty.string_of_uint d)); rewrite IH1, IH2;
    split; reflexivity.
Qed.

Lemma print_int_plain z :
  brace_free (print_int z) = true /\ no_nul (print_int z) = true.
Proof.
  unfold print_int, NilZero.string_of_int, NilZero.string_of_uint.
  destruct (Z.to_int z) as [d|d]; destruct d;
    try (split; reflexivity);
    match goal with
    | |- context [NilEmpty.string_of_uint ?d] =>
        destruct (digits_plain d) as [H1 H2]
    end;
    try (split; assumption);
    cbn [lit list_ascii_of_string]; unfold brace_free, no_nul in *;
    cbn [forallb];
    match goal with
    | |- context [list_ascii_of_string (NilEmpty.string_of_uint ?d)] =>
        fold (lit (NilEmpty.string_of_uint d))
    end;
    rewrite H1, H2; split; reflexivity.
Qed.

Lemma brace_free_app a b : brace_free (a ++ b) = brace_free a && brace_free b.
Proof. apply forallb_app. Qed.

Lemma closes_flat l :
  brace_free l = true -> closes_at_end 1 (l ++ ["}"%char]) = true.
Proof.
  induction l as [|ch l IH]; intros Hfree; [reflexivity|].
  apply brace_free_cons in Hfree as (E1 & E2 & Hfree).
  cbn [app]. rewrite closes_at_end_cons by (destruct l; discriminate).
  rewrite (brace_delta_other ch E1 E2), Z.add_0_r. apply IH, Hfree.
Qed.

(** X29.  The message that [writeAll(serviceName)] writes is a frame
    for the assembler: when the service name holds no brace and the
    message is shorter than the read buffer, a poll that finds the
    message on the port hands all of it, and nothing else, to the
    decoder, and leaves the port empty. *)
Theorem written_message_is_read_as_one_frame
  (serviceName : text) (c : Engine) (ev : ShieldEvent.t) (s : Shield) :
  brace_free (c_str serviceName) = true ->
  idle s ->
  let message :=
    MESSAGE_SERVICE_START ++ c_str serviceName ++ MESSAGE_SERVICE_TO_ID
    ++ print_int (nextId c) ++ MESSAGE_END2 in
  Z.of_nat (length message) < maxReadBuffer ->
  tx (snd (writeAll_service serviceName c)) = tx c ++ message
  /\ let '(has, ev', s') := getEvent ev (set_rx message s) in
     has = true /\ rx s' = []
     /\ (ev', engine s') = delivery message ev (engine s).
Proof.
  intros Hname (Hrx & Hi & Hd & Hl) message Hlen.
  destruct (print_int_plain (nextId c)) as [Hp1 Hp2].
  assert (Em : message
               = "{"%char
                 :: (lit "'Service':'" ++ c_str serviceName
                     ++ MESSAGE_SERVICE_TO_ID ++ print_int (nextId c))
                 ++ ["}"%char])
    by (unfold message; rewrite <- !app_assoc; reflexivity).
  assert (Hb : balanced message = true).
  { rewrite Em. unfold balanced.
    rewrite closes_at_end_cons by discriminate.
    change (0 + brace_delta "{") with 1. cbn [Z.leb andb].
    apply closes_flat. rewrite !brace_free_app, Hname, Hp1. reflexivity. }
  assert (Hn : no_nul message = true).
  { unfold message. rewrite !no_nul_app, no_nul_c_str, Hp2. reflexivity. }
  split.
  - unfold writeAll_service, bind, ret. rewrite beginWrite_eq, endWrite_eq.
    cbn [Z.eqb negb snd tx set_tx set_lastOpenRequest set_nextId].
    unfold message. rewrite <- !app_assoc. reflexivity.
  - unfold balanced, maxReadBuffer in *.
    pose proof int_half_pos as Hhalf.
    pose proof (peak_length 0 message) as Hpk.
    assert (Hwf : wf_frame (frame s))
      by (unfold wf_frame, maxReadBuffer; lia).
    rewrite (getEvent_close ev (set_rx message s));
      cbn [set_rx rx frame engine recentEvent];
      [|rewrite Hd; assumption|assumption|lia|rewrite Hd; lia].
    cbv zeta.
    rewrite terminated_text;
      [|assumption|assumption|apply no_nul_take; assumption].
    rewrite take_ge by lia.
    destruct (delivery message ev (engine s)) as [ev1 c1].
    cbn [rx engine]. repeat split; reflexivity.
Qed.

End LoopBack.

(** ** [parseToHash] with a bound on the bytes *)

Section BoundedParse.
Context {B : Board}.

Lemma hash_window_bounded t start len bound :
  (start + len <= bound)%nat -> (bound <= length t)%nat ->
  hash (drop start (t ++ [NUL])) (Z.of_nat len) 0
  = hash (drop start (take bound t)) (Z.of_nat len) 0.
Proof.
  intros H1 H2. rewrite !hash_bounded. f_equal.
  rewrite drop_app_le by lia.
  rewrite take_app_le by (rewrite length_drop; lia).
  rewrite <- (take_drop bound t) at 1.
  rewrite drop_app_le by (rewrite length_take; lia).
  rewrite take_app_le; [reflexivity|].
  rewrite length_drop, length_take. lia.
Qed.

(** The loop of [parseToHash] under a bound [length] that does not fall
    on a separator hashes the pieces of the bytes within the bound. *)
Lemma parseToHash_loop_bounded t rest index start count hashCount separator
  (length : nat) :
  0 <= start <= index ->
  rest = drop (Z.to_nat index) t ->
  (0 < length)%nat ->
  (Z.to_nat index + length <= List.length t)%nat ->
  (forall ch, rest !! (length - 1)%nat = Some ch ->
              Ascii.eqb ch separator = false) ->
  parseToHash_loop (t ++ [NUL]) rest index start count hashCount
    separator (Z.of_nat length)
  = map (fun e => hash (EPtr.value (EPtr.payload e)) (EPtr.length e) 0)
      (EPtr_parse_loop (take (Z.to_nat index + length) t)
         (take length rest) index start count hashCount separator).
Proof.
  revert index start count length.
  induction rest as [|ch rest IH];
    intros index start count length Hi Hrest Hpos Hlen Hsep.
  - exfalso. pose proof (length_drop t (Z.to_nat index)) as Hl.
    rewrite <- Hrest in Hl. simpl in Hl. lia.
  - symmetry in Hrest.
    destruct (drop_cons_next t _ _ _ Hrest) as [Hnext Hlt].
    destruct length as [|length]; [lia|].
    cbn [take]. cbn [parseToHash_loop EPtr_parse_loop]. unfold hash_len.
    destruct (Z.eqb_spec (Z.of_nat (S length)) (-1)); [lia|].
    destruct (Z.ltb_spec 0 (Z.of_nat (S length))); [|lia].
    cbn [orb].
    replace (Z.of_nat (S length) - 1) with (Z.of_nat length) by lia.
    destruct length as [|length].
    + (* the bound is reached at this byte *)
      change (Z.of_nat 0) with 0. change (0 =? 0) with true.
      cbv iota. rewrite orb_true_r, take_0.
      rewrite (Hsep ch eq_refl).
      cbn [EPtr_parse_loop].
      destruct (Z.ltb_spec start (index + 1)); [|lia].
      cbn [map EPtr_of_mem EPtr.value EPtr.payload EPtr.length]. f_equal.
      * pose proof (hash_window_bounded t (Z.to_nat start)
                      (Z.to_nat (index - start + 1)) (Z.to_nat index + 1))
          as Hw.
        rewrite Z2Nat.id in Hw by lia.
        replace (index + 1 - start) with (index - start + 1) by lia.
        apply Hw; lia.
      * destruct (count + 1 =? hashCount); [reflexivity|].
        destruct rest; reflexivity.
    + destruct (Z.eqb_spec (Z.of_nat (S length)) 0); [lia|].
      rewrite orb_false_r. rewrite Z.add_0_r.
      assert (Hw : hash (drop (Z.to_nat start) (t ++ [NUL])) (index - start) 0
                   = hash (drop (Z.to_nat start)
                             (take (Z.to_nat index + S (S length)) t))
                       (index - start) 0).
      { pose proof (hash_window_bounded t (Z.to_nat start)
                      (Z.to_nat (index - start))
                      (Z.to_nat index + S (S length))) as Hw.
        rewrite Z2Nat.id in Hw by lia. apply Hw; lia. }
      assert (Hidx : (Z.to_nat (index + 1) + S length
                      = Z.to_nat index + S (S length))%nat) by lia.
      destruct (Ascii.eqb ch separator).
      * cbn [map EPtr_of_mem EPtr.value EPtr.payload EPtr.length].
        rewrite Hw. f_equal.
        destruct (count + 1 =? hashCount); [reflexivity|].
        rewrite <- Hidx. apply IH; try lia.
        -- rewrite Z2Nat.inj_add by lia. rewrite Nat.add_1_r.
           symmetry. exact Hnext.
        -- intros ch' Hch. apply Hsep.
           replace (S (S length) - 1)%nat with (S (S length - 1)) by lia.
           exact Hch.
      * rewrite <- Hidx. apply IH; try lia.
        -- rewrite Z2Nat.inj_add by lia. rewrite Nat.add_1_r.
           symmetry. exact Hnext.
        -- intros ch' Hch. apply Hsep.
           replace (S (S length) - 1)%nat with (S (S length - 1)) by lia.
           exact Hch.
Qed.

(** X30.  [parseToHash] with a bound of [length] bytes, when the bound
    lies within the text and its last byte is not a separator, stores
    the hashes that it stores without a bound for the text cut after
    [length] bytes. *)
Theorem parseToHash_bound_cuts_the_text
  (t : text) (hashCount : Z) (separator : ascii) (length : nat) :
  (0 < length <= List.length (c_str t))%nat ->
  (forall ch, c_str t !! (length - 1)%nat = Some ch ->
              Ascii.eqb ch separator = false) ->
  parseToHash t hashCount separator (Z.of_nat length)
  = parseToHash (take length (c_str t)) hashCount separator (-1).
Proof.
  intros Hlen Hsep. unfold parseToHash.
  rewrite (c_str_no_nul (take length (c_str t)))
    by (apply no_nul_take, no_nul_c_str).
  rewrite (parseToHash_loop_pieces (take length (c_str t)));
    [|lia|simpl; lia|reflexivity].
  apply (parseToHash_loop_bounded (c_str t) (c_str t) 0 0 0 hashCount
           separator length); try lia; try reflexivity. exact Hsep.
Qed.

End BoundedParse.
(** ** The driver on the example board *)

#[local] Existing Instance Uno.board.
#[local] Existing Instance Uno.json.
#[local] Existing Instance Uno.header.

(** C3, on a frame of 210 bytes that arrives in four chunks.  The frame is
    balanced and longer than the buffer, and the parser rejects the 127
    bytes that are kept, so nothing is decoded and no callback is called;
    and yet the poll that reads the closing brace returns true. *)
Theorem overflowing_frame_reports_event :
  let big := lit "{'Tag':'" ++ repeat "a"%char 200 ++ lit "'}" in
  let script :=
    [mkMoment 1 (take 60 big); mkMoment 1 (take 60 (drop 60 big));
     mkMoment 1 (take 60 (drop 120 big)); mkMoment 1 (drop 180 big)] in
  let polled := polls script Uno.event0 Uno.shield0 in
  balanced big = true
  /\ maxReadBuffer < Z.of_nat (length big)
  /\ parseObject (take 127 big) = None
  /\ fst (fst polled) = [false; false; false; true]
  /\ length (log (engine (snd polled))) = 0%nat.
Proof. cbv zeta. repeat apply conj; vm_compute; reflexivity. Qed.

(** An overflowing frame whose first 127 bytes hold a whole object, here
    because a brace inside a text keeps the assembler's depth up: the bytes
    kept parse, the event is decoded from them and the observer is
    called. *)
Example overflowing_frame_with_whole_object_kept :
  let big := lit "{'Id':5,'T':'{'}" ++ repeat "x"%char 150 ++ lit "}" in
  let polled := getEvent Uno.event0 (set_rx big Uno.shield0) in
  balanced big = true
  /\ maxReadBuffer < Z.of_nat (length big)
  /\ fst (fst polled) = true
  /\ ShieldEvent.id (snd (fst polled)) = 5
  /\ length (log (engine (snd polled))) = 1%nat.
Proof. cbv zeta. repeat apply conj; vm_compute; reflexivity. Qed.

(** C4, on 256 sends in a row from a driver whose [nextId] is 1.
    [beginWrite] returns 1 to 256; [writeAll] returns 1 to 255 and then 0,
    for the message that carries the id 256. *)
Theorem writeAll_returns_zero_after_255 :
  let at_256 := writeAll_service SERVICE_NAME_SERVICE
                  (set_nextId 256 Uno.engine0) in
  begun_ids 256 SERVICE_NAME_SERVICE Uno.engine0
  = map Z.of_nat (seq 1 256)
  /\ sent_ids 256 SERVICE_NAME_SERVICE Uno.engine0
     = map Z.of_nat (seq 1 255) ++ [0]
  /\ fst at_256 = 0
  /\ tx (snd at_256) = lit "{'Service':'SYSTEM','Id':256}".
Proof. cbv zeta. repeat apply conj; vm_compute; reflexivity. Qed.

(** C5, on two frames that are in the port together when [waitFor] is
    called for id 5 with the filter -1: the first poll decodes an event
    whose id is 5, well within the timeout; the same call of
    [checkSensors] goes on to the event whose id is 6 and keeps the answer
    for that one, so [waitFor] polls until the timeout and returns zero.
    With the first frame alone it returns 5. *)
Theorem waitFor_misses_event_followed_by_another :
  let both := set_rx (lit "{'Id':5}{'Id':6}") Uno.shield0 in
  let alone := set_rx (lit "{'Id':5}") Uno.shield0 in
  let script := [mkMoment 5 []; mkMoment 5 []] in
  (fst (fst (getEvent Uno.event0 both)) = true
   /\ ShieldEvent.id (snd (fst (getEvent Uno.event0 both))) = 5)
  /\ option_map fst (waitFor script 5 10 true (-1) both) = Some 0
  /\ option_map fst (waitFor script 5 10 true (-1) alone) = Some 5.
Proof. cbv zeta. repeat apply conj; vm_compute; reflexivity. Qed.

(** C6, as the claim has it, fails at the id zero: with a frame in the
    port, [waitFor] for id 0 reads the frame and runs the decoder before it
    returns. *)
Lemma waitFor_zero_id_polls :
  ~ (forall id : Z, id <= 0 -> returns_at_once id).
Proof.
  intros H.
  specialize (H 0 ltac:(lia) [mkMoment 5 []; mkMoment 5 []] 10 true (-1)
                (set_rx (lit "{}") Uno.shield0)).
  apply (f_equal (option_map (fun r => rx (snd r)))) in H.
  vm_compute in H. discriminate H.
Qed.

(** C9, on a frame with [Type] "L" and [Tag] "abc": the event that comes
    out of the poll has "L" in its tag. *)
Theorem tag_holds_type_instead_of_tag :
  let json := lit "{'Type':'L','Tag':'abc'}" in
  let polled := getEvent Uno.event0 (set_rx json Uno.shield0) in
  option_map (fun root => as_text root (lit "Tag")) (parseObject json)
  = Some (Some (lit "abc"))
  /\ fst (fst polled) = true
  /\ ShieldEvent.tag (snd (fst polled)) = Some (lit "L").
Proof. cbv zeta. repeat apply conj; vm_compute; reflexivity. Qed.

(** ** The general statements at work on the example board *)

Lemma frame_split_over_two_polls_witness :
  let m1 := mkMoment 0 (lit "{'Id':5,'V':{'x':1}") in
  let m2 := mkMoment 3 (lit ",'W':2}") in
  (idle Uno.shield0
   /\ balanced (arriving m1 ++ arriving m2) = true
   /\ arriving m2 <> []
   /\ no_nul (arriving m1 ++ arriving m2) = true
   /\ Z.of_nat (length (arriving m1 ++ arriving m2)) < maxReadBuffer)
  /\ (let '(has1, ev1, s1) := getEvent Uno.event0 (pass m1 Uno.shield0) in
      let '(has2, ev2, s2) := getEvent ev1 (pass m2 s1) in
      has1 = false /\ ev1 = Uno.event0
      /\ log (engine s1) = log (engine Uno.shield0)
      /\ has2 = true
      /\ (ev2, engine s2)
         = delivery (arriving m1 ++ arriving m2) Uno.event0
             (engine (pass m2 s1))
      /\ idle s2).
Proof.
  intros m1 m2.
  assert (Hidle : idle Uno.shield0) by (repeat split; reflexivity).
  assert (Hne : arriving m2 <> []) by discriminate.
  assert (Hlen : Z.of_nat (length (arriving m1 ++ arriving m2))
                 < maxReadBuffer) by (vm_compute; reflexivity).
  split.
  - repeat apply conj; first [exact Hne|exact Hlen|reflexivity].
  - exact (frame_split_over_two_polls m1 m2 Uno.event0 Uno.shield0
             Hidle eq_refl Hne eq_refl Hlen).
Defined.

Lemma overflow_then_next_frame_witness :
  let big := lit "{'Tag':'" ++ repeat "a"%char 200 ++ lit "'}" in
  let script :=
    [mkMoment 1 (take 60 big); mkMoment 1 (take 60 (drop 60 big));
     mkMoment 1 (take 60 (drop 120 big)); mkMoment 1 (drop 180 big)] in
  let m := mkMoment 2 (lit "{'Id':7}") in
  (idle Uno.shield0
   /\ balanced (concat (map arriving script)) = true
   /\ maxReadBuffer < Z.of_nat (length (concat (map arriving script)))
   /\ peak 0 (concat (map arriving script)) < 2 ^ (int_bits - 1)
   /\ balanced (arriving m) = true
   /\ no_nul (arriving m) = true
   /\ Z.of_nat (length (arriving m)) < maxReadBuffer)
  /\ (let '(_, ev1, s1) := polls script Uno.event0 Uno.shield0 in
      let '(has2, ev2, s2) := getEvent ev1 (pass m s1) in
      rx s1 = [] /\ readBufferIndex (frame s1) = 0
      /\ bracketCount (frame s1) = 0
      /\ readBuffer (frame s1)
         = take 127 (concat (map arriving script)) ++ [NUL]
      /\ has2 = true
      /\ (ev2, engine s2) = delivery (arriving m) ev1 (engine (pass m s1))).
Proof.
  intros big script m.
  assert (Hidle : idle Uno.shield0) by (repeat split; reflexivity).
  assert (Hbal : balanced (concat (map arriving script)) = true)
    by (vm_compute; reflexivity).
  assert (Hlong : maxReadBuffer
                  < Z.of_nat (length (concat (map arriving script))))
    by (vm_compute; reflexivity).
  assert (Hpk : peak 0 (concat (map arriving script))
                < 2 ^ (int_bits - 1)) by (vm_compute; reflexivity).
  assert (Hlen : Z.of_nat (length (arriving m)) < maxReadBuffer)
    by (vm_compute; reflexivity).
  split.
  - repeat apply conj; first [assumption|reflexivity].
  - exact (overflow_then_next_frame script m Uno.event0 Uno.shield0
             Hidle Hbal Hlong Hpk eq_refl eq_refl Hlen).
Defined.

Lemma ping_sends_one_pong_witness :
  let root : JsonObject :=
    [(lit "Type", Uno.JString (lit "!"));
     (lit "Result", Uno.JString (lit "PING"))] in
  (as_text root (lit "Type") = Some (lit "!")
   /\ first_char (lit "!") = SYSTEM_EVENT
   /\ hash_of (as_text root (lit "Result")) = PING_HASH)
  /\ (let (ev', c') := onJsonReceived root Uno.event0 Uno.engine0 in
      tx c' = tx Uno.engine0
              ++ pong_message (nextId Uno.engine0)
                   (isArrayStarted Uno.engine0)
      /\ log c' = log Uno.engine0 ++ observer Uno.engine0 ev'
      /\ (forall e, In (Invoked onRefresh e) (log c') ->
                    In (Invoked onRefresh e) (log Uno.engine0))).
Proof.
  intros root. split.
  - repeat apply conj; reflexivity.
  - exact (ping_sends_one_pong root Uno.event0 Uno.engine0 (lit "!")
             eq_refl eq_refl eq_refl).
Defined.

Lemma first_matching_sensor_decodes_witness :
  let root : JsonObject := [(lit "Type", Uno.JString (lit "L"))] in
  let c := set_sensors [Uno.plain "T"; Uno.plain "L"; Uno.plain "S"]
             Uno.engine0 in
  (as_text root (lit "Type") = Some (lit "L")
   /\ first_char (lit "L") <> SYSTEM_EVENT)
  /\ (let (ev', c') := onJsonReceived root Uno.event0 c in
      (forall i s,
          sensors c !! i = Some s -> sensorType s = first_char (lit "L") ->
          (forall j s', sensors c !! j = Some s' -> (j < i)%nat ->
                        sensorType s' <> first_char (lit "L")) ->
          log c' = log c ++ [Decoded i (populate root Uno.event0)]
                   ++ observer c ev')
      /\ ((forall s, In s (sensors c) ->
                     sensorType s <> first_char (lit "L")) ->
          log c' = log c ++ observer c ev')
      /\ (map sensorType (sensors c) = ["T"; "L"; "S"]%char ->
          first_char (lit "L") = "L"%char ->
          log c' = log c ++ [Decoded 1 (populate root Uno.event0)]
                   ++ observer c ev')).
Proof.
  intros root c.
  assert (Hsys : first_char (lit "L") <> SYSTEM_EVENT) by discriminate.
  split.
  - split; [reflexivity|exact Hsys].
  - exact (first_matching_sensor_decodes root Uno.event0 c (lit "L")
             eq_refl Hsys).
Defined.

Lemma waitFor_negative_id_returns_witness :
  -1 < 0
  /\ (returns_at_once (-1)
      /\ forall script timeout asSuccess resultId s,
           waitFor script 0 timeout asSuccess resultId s
           = match
               waitFor_loop script 0 (timeout + millis (engine s))
                 resultId s
             with
             | Some (_, s1) => Some (0, s1)
             | None => None
             end).
Proof.
  assert (Hneg : -1 < 0) by reflexivity.
  split; [exact Hneg|].
  exact (waitFor_negative_id_returns (-1) Hneg).
Defined.

(** ** The further statements at work on the example board *)

Lemma polls_keep_buffer_bounds_witness :
  let script :=
    [mkMoment 1 (lit "{'Id':5,"); mkMoment 1 (lit "'V':1}{'Id'")] in
  wf_frame (frame Uno.shield0)
  /\ wf_frame (frame (snd (polls script Uno.event0 Uno.shield0))).
Proof.
  intros script.
  assert (Hwf : wf_frame (frame Uno.shield0))
    by (repeat split; vm_compute; congruence).
  split; [exact Hwf|].
  exact (polls_keep_buffer_bounds script Uno.event0 Uno.shield0 Hwf).
Defined.

Lemma one_frame_per_poll_witness :
  let f1 := lit "{'Id':5}" in
  let f2 := lit "{'Id':6,'V':{'x':1}}" in
  (idle Uno.shield0
   /\ balanced f1 = true /\ no_nul f1 = true
   /\ Z.of_nat (length f1) < maxReadBuffer
   /\ balanced f2 = true /\ no_nul f2 = true
   /\ Z.of_nat (length f2) < maxReadBuffer)
  /\ (let '(has1, ev1, s1) :=
        getEvent Uno.event0 (set_rx (f1 ++ f2) Uno.shield0) in
      let '(has2, ev2, s2) := getEvent ev1 s1 in
      has1 = true /\ rx s1 = f2
      /\ (ev1, engine s1) = delivery f1 Uno.event0 (engine Uno.shield0)
      /\ has2 = true /\ rx s2 = []
      /\ (ev2, engine s2) = delivery f2 ev1 (engine s1)).
Proof.
  intros f1 f2.
  assert (Hidle : idle Uno.shield0) by (repeat split; reflexivity).
  assert (Hl1 : Z.of_nat (length f1) < maxReadBuffer) by reflexivity.
  assert (Hl2 : Z.of_nat (length f2) < maxReadBuffer) by reflexivity.
  split.
  - repeat apply conj; first [exact Hidle|exact Hl1|exact Hl2|reflexivity].
  - exact (one_frame_per_poll f1 f2 Uno.event0 Uno.shield0
             Hidle eq_refl eq_refl Hl1 eq_refl eq_refl Hl2).
Defined.

Lemma stray_closing_brace_ends_a_frame_witness :
  let l := lit "'Id':5" in
  let rest := lit "{'Id':6}" in
  (idle Uno.shield0
   /\ brace_free l = true /\ no_nul l = true
   /\ Z.of_nat (length l) + 1 < maxReadBuffer)
  /\ (let '(has, ev', s') :=
        getEvent Uno.event0 (set_rx (l ++ "}"%char :: rest) Uno.shield0) in
      has = true /\ rx s' = rest
      /\ (ev', engine s')
         = delivery (l ++ ["}"%char]) Uno.event0 (engine Uno.shield0)
      /\ readBufferIndex (frame s') = 0 /\ bracketCount (frame s') = 0).
Proof.
  intros l rest.
  assert (Hidle : idle Uno.shield0) by (repeat split; reflexivity).
  assert (Hlen : Z.of_nat (length l) + 1 < maxReadBuffer) by reflexivity.
  split.
  - repeat apply conj; first [exact Hidle|exact Hlen|reflexivity].
  - exact (stray_closing_brace_ends_a_frame l rest Uno.event0 Uno.shield0
             Hidle eq_refl eq_refl Hlen).
Defined.

Lemma probe_follows_data_after_25_ms_witness :
  let s := set_rx (lit "abc") Uno.shield0 in
  let m := mkMoment 26 [] in
  let r := getEvent Uno.event0 s in
  (rx s <> []
   /\ getEvent Uno.event0 s = (fst (fst r), snd (fst r), snd r)
   /\ rx (snd r) = [] /\ arriving m = [])
  /\ tx (engine (snd (getEvent (snd (fst r)) (pass m (snd r)))))
     = tx (engine (snd r))
       ++ (if perMessageInterval <? elapsed m then AWAITING_MESSAGE else []).
Proof.
  intros s m r.
  assert (Hne : rx s <> []) by discriminate.
  assert (Hr : getEvent Uno.event0 s = (fst (fst r), snd (fst r), snd r))
    by (unfold r; destruct (getEvent Uno.event0 s) as [[h e] s1];
        reflexivity).
  assert (Hrx : rx (snd r) = []) by (vm_compute; reflexivity).
  split.
  - repeat apply conj; first [exact Hne|exact Hr|exact Hrx|reflexivity].
  - exact (probe_follows_data_after_25_ms Uno.event0 (snd (fst r)) s (snd r)
             (fst (fst r)) m Hne Hr Hrx eq_refl).
Defined.

Lemma probe_repeats_after_1000_ms_witness :
  let s :=
    set_engine (set_millis 1001 (engine Uno.shield0)) Uno.shield0 in
  let m := mkMoment 1000 [] in
  (rx s = [] /\ arriving m = []
   /\ lastOpenRequest (engine s) + requestInterval < millis (engine s))
  /\ (let s1 := snd (getEvent Uno.event0 s) in
      tx (engine s1) = tx (engine s) ++ AWAITING_MESSAGE
      /\ tx (engine (snd (getEvent Uno.event0 (pass m s1))))
         = tx (engine s1)
           ++ (if requestInterval <? elapsed m
               then AWAITING_MESSAGE else [])).
Proof.
  intros s m.
  assert (Hlate : lastOpenRequest (engine s) + requestInterval
                  < millis (engine s)) by reflexivity.
  split.
  - repeat apply conj; first [exact Hlate|reflexivity].
  - exact (probe_repeats_after_1000_ms Uno.event0 s m eq_refl eq_refl Hlate).
Defined.

Lemma addSensors_keeps_first_ten_witness :
  let l := map Uno.plain (lit "ABCDEFGHIJKL") in
  let c := set_sensors [Uno.plain "T"] Uno.engine0 in
  sensorCount c <= maxRememberedSensors
  /\ (let room := (10 - length (sensors c))%nat in
      addSensors l c
      = (repeat true (min (length l) room)
         ++ repeat false (length l - room),
         set_sensors (take 10 (sensors c ++ l)) c)).
Proof.
  intros l c.
  assert (Hle : sensorCount c <= maxRememberedSensors)
    by (vm_compute; congruence).
  split; [exact Hle|].
  exact (addSensors_keeps_first_ten l c Hle).
Defined.

Lemma added_sensor_decodes_its_events_witness :
  let sensor := Uno.plain "L" in
  let root : JsonObject := [(lit "Type", Uno.JString (lit "L"))] in
  let c := set_sensors [Uno.plain "T"] Uno.engine0 in
  (sensorCount c < maxRememberedSensors
   /\ (forall s, In s (sensors c) -> sensorType s <> sensorType sensor)
   /\ as_text root (lit "Type") = Some (lit "L")
   /\ first_char (lit "L") = sensorType sensor
   /\ sensorType sensor <> SYSTEM_EVENT)
  /\ (let (added, c1) := addSensor sensor c in
      let (ev', c') := onJsonReceived root Uno.event0 c1 in
      added = true
      /\ ev' = attach (length (sensors c))
                 (sensor_onJsonReceived sensor root
                    (populate root Uno.event0))
      /\ log c' = log c
                  ++ [Decoded (length (sensors c)) (populate root Uno.event0)]
                  ++ observer c ev').
Proof.
  intros sensor root c.
  assert (Hroom : sensorCount c < maxRememberedSensors) by reflexivity.
  assert (Hfresh : forall s, In s (sensors c) ->
                             sensorType s <> sensorType sensor)
    by (intros s [<-|[]]; discriminate).
  assert (Hsys : sensorType sensor <> SYSTEM_EVENT) by discriminate.
  split.
  - repeat apply conj;
      first [exact Hroom|exact Hfresh|exact Hsys|reflexivity].
  - exact (added_sensor_decodes_its_events sensor root Uno.event0 c (lit "L")
             Hroom Hfresh eq_refl eq_refl Hsys).
Defined.

Lemma lifecycle_events_call_their_callbacks_witness :
  let root : JsonObject :=
    [(lit "Type", Uno.JString (lit "!"));
     (lit "Result", Uno.JString (lit "CONNECT"))] in
  let cbs := [onConnect; onRefresh] in
  (as_text root (lit "Type") = Some (lit "!")
   /\ first_char (lit "!") = SYSTEM_EVENT
   /\ List.NoDup
        [PING_HASH; REFRESH_HASH; CONNECT_HASH; SUSPEND_HASH; RESUME_HASH]
   /\ In (hash_of (as_text root (lit "Result")), cbs)
        [(REFRESH_HASH, [onRefresh]);
         (CONNECT_HASH, [onConnect; onRefresh]);
         (SUSPEND_HASH, [onSuspend]);
         (RESUME_HASH, [onResume; onRefresh])])
  /\ (let e :=
        ShieldEvent.set_cargo (Some root) (populate root Uno.event0) in
      onJsonReceived root Uno.event0 Uno.engine0
      = (e, set_log
              (log Uno.engine0
               ++ flat_map (called Uno.engine0 e) (cbs ++ [onEvent]))
              Uno.engine0)).
Proof.
  intros root cbs.
  assert (Hdup : List.NoDup
                   [PING_HASH; REFRESH_HASH; CONNECT_HASH; SUSPEND_HASH;
                    RESUME_HASH])
    by (repeat (apply List.NoDup_cons;
                [vm_compute; intuition discriminate|]);
        apply List.NoDup_nil).
  assert (Hin : In (hash_of (as_text root (lit "Result")), cbs)
                  [(REFRESH_HASH, [onRefresh]);
                   (CONNECT_HASH, [onConnect; onRefresh]);
                   (SUSPEND_HASH, [onSuspend]);
                   (RESUME_HASH, [onResume; onRefresh])])
    by (right; left; reflexivity).
  split.
  - repeat apply conj; first [exact Hdup|exact Hin|reflexivity].
  - exact (lifecycle_events_call_their_callbacks root Uno.event0 Uno.engine0
             (lit "!") cbs eq_refl eq_refl Hdup Hin).
Defined.

Lemma unknown_system_event_reaches_only_the_observer_witness :
  let root : JsonObject :=
    [(lit "Type", Uno.JString (lit "!"));
     (lit "Result", Uno.JString (lit "HELLO"))] in
  (as_text root (lit "Type") = Some (lit "!")
   /\ first_char (lit "!") = SYSTEM_EVENT
   /\ ~ In (hash_of (as_text root (lit "Result")))
          [PING_HASH; REFRESH_HASH; CONNECT_HASH; SUSPEND_HASH; RESUME_HASH])
  /\ (let e :=
        ShieldEvent.set_cargo (Some root) (populate root Uno.event0) in
      onJsonReceived root Uno.event0 Uno.engine0
      = (e, set_log (log Uno.engine0 ++ called Uno.engine0 e onEvent)
              Uno.engine0)).
Proof.
  intros root.
  assert (Hnot : ~ In (hash_of (as_text root (lit "Result")))
                     [PING_HASH; REFRESH_HASH; CONNECT_HASH; SUSPEND_HASH;
                      RESUME_HASH])
    by (vm_compute; intuition discriminate).
  split.
  - repeat apply conj; first [exact Hnot|reflexivity].
  - exact (unknown_system_event_reaches_only_the_observer root Uno.event0
             Uno.engine0 (lit "!") eq_refl eq_refl Hnot).
Defined.

Lemma frame_without_type_skips_the_sensors_witness :
  let root : JsonObject :=
    [(lit "Tag", Uno.JString (lit "L")); (lit "Id", Uno.JInteger 4)] in
  let c := set_sensors [Uno.plain "L"] Uno.engine0 in
  as_text root (lit "Type") = None
  /\ (let e := populate root Uno.event0 in
      onJsonReceived root Uno.event0 c
      = (e, set_log (log c ++ called c e onEvent) c)
      /\ ShieldEvent.tag e = None).
Proof.
  intros root c. split; [reflexivity|].
  exact (frame_without_type_skips_the_sensors root Uno.event0 c eq_refl).
Defined.

Lemma unclaimed_event_reaches_only_the_observer_witness :
  let root : JsonObject := [(lit "Type", Uno.JString (lit "G"))] in
  let c := set_sensors [Uno.plain "T"; Uno.plain "L"] Uno.engine0 in
  (as_text root (lit "Type") = Some (lit "G")
   /\ first_char (lit "G") <> SYSTEM_EVENT
   /\ (forall s, In s (sensors c) -> sensorType s <> first_char (lit "G")))
  /\ (let e := populate root Uno.event0 in
      onJsonReceived root Uno.event0 c
      = (e, set_log (log c ++ called c e onEvent) c)).
Proof.
  intros root c.
  assert (Hsys : first_char (lit "G") <> SYSTEM_EVENT) by discriminate.
  assert (Hnone : forall s, In s (sensors c) ->
                            sensorType s <> first_char (lit "G"))
    by (intros s [<-|[<-|[]]]; discriminate).
  split.
  - repeat apply conj; first [exact Hsys|exact Hnone|reflexivity].
  - exact (unclaimed_event_reaches_only_the_observer root Uno.event0 c
             (lit "G") eq_refl Hsys Hnone).
Defined.



Lemma checkSensors_answers_for_a_lone_frame_witness :
  let f := lit "{'Id':5,'ResultId':2}" in
  (idle Uno.shield0 /\ balanced f = true /\ no_nul f = true
   /\ Z.of_nat (length f) < maxReadBuffer)
  /\ (let (ev, c) :=
        delivery f (recentEvent Uno.shield0)
          (set_recentEventErrorId 0 (engine Uno.shield0)) in
      exists s',
        checkSensors 5 0 (-1) (set_rx f Uno.shield0)
        = Some (((5 =? 0) || (ShieldEvent.id ev =? 5))
                && ((-1 =? -1) || (ShieldEvent.resultId ev =? -1)), s')
        /\ rx s' = [] /\ recentEvent s' = ev /\ engine s' = c).
Proof.
  intros f.
  assert (Hidle : idle Uno.shield0) by (repeat split; reflexivity).
  assert (Hlen : Z.of_nat (length f) < maxReadBuffer) by reflexivity.
  split.
  - repeat apply conj; first [exact Hidle|exact Hlen|reflexivity].
  - exact (checkSensors_answers_for_a_lone_frame f 5 (-1) Uno.shield0
             Hidle eq_refl eq_refl Hlen).
Defined.

Lemma waitFor_answers_the_id_of_a_lone_frame_witness :
  let f := lit "{'Id':5,'ResultId':2}" in
  let script := [mkMoment 10 (lit "{'Id':6}")] in
  let answer :=
    delivery f (recentEvent Uno.shield0)
      (set_recentEventErrorId 0 (engine Uno.shield0)) in
  (idle Uno.shield0 /\ balanced f = true /\ no_nul f = true
   /\ Z.of_nat (length f) < maxReadBuffer
   /\ 0 < 5 /\ 0 < 100
   /\ ShieldEvent.id (fst answer) = 5
   /\ (2 = -1 \/ ShieldEvent.resultId (fst answer) = 2))
  /\ exists s',
       waitFor script 5 100 false 2 (set_rx f Uno.shield0) = Some (5, s')
       /\ rx s' = [] /\ (recentEvent s', engine s') = answer.
Proof.
  intros f script answer.
  assert (Hidle : idle Uno.shield0) by (repeat split; reflexivity).
  assert (Hlen : Z.of_nat (length f) < maxReadBuffer) by reflexivity.
  assert (Hid : 0 < 5) by reflexivity.
  assert (Ht : 0 < 100) by reflexivity.
  assert (Hev : ShieldEvent.id (fst answer) = 5)
    by (vm_compute; reflexivity).
  assert (Hres : 2 = -1 \/ ShieldEvent.resultId (fst answer) = 2)
    by (right; vm_compute; reflexivity).
  split.
  - repeat apply conj;
      first [exact Hidle|exact Hlen|exact Hid|exact Ht|exact Hev|exact Hres
            |reflexivity].
  - exact (waitFor_answers_the_id_of_a_lone_frame script f 5 100 false 2
             Uno.shield0 Hidle eq_refl eq_refl Hlen Hid Ht Hev Hres).
Defined.

Lemma hash_continues_from_its_seed_witness :
  let a := lit "CONN" in
  let b := lit "ECT" in
  no_nul a = true
  /\ (hash (a ++ b) (-1) 0 = hash b (-1) (hash a (-1) 0)
      /\ hash (a ++ b) (Z.of_nat (length a)) 0 = hash a (-1) 0
      /\ hash b (Z.of_nat (length (c_str b))) 0 = hash b (-1) 0
      /\ (0 <= 0 < 2 ^ int_bits -> 0 <= hash b (-1) 0 < 2 ^ int_bits)).
Proof.
  intros a b. split; [reflexivity|].
  exact (hash_continues_from_its_seed a b 0 eq_refl).
Defined.

Lemma EPtr_parse_pieces_make_up_the_text_witness :
  let t := lit "ab|c||de" in
  0 <= 0
  /\ (let pieces := map piece_text (EPtr_parse t 0 "|") in
      concat (map (closed_by "|") pieces)
      = c_str t ++ missing_end "|" (c_str t)
      /\ Forall (fun piece =>
                   forallb (fun ch => negb (Ascii.eqb ch "|")) piece = true)
           pieces).
Proof.
  intros t.
  assert (H0 : 0 <= 0) by discriminate.
  split; [exact H0|].
  exact (EPtr_parse_pieces_make_up_the_text t 0 "|" H0).
Defined.

Lemma ARGB_hex_reads_back_as_the_color_witness :
  let c := ARGB.mk 255 18 171 9 in
  ARGB.bytes c
  /\ (length (ARGB.hex c) = 9%nat
      /\ length (c_str (ARGB.hex c)) = 8%nat
      /\ hex_number (c_str (ARGB.hex c)) = Some (ARGB.color c)).
Proof.
  intros c.
  assert (Hb : ARGB.bytes c) by (repeat split; vm_compute; congruence).
  split; [exact Hb|].
  exact (ARGB_hex_reads_back_as_the_color c Hb).
Defined.

Lemma format_fills_the_template_witness :
  let pairs := [(lit "rgb(", 12); (lit ",", 0); (lit ",", 255)] in
  let last := lit ")" in
  (forallb (fun p => segment (fst p)) pairs = true
   /\ segment last = true)
  /\ writeValue
       (EPtr_of_list Ptr.Format (lit "Color")
          (EPtr.of_prog [] (template_of pairs last)
           :: map (fun p => EPtr.of_int [] (snd p)) pairs
              ++ [EPtr.of_int [] 7]) 4)
       DEFAULT_LENGTH Uno.engine0
     = (0, set_tx (tx Uno.engine0 ++ filled pairs last) Uno.engine0).
Proof.
  intros pairs last. split; [split; reflexivity|].
  exact (format_fills_the_template (lit "Color") [] [] pairs last
           [EPtr.of_int [] 7] 4 DEFAULT_LENGTH Uno.engine0 eq_refl eq_refl).
Defined.

Lemma written_message_is_read_as_one_frame_witness :
  let serviceName := lit "LCDG" in
  let message :=
    MESSAGE_SERVICE_START ++ c_str serviceName ++ MESSAGE_SERVICE_TO_ID
    ++ print_int (nextId Uno.engine0) ++ MESSAGE_END2 in
  (brace_free (c_str serviceName) = true
   /\ idle Uno.shield0
   /\ Z.of_nat (length message) < maxReadBuffer)
  /\ (tx (snd (writeAll_service serviceName Uno.engine0))
      = tx Uno.engine0 ++ message
      /\ let '(has, ev', s') :=
           getEvent Uno.event0 (set_rx message Uno.shield0) in
         has = true /\ rx s' = []
         /\ (ev', engine s')
            = delivery message Uno.event0 (engine Uno.shield0)).
Proof.
  intros serviceName message.
  assert (Hidle : idle Uno.shield0) by (repeat split; reflexivity).
  assert (Hlen : Z.of_nat (length message) < maxReadBuffer)
    by (vm_compute; reflexivity).
  split; [repeat apply conj; first [exact Hidle|exact Hlen|reflexivity]|].
  exact (written_message_is_read_as_one_frame serviceName Uno.engine0
           Uno.event0 Uno.shield0 eq_refl Hidle Hlen).
Defined.

Lemma parseToHash_bound_cuts_the_text_witness :
  let t := lit "ab|cd|ef" in
  ((0 < 4 <= length (c_str t))%nat
   /\ (forall ch, c_str t !! (4 - 1)%nat = Some ch ->
                  Ascii.eqb ch "|" = false))
  /\ parseToHash t 8 "|" (Z.of_nat 4)
     = parseToHash (take 4 (c_str t)) 8 "|" (-1).
Proof.
  intros t.
  assert (Hlen : (0 < 4 <= length (c_str t))%nat) by (vm_compute; lia).
  assert (Hsep : forall ch, c_str t !! (4 - 1)%nat = Some ch ->
                            Ascii.eqb ch "|" = false)
    by (intros ch H; vm_compute in H; injection H as <-; reflexivity).
  split; [split; [exact Hlen|exact Hsep]|].
  exact (parseToHash_bound_cuts_the_text t 8 "|" 4 Hlen Hsep).
Defined.
